(** * Event-Hub: slug generation, date normalisation, Event and Booking models

    A shallow embedding of the domain logic of the Event-Hub application:
    the Mongoose models [event.model.ts] and [booking.model.ts], the two
    route handlers under [app/api/events] and the outcome of [connectDB],
    followed by the properties its specification states about them.

    The program runs on ECMAScript and Mongoose, and the embedding gives
    their part as follows.

    - A string is the sequence of its UTF-16 code units, numbers in [N].
      [toLowerCase] is computed on ASCII strings; on other strings the
      Unicode case tables are a parameter, [unicodeLower].  The global
      [replace] calls of [generateSlug] are scanners that go through the
      string from left to right, as the regular expression engine does.
    - A date is its time value, a number of milliseconds in [Z].
      [toISOString] is computed.  [Date.parse] is computed on the ECMAScript
      date-time format with a full date in UTC; for any other string the
      parser of the host is a parameter, [hostParse].
    - A document is built from its input by the casts and setters of its
      schema paths (ObjectId, [trim], [lowercase]), validated, handed to
      the [pre('save')] hook, stamped with the clock and inserted.
      Validation comes before the hook, and an error at any step leaves the
      store as it was.  A validation error lists the failing paths in the
      order in which Mongoose comes to them: paths whose cast failed, paths
      that were given no value, last-declared first, paths that were set,
      and paths that hold a default.
    - An ObjectId is its 24 hexadecimal digits; a string is cast to one
      when it consists of 24 hexadecimal digits.
    - The store is the list of the stored events and the list of the stored
      bookings, each in insertion order.  The unique index on [slug]
      refuses an insert whose slug a stored event already has. *)

From Stdlib Require Import NArith ZArith List Bool Lia String Ascii.
From Stdlib Require Import Sorting.Sorted Sorting.Permutation.
Import ListNotations.

(** ** JavaScript strings *)

Module JS.

Definition char := N.
Definition jsstring := list char.

(** A string literal of the source, as code units. *)
Definition lit (s : string) : jsstring :=
  map N_of_ascii (list_ascii_of_string s).

Definition eqb (a b : jsstring) : bool :=
  if list_eq_dec N.eq_dec a b then true else false.

Definition inRange (lo hi c : N) : bool := (lo <=? c)%N && (c <=? hi)%N.

Definition isAscii (c : char) : bool := (c <? 128)%N.
Definition isUpper (c : char) : bool := inRange 65 90 c.
Definition isLower (c : char) : bool := inRange 97 122 c.
Definition isDigit (c : char) : bool := inRange 48 57 c.

Definition hyphen : char := 45%N.
Definition underscore : char := 95%N.

Definition isHyphen (c : char) : bool := (c =? hyphen)%N.

(** The class [\w] of a regular expression without the [u] and [i] flags:
    [A-Za-z0-9_]. *)
Definition isWord (c : char) : bool :=
  isUpper c || isLower c || isDigit c || (c =? underscore)%N.

(** The class [\s]: ECMAScript WhiteSpace and LineTerminator code points.
    [String.prototype.trim] strips exactly the same set. *)
Definition isSpace (c : char) : bool :=
  inRange 9 13 c || (c =? 32)%N || (c =? 160)%N || (c =? 5760)%N
  || inRange 8192 8202 c || (c =? 8232)%N || (c =? 8233)%N || (c =? 8239)%N
  || (c =? 8287)%N || (c =? 12288)%N || (c =? 65279)%N.

Fixpoint dropWhile (p : char -> bool) (s : jsstring) : jsstring :=
  match s with
  | [] => []
  | c :: r => if p c then dropWhile p r else s
  end.

Definition dropWhileEnd (p : char -> bool) (s : jsstring) : jsstring :=
  rev (dropWhile p (rev s)).

(** [s.trim()] *)
Definition trim (s : jsstring) : jsstring :=
  dropWhileEnd isSpace (dropWhile isSpace s).

Definition asciiLower (c : char) : char :=
  if isUpper c then (c + 32)%N else c.

(** [s.toLowerCase()].  On a string of ASCII code units the result maps
    [A-Z] to [a-z] and keeps every other unit.  For a string with other code
    units the Unicode case tables decide; they are the parameter
    [unicodeLower].  No code point lowercases to an ASCII capital and every
    ASCII capital is lowercased, so the result never holds one: the model
    keeps that by passing the table's result through [asciiLower]. *)
Definition toLowerCase (unicodeLower : jsstring -> jsstring) (s : jsstring)
  : jsstring :=
  if forallb isAscii s then map asciiLower s
  else map asciiLower (unicodeLower s).

(** [s.replace(/[C]/g, rep)]: every code unit of the class is one match. *)
Fixpoint replaceEach (C : char -> bool) (rep s : jsstring) : jsstring :=
  match s with
  | [] => []
  | c :: r => if C c then rep ++ replaceEach C rep r
              else c :: replaceEach C rep r
  end.

(** [s.replace(/[C]+/g, rep)]: the scan goes left to right, a match starts at
    the first unit of the class and, [+] being greedy, takes the whole run.
    [inMatch] tells that the unit before the head belongs to the current
    match. *)
Fixpoint replaceRunsFrom (C : char -> bool) (rep : jsstring) (inMatch : bool)
  (s : jsstring) : jsstring :=
  match s with
  | [] => []
  | c :: r =>
      if C c then
        if inMatch then replaceRunsFrom C rep true r
        else rep ++ replaceRunsFrom C rep true r
      else c :: replaceRunsFrom C rep false r
  end.

Definition replaceRuns (C : char -> bool) (rep s : jsstring) : jsstring :=
  replaceRunsFrom C rep false s.

(** [s.replace(/^-+|-+$/g, '')].  The first alternative matches only at
    index 0 and takes the leading run of hyphens; [leading] tells that the
    scan is still inside it.  Elsewhere only [-+$] can match, which needs
    every unit from the head to the end of the string to be a hyphen. *)
Fixpoint stripEdgeHyphensFrom (leading : bool) (s : jsstring) : jsstring :=
  match s with
  | [] => []
  | c :: r =>
      if isHyphen c then
        if leading then stripEdgeHyphensFrom true r
        else if forallb isHyphen r then []
        else c :: stripEdgeHyphensFrom false r
      else c :: stripEdgeHyphensFrom false r
  end.

Definition stripEdgeHyphens (s : jsstring) : jsstring :=
  stripEdgeHyphensFrom true s.

(** [hay.includes(needle)] *)
Fixpoint isPrefix (p s : jsstring) : bool :=
  match p, s with
  | [], _ => true
  | _ :: _, [] => false
  | a :: p', b :: s' => (a =? b)%N && isPrefix p' s'
  end.

Fixpoint includes (needle hay : jsstring) : bool :=
  isPrefix needle hay ||
  match hay with
  | [] => false
  | _ :: r => includes needle r
  end.

End JS.

Import JS.

(** ** The Event model ([event.model.ts]) *)

Section SlugGenerator.

Variable unicodeLower : jsstring -> jsstring.

(** [generateSlug]: the chain of string methods of the source. *)
Definition generateSlug (text : jsstring) : jsstring :=
  let lowered := toLowerCase unicodeLower text in
  let trimmed := trim lowered in
  let cleaned :=
    replaceEach (fun c => negb (isWord c || isSpace c || isHyphen c)) []
      trimmed in
  let hyphenated :=
    replaceRuns (fun c => isSpace c || (c =? underscore)%N || isHyphen c)
      [hyphen] cleaned in
  stripEdgeHyphens hyphenated.

End SlugGenerator.

(** The same transformation as the specification words it, step by step:
    keep the word characters, whitespace and hyphens; turn each run of
    whitespace, underscores and hyphens into one hyphen; drop the hyphens at
    both ends. *)
Module SlugSpec.

Definition isSeparator (c : char) : bool :=
  isSpace c || (c =? underscore)%N || isHyphen c.

Definition keepSlugChars (s : jsstring) : jsstring :=
  filter (fun c => isWord c || isSpace c || isHyphen c) s.

(** Read from the right: a separator adds a hyphen unless the text after it
    already starts with one, which can only stand for the rest of its run. *)
Definition collapseRuns (s : jsstring) : jsstring :=
  fold_right
    (fun c acc =>
       if isSeparator c then
         match acc with
         | h :: _ => if isHyphen h then acc else hyphen :: acc
         | [] => [hyphen]
         end
       else c :: acc)
    [] s.

Definition stripHyphens (s : jsstring) : jsstring :=
  dropWhileEnd isHyphen (dropWhile isHyphen s).

Definition slug (unicodeLower : jsstring -> jsstring) (title : jsstring)
  : jsstring :=
  stripHyphens
    (collapseRuns (keepSlugChars (trim (toLowerCase unicodeLower title)))).

End SlugSpec.

(** ** Dates: the parts of ECMAScript's [Date] that [normalizeDate] uses *)

Module JSDate.

Open Scope Z_scope.

Definition msPerDay : Z := 86400000.

Definition Day (t : Z) : Z := t / msPerDay.

Definition DayFromYear (y : Z) : Z :=
  365 * (y - 1970) + (y - 1969) / 4 - (y - 1901) / 100 + (y - 1601) / 400.

Definition isLeapYear (y : Z) : bool :=
  ((y mod 4 =? 0) && negb (y mod 100 =? 0)) || (y mod 400 =? 0).

(** The largest year whose first day is not after the day of [t]: an
    estimate from the mean length of a year, moved by one where needed. *)
Definition YearFromTime (t : Z) : Z :=
  let d := Day t in
  let y := 1970 + (400 * d) / 146097 in
  if d <? DayFromYear y then y - 1
  else if DayFromYear (y + 1) <=? d then y + 1
  else y.

Definition DayWithinYear (t : Z) : Z := Day t - DayFromYear (YearFromTime t).

Definition InLeapYear (t : Z) : Z :=
  if isLeapYear (YearFromTime t) then 1 else 0.

(** Day number within the year on which month [m] (0 to 11) starts. *)
Definition monthStart (leap m : Z) : Z :=
  match m with
  | 0 => 0 | 1 => 31 | 2 => 59 + leap | 3 => 90 + leap | 4 => 120 + leap
  | 5 => 151 + leap | 6 => 181 + leap | 7 => 212 + leap | 8 => 243 + leap
  | 9 => 273 + leap | 10 => 304 + leap | 11 => 334 + leap
  | _ => 365 + leap
  end.

Definition MonthFromTime (t : Z) : Z :=
  let d := DayWithinYear t in
  let l := InLeapYear t in
  if d <? 31 then 0 else if d <? 59 + l then 1 else if d <? 90 + l then 2
  else if d <? 120 + l then 3 else if d <? 151 + l then 4
  else if d <? 181 + l then 5 else if d <? 212 + l then 6
  else if d <? 243 + l then 7 else if d <? 273 + l then 8
  else if d <? 304 + l then 9 else if d <? 334 + l then 10 else 11.

Definition DateFromTime (t : Z) : Z :=
  DayWithinYear t - monthStart (InLeapYear t) (MonthFromTime t) + 1.

Definition HourFromTime (t : Z) : Z := (t / 3600000) mod 24.
Definition MinFromTime (t : Z) : Z := (t / 60000) mod 60.
Definition SecFromTime (t : Z) : Z := (t / 1000) mod 60.
Definition msFromTime (t : Z) : Z := t mod 1000.

Definition DaysInMonth (y m : Z) : Z :=
  let l := if isLeapYear y then 1 else 0 in
  monthStart l m - monthStart l (m - 1).

(** [MakeDay] for a month [m] from 1 to 12 and a day of that month. *)
Definition MakeDay (y m d : Z) : Z :=
  DayFromYear y + monthStart (if isLeapYear y then 1 else 0) (m - 1) + d - 1.

(** A time value is a number of milliseconds within 8.64e15 of the epoch;
    [None] stands for NaN. *)
Definition TimeClip (t : Z) : option Z :=
  if Z.abs t <=? 8640000000000000 then Some t else None.

Definition digitChar (n : Z) : char := Z.to_N (48 + n mod 10).

(** The decimal representation on exactly [w] digits. *)
Fixpoint digits (w : nat) (n : Z) : jsstring :=
  match w with
  | O => []
  | S w' => digits w' (n / 10) ++ [digitChar n]
  end.

Definition yearString (y : Z) : jsstring :=
  if (0 <=? y) && (y <=? 9999) then digits 4 y
  else (if 0 <=? y then lit "+" else lit "-") ++ digits 6 (Z.abs y).

(** [date.toISOString()] for a valid time value: [YYYY-MM-DDTHH:mm:ss.sssZ],
    the year on six digits with a sign outside 0 to 9999. *)
Definition isoDate (t : Z) : jsstring :=
  yearString (YearFromTime t) ++ lit "-" ++ digits 2 (MonthFromTime t + 1)
  ++ lit "-" ++ digits 2 (DateFromTime t).

Definition isoTime (t : Z) : jsstring :=
  digits 2 (HourFromTime t) ++ lit ":" ++ digits 2 (MinFromTime t)
  ++ lit ":" ++ digits 2 (SecFromTime t) ++ lit "." ++ digits 3 (msFromTime t).

Definition toISOString (t : Z) : jsstring :=
  isoDate t ++ lit "T" ++ isoTime t ++ lit "Z".

(** [s.split(sep)] for a separator of one code unit. *)
Fixpoint split (sep : char) (s : jsstring) : list jsstring :=
  match s with
  | [] => [[]]
  | c :: r =>
      if (c =? sep)%N then [] :: split sep r
      else match split sep r with
           | p :: ps => (c :: p) :: ps
           | [] => [[c]]
           end
  end.

(** *** Parsing

    [Date.parse] first tries the ECMAScript date-time string format and is
    free to use heuristics of its own on anything else.  The model reads the
    forms of that format with a full calendar date in UTC,

      [YYYY-MM-DD], [YYYY-MM-DDTHH:mm(:ss(.sss))Z]

    with [YYYY] or a signed six-digit expanded year, and leaves every other
    string to the host's parser [hostParse]. *)

Definition bind {A B} (o : option A) (f : A -> option B) : option B :=
  match o with Some a => f a | None => None end.

Notation "' p <- c ;; k" := (bind c (fun p => k))
  (at level 61, p pattern, c at next level, right associativity).

Definition digitValue (c : char) : option Z :=
  if isDigit c then Some (Z.of_N c - 48) else None.

(** Exactly [n] decimal digits. *)
Fixpoint number (n : nat) (acc : Z) (s : jsstring) : option (Z * jsstring) :=
  match n with
  | O => Some (acc, s)
  | S n' =>
      match s with
      | [] => None
      | c :: r => ' v <- digitValue c ;; number n' (10 * acc + v) r
      end
  end.

Definition expect (c : char) (s : jsstring) : option jsstring :=
  match s with
  | c' :: r => if (c' =? c)%N then Some r else None
  | [] => None
  end.

Definition year (s : jsstring) : option (Z * jsstring) :=
  match s with
  | 43%N :: r => number 6 0 r
  | 45%N :: r =>
      ' (y, r') <- number 6 0 r ;;
      if y =? 0 then None else Some (- y, r')
  | _ => number 4 0 s
  end.

Definition calendarDate (s : jsstring) : option (Z * jsstring) :=
  ' (y, s) <- year s ;;
  ' s <- expect 45%N s ;;
  ' (m, s) <- number 2 0 s ;;
  ' s <- expect 45%N s ;;
  ' (d, s) <- number 2 0 s ;;
  if (1 <=? m) && (m <=? 12) && (1 <=? d) && (d <=? DaysInMonth y m)
  then Some (MakeDay y m d, s) else None.

Definition fraction (s : jsstring) : option (Z * jsstring) :=
  match s with
  | 46%N :: r => number 3 0 r
  | _ => Some (0, s)
  end.

Definition seconds (s : jsstring) : option (Z * jsstring) :=
  match s with
  | 58%N :: r =>
      ' (sec, r) <- number 2 0 r ;;
      ' (ms, r) <- fraction r ;;
      if sec <=? 59 then Some (sec * 1000 + ms, r) else None
  | _ => Some (0, s)
  end.

Definition timeOfDay (s : jsstring) : option Z :=
  match s with
  | [] => Some 0
  | 84%N :: r =>
      ' (h, r) <- number 2 0 r ;;
      ' r <- expect 58%N r ;;
      ' (mi, r) <- number 2 0 r ;;
      ' (ms, r) <- seconds r ;;
      match r with
      | [90%N] =>
          if (h <=? 23) && (mi <=? 59)
          then Some (h * 3600000 + mi * 60000 + ms) else None
      | _ => None
      end
  | _ => None
  end.

Definition isoParse (s : jsstring) : option Z :=
  ' (day, r) <- calendarDate s ;;
  ' ms <- timeOfDay r ;;
  Some (day * msPerDay + ms).

Section Parse.

Variable hostParse : jsstring -> option Z.

(** The time value of [new Date(s)]; [None] is an invalid date. *)
Definition parse (s : jsstring) : option Z :=
  match isoParse s with
  | Some t => TimeClip t
  | None => bind (hostParse s) TimeClip
  end.

End Parse.

(** The shape [YYYY-MM-DD]: four digits, two digits, two digits. *)
Definition isYMD (s : jsstring) : bool :=
  match s with
  | [y1; y2; y3; y4; h1; m1; m2; h2; d1; d2] =>
      isDigit y1 && isDigit y2 && isDigit y3 && isDigit y4 && isHyphen h1
      && isDigit m1 && isDigit m2 && isHyphen h2 && isDigit d1 && isDigit d2
  | _ => false
  end.

End JSDate.

Section Normalizers.

Variable hostParse : jsstring -> option Z.

(** [normalizeDate]: the [try] block throws exactly when the date is
    invalid, and the [catch] block returns the trimmed input.  The first
    piece of the split is what [|| ''] returns, the empty piece included. *)
Definition normalizeDate (dateString : jsstring) : jsstring :=
  match JSDate.parse hostParse dateString with
  | Some t =>
      match JSDate.split 84%N (JSDate.toISOString t) with
      | p :: _ => p
      | [] => []
      end
  | None => trim dateString
  end.

(** [normalizeTime] *)
Definition normalizeTime (timeString : jsstring) : jsstring :=
  trim timeString.

End Normalizers.

(** ** Regular expressions matched against a whole string

    [emailRegex] is anchored at both ends, so [emailRegex.test(v)] asks
    whether the whole of [v] is a word of the expression.  Matching goes by
    derivatives. *)

Module Regex.

Inductive regex : Type :=
| Void : regex
| Eps : regex
| Class : (char -> bool) -> regex
| Seq : regex -> regex -> regex
| Alt : regex -> regex -> regex
| Star : regex -> regex.

Definition Plus (r : regex) : regex := Seq r (Star r).

Fixpoint nullable (r : regex) : bool :=
  match r with
  | Void => false
  | Eps => true
  | Class _ => false
  | Seq a b => nullable a && nullable b
  | Alt a b => nullable a || nullable b
  | Star _ => true
  end.

Fixpoint deriv (c : char) (r : regex) : regex :=
  match r with
  | Void => Void
  | Eps => Void
  | Class p => if p c then Eps else Void
  | Seq a b =>
      if nullable a then Alt (Seq (deriv c a) b) (deriv c b)
      else Seq (deriv c a) b
  | Alt a b => Alt (deriv c a) (deriv c b)
  | Star a => Seq (deriv c a) (Star a)
  end.

Fixpoint matches (r : regex) (s : jsstring) : bool :=
  match s with
  | [] => nullable r
  | c :: s' => matches (deriv c r) s'
  end.

(** The words of an expression. *)
Inductive lang : regex -> jsstring -> Prop :=
| lang_eps : lang Eps []
| lang_class p c : p c = true -> lang (Class p) [c]
| lang_seq a b u v : lang a u -> lang b v -> lang (Seq a b) (u ++ v)
| lang_alt_l a b u : lang a u -> lang (Alt a b) u
| lang_alt_r a b u : lang b u -> lang (Alt a b) u
| lang_star_nil a : lang (Star a) []
| lang_star_cons a c u v :
    lang a (c :: u) -> lang (Star a) v -> lang (Star a) (c :: u ++ v).

End Regex.

(** ** Documents, errors and the store *)

(** A hexadecimal digit. *)
Inductive hexDigit : Type :=
| Hex0 | Hex1 | Hex2 | Hex3 | Hex4 | Hex5 | Hex6 | Hex7
| Hex8 | Hex9 | HexA | HexB | HexC | HexD | HexE | HexF.

Fixpoint tuple (A : Type) (n : nat) : Type :=
  match n with
  | O => unit
  | S m => (A * tuple A m)%type
  end.

(** An ObjectId: twelve bytes, held as their 24 hexadecimal digits. *)
Record ObjectId : Type := mkObjectId {
  hexDigits : tuple hexDigit 24
}.

Definition hexChar (d : hexDigit) : char :=
  match d with
  | Hex0 => 48 | Hex1 => 49 | Hex2 => 50 | Hex3 => 51
  | Hex4 => 52 | Hex5 => 53 | Hex6 => 54 | Hex7 => 55
  | Hex8 => 56 | Hex9 => 57 | HexA => 97 | HexB => 98
  | HexC => 99 | HexD => 100 | HexE => 101 | HexF => 102
  end%N.

Definition hexOfValue (n : N) : option hexDigit :=
  match n with
  | 0 => Some Hex0 | 1 => Some Hex1 | 2 => Some Hex2 | 3 => Some Hex3
  | 4 => Some Hex4 | 5 => Some Hex5 | 6 => Some Hex6 | 7 => Some Hex7
  | 8 => Some Hex8 | 9 => Some Hex9 | 10 => Some HexA | 11 => Some HexB
  | 12 => Some HexC | 13 => Some HexD | 14 => Some HexE | 15 => Some HexF
  | _ => None
  end%N.

(** The digit a character of [[0-9a-fA-F]] stands for. *)
Definition hexValue (c : char) : option hexDigit :=
  if isDigit c then hexOfValue (c - 48)
  else if inRange 97 102 c then hexOfValue (c - 87)
  else if inRange 65 70 c then hexOfValue (c - 55)
  else None.

Fixpoint readHex (n : nat) (s : jsstring) : option (tuple hexDigit n) :=
  match n return option (tuple hexDigit n) with
  | O => match s with [] => Some tt | _ :: _ => None end
  | S m =>
      match s with
      | c :: r =>
          match hexValue c, readHex m r with
          | Some d, Some t => Some (d, t)
          | _, _ => None
          end
      | [] => None
      end
  end.

Fixpoint writeHex (n : nat) : tuple hexDigit n -> jsstring :=
  match n return tuple hexDigit n -> jsstring with
  | O => fun _ => []
  | S m => fun t => hexChar (fst t) :: writeHex m (snd t)
  end.

(** The cast of a string to an ObjectId: a string of 24 hexadecimal digits
    is one, any other string is refused. *)
Definition castObjectId (s : jsstring) : option ObjectId :=
  option_map mkObjectId (readHex 24 s).

(** [id.toString()], which is [id.toHexString()]: the digits in lower
    case. *)
Definition toHexString (id : ObjectId) : jsstring :=
  writeHex 24 (hexDigits id).

(** [a.equals(b)] *)
Definition ObjectId_eqb (a b : ObjectId) : bool :=
  JS.eqb (toHexString a) (toHexString b).

(** What a failed save rejects with. *)
Inductive Error : Type :=
| ValidationError (paths : list string)
    (** Mongoose's validation error; [paths] are the keys of its [errors]
        in the order in which they were entered, the order of its message *)
| DuplicateKeyError (index : string)
    (** the store's E11000 error for a unique index *)
| TypeError
    (** a method called on [undefined] *)
| PlainError (message : jsstring)
    (** [new Error(message)] *).

Definition result (A : Type) : Type := (A + Error)%type.

(** The paths of [eventSchema], with [None] for [undefined]. *)
Record EventFields : Type := mkEventFields {
  title : option jsstring;
  slug : option jsstring;
  description : option jsstring;
  overview : option jsstring;
  image : option jsstring;
  venue : option jsstring;
  location : option jsstring;
  date : option jsstring;
  time : option jsstring;
  mode : option jsstring;
  audience : option jsstring;
  agenda : option (list jsstring);
  organizer : option jsstring;
  tags : option (list jsstring)
}.

(** A stored event: the schema paths and what Mongoose and the store add. *)
Record IEvent : Type := mkIEvent {
  _id : ObjectId;
  fields : EventFields;
  createdAt : Z;
  updatedAt : Z
}.

(** The paths of [bookingSchema].  [eventId] is a string in the input of a
    create and an ObjectId in the document. *)
Record BookingFields (Id : Type) : Type := mkBookingFields {
  eventId : option Id;
  email : option jsstring
}.

Arguments mkBookingFields {Id} eventId email.
Arguments eventId {Id} b.
Arguments email {Id} b.

Record IBooking : Type := mkIBooking {
  booking_id : ObjectId;
  booking : BookingFields ObjectId;
  bookingCreatedAt : Z;
  bookingUpdatedAt : Z
}.

(** The two collections, each in insertion order. *)
Record Store : Type := mkStore {
  events : list IEvent;
  bookings : list IBooking
}.

Definition emptyStore : Store := mkStore [] [].

Definition bind_id {I A} (id : option I) (f : I -> option A) : option A :=
  match id with Some i => f i | None => None end.

(** The state of a path of a document that was just built: its value could
    not be cast, it was given no value and is still marked as required, it
    was set, or it holds the default of its type. *)
Inductive PathState : Type := CastFailed | Unset | Modified | Defaulted.

Definition PathState_eqb (a b : PathState) : bool :=
  match a, b with
  | CastFailed, CastFailed | Unset, Unset
  | Modified, Modified | Defaulted, Defaulted => true
  | _, _ => false
  end.

Definition inState (s : PathState) (p : string * PathState) : bool :=
  PathState_eqb (snd p) s.

(** The order in which the failing paths of a new document enter [errors];
    [ps] lists the paths in schema order.  A cast error is entered when the
    document is built.  [validate()] then goes through the paths that are
    still marked as required, which the schema lists last-declared first,
    then through the paths that were set, in schema order, and then through
    the paths that hold a default. *)
Definition validationOrder (ps : list (string * PathState)) : list string :=
  map fst
    (filter (inState CastFailed) ps ++ rev (filter (inState Unset) ps)
     ++ filter (inState Modified) ps ++ filter (inState Defaulted) ps).

(** The path [p] has a validator in [vs] that fails. *)
Definition fails (vs : list (string * bool)) (p : string) : bool :=
  existsb (fun v => String.eqb (fst v) p && negb (snd v)) vs.

(** The state of a String path, and of an array path, whose default is the
    empty array. *)
Definition stringState (v : option jsstring) : PathState :=
  match v with Some _ => Modified | None => Unset end.

Definition arrayState (v : option (list jsstring)) : PathState :=
  match v with Some _ => Modified | None => Defaulted end.

Definition optEqb (a b : option jsstring) : bool :=
  match a, b with
  | Some x, Some y => JS.eqb x y
  | None, None => true
  | _, _ => false
  end.

(** ** The Event schema *)

Section EventModel.

Variable unicodeLower : jsstring -> jsstring.
Variable hostParse : jsstring -> option Z.

(** The setter of a path declared with [trim: true]. *)
Definition setTrim (v : option jsstring) : option jsstring :=
  option_map trim v.

(** The setters of a path declared with [trim: true, lowercase: true].
    Mongoose runs the setters of a path last-declared first: [lowercase],
    then [trim]. *)
Definition setTrimLowercase (v : option jsstring) : option jsstring :=
  option_map (fun s => trim (toLowerCase unicodeLower s)) v.

(** [new Event(input)]: every path goes through the setters its schema type
    declares; [mode], [agenda] and [tags] declare none. *)
Definition castEvent (i : EventFields) : EventFields :=
  {| title := setTrim (title i);
     slug := setTrimLowercase (slug i);
     description := setTrim (description i);
     overview := setTrim (overview i);
     image := setTrim (image i);
     venue := setTrim (venue i);
     location := setTrim (location i);
     date := setTrim (date i);
     time := setTrim (time i);
     mode := mode i;
     audience := setTrim (audience i);
     agenda := agenda i;
     organizer := setTrim (organizer i);
     tags := tags i |}.

(** [required] on a String path rejects [undefined] and the empty string;
    the [v.length > 0] validator of the schema rejects the empty string
    too. *)
Definition requiredString (v : option jsstring) : bool :=
  match v with
  | Some (_ :: _) => true
  | _ => false
  end.

(** [required] together with [Array.isArray(v) && v.length > 0]; a path
    that was given no value holds the empty array. *)
Definition nonEmptyArray (v : option (list jsstring)) : bool :=
  match v with
  | Some (_ :: _) => true
  | _ => false
  end.

Definition modeEnum : list jsstring :=
  [lit "online"; lit "offline"; lit "hybrid"].

Definition validMode (v : option jsstring) : bool :=
  match v with
  | Some m => requiredString v && existsb (JS.eqb m) modeEnum
  | None => false
  end.

(** The validators of the schema, path by path in the order of its
    declaration.  [slug] has none. *)
Definition eventValidators (d : EventFields) : list (string * bool) :=
  [ ("title", requiredString (title d));
    ("description", requiredString (description d));
    ("overview", requiredString (overview d));
    ("image", requiredString (image d));
    ("venue", requiredString (venue d));
    ("location", requiredString (location d));
    ("date", requiredString (date d));
    ("time", requiredString (time d));
    ("mode", validMode (mode d));
    ("audience", requiredString (audience d));
    ("agenda", nonEmptyArray (agenda d));
    ("organizer", requiredString (organizer d));
    ("tags", nonEmptyArray (tags d)) ]%string.

(** The states of the validated paths of a new document, in schema
    order. *)
Definition eventStates (d : EventFields) : list (string * PathState) :=
  [ ("title", stringState (title d));
    ("description", stringState (description d));
    ("overview", stringState (overview d));
    ("image", stringState (image d));
    ("venue", stringState (venue d));
    ("location", stringState (location d));
    ("date", stringState (date d));
    ("time", stringState (time d));
    ("mode", stringState (mode d));
    ("audience", stringState (audience d));
    ("agenda", arrayState (agenda d));
    ("organizer", stringState (organizer d));
    ("tags", arrayState (tags d)) ]%string.

(** [doc.validate()] *)
Definition validateEvent (d : EventFields) : result unit :=
  match filter (fails (eventValidators d)) (validationOrder (eventStates d))
  with
  | [] => inl tt
  | ps => inr (ValidationError ps)
  end.

(** [!this.slug]: [undefined] and the empty string are falsy. *)
Definition falsy (v : option jsstring) : bool :=
  match v with
  | Some (_ :: _) => false
  | _ => true
  end.

(** Assignments [this.slug = v], [this.date = v] and [this.time = v]: the
    value goes through the setters of the path. *)
Definition assignSlug (v : jsstring) (d : EventFields) : EventFields :=
  {| title := title d; slug := setTrimLowercase (Some v);
     description := description d; overview := overview d; image := image d;
     venue := venue d; location := location d; date := date d;
     time := time d; mode := mode d; audience := audience d;
     agenda := agenda d; organizer := organizer d; tags := tags d |}.

Definition assignDate (v : jsstring) (d : EventFields) : EventFields :=
  {| title := title d; slug := slug d;
     description := description d; overview := overview d; image := image d;
     venue := venue d; location := location d; date := setTrim (Some v);
     time := time d; mode := mode d; audience := audience d;
     agenda := agenda d; organizer := organizer d; tags := tags d |}.

Definition assignTime (v : jsstring) (d : EventFields) : EventFields :=
  {| title := title d; slug := slug d;
     description := description d; overview := overview d; image := image d;
     venue := venue d; location := location d; date := date d;
     time := setTrim (Some v); mode := mode d; audience := audience d;
     agenda := agenda d; organizer := organizer d; tags := tags d |}.

(** One statement of a hook: it updates the document or throws. *)
Definition andThen (r : result EventFields)
  (f : EventFields -> result EventFields) : result EventFields :=
  match r with
  | inl d => f d
  | inr e => inr e
  end.

(** The [pre('save')] hook of [eventSchema].  [isModified] answers
    [this.isModified(path)]; a string method called on an [undefined] path
    throws a TypeError. *)
Definition eventPreSave (isModified : string -> bool) (d : EventFields)
  : result EventFields :=
  andThen
    (if isModified "title"%string || falsy (slug d) then
       match title d with
       | Some t => inl (assignSlug (generateSlug unicodeLower t) d)
       | None => inr TypeError
       end
     else inl d)
    (fun d =>
       andThen
         (if isModified "date"%string then
            match date d with
            | Some s => inl (assignDate (normalizeDate hostParse s) d)
            | None => inr TypeError
            end
          else inl d)
         (fun d =>
            if isModified "time"%string then
              match time d with
              | Some s => inl (assignTime (normalizeTime s) d)
              | None => inr TypeError
              end
            else inl d)).

Definition isSome {A} (o : option A) : bool :=
  match o with Some _ => true | None => false end.

(** [isModified] on a document that was just built: the paths that were
    given a value. *)
Definition isModifiedNew (d : EventFields) (path : string) : bool :=
  if String.eqb path "title" then isSome (title d)
  else if String.eqb path "slug" then isSome (slug d)
  else if String.eqb path "description" then isSome (description d)
  else if String.eqb path "overview" then isSome (overview d)
  else if String.eqb path "image" then isSome (image d)
  else if String.eqb path "venue" then isSome (venue d)
  else if String.eqb path "location" then isSome (location d)
  else if String.eqb path "date" then isSome (date d)
  else if String.eqb path "time" then isSome (time d)
  else if String.eqb path "mode" then isSome (mode d)
  else if String.eqb path "audience" then isSome (audience d)
  else if String.eqb path "agenda" then isSome (agenda d)
  else if String.eqb path "organizer" then isSome (organizer d)
  else if String.eqb path "tags" then isSome (tags d)
  else false.

(** The unique index on [slug]: an insert is refused when a stored event
    has the same value (a missing value counts as a value). *)
Definition slugTaken (st : Store) (v : option jsstring) : bool :=
  existsb (fun e => optEqb (slug (fields e)) v) (events st).

(** [Event.create(input)]: build the document, validate it, run the
    [pre('save')] hook, stamp it and insert it.  [id] is the identifier the
    driver makes for the document and [now] the clock at the save. *)
Definition Event_create (st : Store) (id : ObjectId) (now : Z)
  (input : EventFields) : result IEvent * Store :=
  let doc := castEvent input in
  match validateEvent doc with
  | inr e => (inr e, st)
  | inl _ =>
      match eventPreSave (isModifiedNew doc) doc with
      | inr e => (inr e, st)
      | inl d =>
          if slugTaken st (slug d) then (inr (DuplicateKeyError "slug"), st)
          else
            let e := mkIEvent id d now now in
            (inl e, mkStore (events st ++ [e]) (bookings st))
      end
  end.

(** [Event.findOne({ slug: s })] *)
Definition Event_findOne_slug (st : Store) (s : jsstring) : option IEvent :=
  find (fun e => optEqb (slug (fields e)) (Some s)) (events st).

(** [Event.findById(id)] *)
Definition Event_findById (st : Store) (id : ObjectId) : option IEvent :=
  find (fun e => ObjectId_eqb (_id e) id) (events st).

(** [Event.find().sort({ createdAt: -1 })]: a stable sort of the collection,
    latest [createdAt] first. *)
Fixpoint insertByCreatedAt (e : IEvent) (l : list IEvent) : list IEvent :=
  match l with
  | [] => [e]
  | h :: t =>
      if (createdAt h <=? createdAt e)%Z then e :: l
      else h :: insertByCreatedAt e t
  end.

Definition Event_find_sorted (st : Store) : list IEvent :=
  fold_right insertByCreatedAt [] (events st).

(** ** The Booking model ([booking.model.ts]) *)

Definition notSpaceNorAt : Regex.regex :=
  Regex.Class (fun c => negb (isSpace c || (c =? 64)%N)).

(** [/^[^\s@]+@[^\s@]+\.[^\s@]+$/] *)
Definition emailRegex : Regex.regex :=
  Regex.Seq (Regex.Plus notSpaceNorAt)
    (Regex.Seq (Regex.Class (fun c => (c =? 64)%N))
       (Regex.Seq (Regex.Plus notSpaceNorAt)
          (Regex.Seq (Regex.Class (fun c => (c =? 46)%N))
             (Regex.Plus notSpaceNorAt)))).

(** [new Booking(input)]: [eventId] is cast to an ObjectId, and left
    without a value when the cast fails; [email] goes through its
    setters. *)
Definition castBooking (i : BookingFields jsstring)
  : BookingFields ObjectId :=
  {| eventId := bind_id (eventId i) castObjectId;
     email := setTrimLowercase (email i) |}.

Definition validEmail (v : option jsstring) : bool :=
  match v with
  | Some s => requiredString v && Regex.matches emailRegex s
  | None => false
  end.

Definition bookingValidators (d : BookingFields ObjectId)
  : list (string * bool) :=
  [ ("eventId", isSome (eventId d)); ("email", validEmail (email d)) ]%string.

Definition bookingStates (i : BookingFields jsstring)
  : list (string * PathState) :=
  [ ("eventId",
     match eventId i with
     | None => Unset
     | Some s => if isSome (castObjectId s) then Modified else CastFailed
     end);
    ("email", stringState (email i)) ]%string.

(** [doc.validate()] on the document built from [i] *)
Definition validateBooking (i : BookingFields jsstring) : result unit :=
  match filter (fails (bookingValidators (castBooking i)))
          (validationOrder (bookingStates i))
  with
  | [] => inl tt
  | ps => inr (ValidationError ps)
  end.

Definition eventMissingMessage (id : option ObjectId) : jsstring :=
  lit "Event with ID "
  ++ match id with Some i => toHexString i | None => lit "undefined" end
  ++ lit " does not exist".

(** The [pre('save')] hook of [bookingSchema]: look the event up and pass
    an error to [next] when there is none. *)
Definition bookingPreSave (st : Store) (d : BookingFields ObjectId)
  : result unit :=
  match bind_id (eventId d) (Event_findById st) with
  | Some _ => inl tt
  | None => inr (PlainError (eventMissingMessage (eventId d)))
  end.

(** [Booking.create(input)] *)
Definition Booking_create (st : Store) (id : ObjectId) (now : Z)
  (input : BookingFields jsstring) : result IBooking * Store :=
  let doc := castBooking input in
  match validateBooking input with
  | inr e => (inr e, st)
  | inl _ =>
      match bookingPreSave st doc with
      | inr e => (inr e, st)
      | inl _ =>
          let b := mkIBooking id doc now now in
          (inl b, mkStore (events st) (bookings st ++ [b]))
      end
  end.

End EventModel.

(** ** The route handlers ([app/api/events]) *)

Inductive Body : Type :=
| Message (message : jsstring)
| MessageEvent (message : jsstring) (event : IEvent)
| MessageEvents (message : jsstring) (found : list IEvent)
| MessageError (message error : jsstring)
| MessageThrown (message : jsstring)
    (** [{ message, error: e }] with the caught [Error] itself, which the
        JSON of the response writes as the empty object *).

Record Response : Type := mkResponse {
  status : Z;
  body : Body
}.

(** What [connectDB] depends on: the environment variable and, when a
    connection has to be made, whether [mongoose.connect] rejects. *)
Record Env : Type := mkEnv {
  MONGODB_URI : option jsstring;
  connectFailure : option jsstring
}.

(** [connectDB()]: the message of the error it throws, if it throws. *)
Definition connectDB (env : Env) : option jsstring :=
  if falsy (MONGODB_URI env) then
    Some (lit "Please define the MONGODB_URI environment variable inside .env.local")
  else connectFailure env.

Section Routes.

Variable unicodeLower : jsstring -> jsstring.

(** [GET /api/events/[slug]]; [slug] is [None] when the parameter is
    missing. *)
Definition GET_event (env : Env) (st : Store) (slug : option jsstring)
  : Response :=
  match connectDB env with
  | Some message =>
      if includes (lit "MONGODB_URI") message then
        mkResponse 500 (Message (lit "Database configuration error"))
      else mkResponse 500 (MessageError (lit "Failed to fetch event") message)
  | None =>
      if falsy slug || falsy (option_map trim slug) then
        mkResponse 400 (Message (lit "Invalid or missing slug parameter"))
      else
        let sanitizedSlug :=
          toLowerCase unicodeLower
            (trim (match slug with Some s => s | None => [] end)) in
        match Event_findOne_slug st sanitizedSlug with
        | None =>
            mkResponse 404
              (Message (lit "Event with slug: " ++ sanitizedSlug
                        ++ lit " not found"))
        | Some event =>
            mkResponse 200
              (MessageEvent (lit "Event fetched successfully") event)
        end
  end.

(** [GET /api/events] *)
Definition GET_events (env : Env) (st : Store) : Response :=
  match connectDB env with
  | Some _ => mkResponse 500 (MessageThrown (lit "Event fetching failed."))
  | None =>
      mkResponse 200
        (MessageEvents (lit "Event fetched successfully.")
           (Event_find_sorted st))
  end.

End Routes.

(** ** Notions the properties are stated with *)

(** The characters of a slug: [a-z], [0-9] and the hyphen. *)
Definition isSlugChar (c : char) : bool :=
  isLower c || isDigit c || isHyphen c.

(** The characters [toISOString] writes. *)
Definition isISOChar (c : char) : bool :=
  isDigit c || existsb (N.eqb c) (lit "+-T:.Z").

(** A character an email part may hold: neither whitespace nor [@]. *)
Definition isEmailChar (c : char) : bool := negb (isSpace c || (c =? 64)%N).

(** The first failing path of a list of validators. *)
Definition firstFailing (vs : list (string * bool)) : option string :=
  option_map fst (find (fun v => negb (snd v)) vs).

(** A required text is missing: it is absent, or empty once trimmed. *)
Definition missingText (v : option jsstring) : Prop :=
  forall s, v = Some s -> trim s = [].

(** A required list is missing: it is absent or has no item. *)
Definition missingItems (v : option (list jsstring)) : Prop :=
  forall l, v = Some l -> l = [].

(** A mode is not one of the three the schema allows. *)
Definition badMode (v : option jsstring) : Prop :=
  v <> Some (lit "online") /\ v <> Some (lit "offline")
  /\ v <> Some (lit "hybrid").

(** What the schema holds against an input, path by path in the order of
    its declaration. *)
Definition eventFaults (i : EventFields) : list (string * Prop) :=
  [ ("title", missingText (title i));
    ("description", missingText (description i));
    ("overview", missingText (overview i));
    ("image", missingText (image i));
    ("venue", missingText (venue i));
    ("location", missingText (location i));
    ("date", missingText (date i));
    ("time", missingText (time i));
    ("mode", badMode (mode i));
    ("audience", missingText (audience i));
    ("agenda", missingItems (agenda i));
    ("organizer", missingText (organizer i));
    ("tags", missingItems (tags i)) ]%string.

(** Two lists that name the same paths, whose checks fail together. *)
Definition sameChecks (vs : list (string * bool)) (fs : list (string * Prop))
  : Prop :=
  Forall2 (fun v f => fst v = fst f /\ (snd v = false <-> snd f)) vs fs.

(** The input fails the schema at [path]. *)
Definition failsAt (i : EventFields) (path : string) : Prop :=
  exists fault, In (path, fault) (eventFaults i) /\ fault.


(** The fields a first save stores for a validated document with title [t],
    date [s] and time [x]. *)
Definition savedFields (unicodeLower : jsstring -> jsstring)
  (hostParse : jsstring -> option Z) (d : EventFields) (t s x : jsstring)
  : EventFields :=
  {| title := title d;
     slug := Some (generateSlug unicodeLower t);
     description := description d;
     overview := overview d;
     image := image d;
     venue := venue d;
     location := location d;
     date := Some (normalizeDate hostParse s);
     time := Some (trim x);
     mode := mode d;
     audience := audience d;
     agenda := agenda d;
     organizer := organizer d;
     tags := tags d |}.

(** The slug of a stored event. *)
Definition slugOf (e : IEvent) : option jsstring := slug (fields e).

(** No two stored events have the same slug. *)
Definition uniqueSlugs (st : Store) : Prop := NoDup (map slugOf (events st)).

(** [a] may stand before [b] in a listing that puts the latest first. *)
Definition newerFirst (a b : IEvent) : Prop :=
  (createdAt b <= createdAt a)%Z.

(** ** The shape of a slug *)

Fixpoint noHyphenPair (s : jsstring) : bool :=
  match s with
  | a :: (b :: _) as r => negb (isHyphen a && isHyphen b) && noHyphenPair r
  | _ => true
  end.

Definition startsWithHyphen (s : jsstring) : bool :=
  match s with
  | c :: _ => isHyphen c
  | [] => false
  end.

(** Lowercase letters, digits and single hyphens, with no hyphen at either
    end. *)
Definition isSlug (s : jsstring) : bool :=
  forallb isSlugChar s && noHyphenPair s
  && negb (startsWithHyphen s) && negb (startsWithHyphen (rev s)).

(** A letter or digit of a lowercased string. *)
Definition isSlugLetter (c : char) : bool := isLower c || isDigit c.

(** ** Histories of the store *)

(** A write of the application. *)
Inductive Op : Type :=
| CreateEvent (id : ObjectId) (now : Z) (input : EventFields)
| CreateBooking (id : ObjectId) (now : Z) (input : BookingFields jsstring).

Section Histories.

Variable unicodeLower : jsstring -> jsstring.
Variable hostParse : jsstring -> option Z.

(** The store after a write, whether it succeeded or failed. *)
Definition applyOp (st : Store) (op : Op) : Store :=
  match op with
  | CreateEvent id now input =>
      snd (Event_create unicodeLower hostParse st id now input)
  | CreateBooking id now input =>
      snd (Booking_create unicodeLower st id now input)
  end.

(** The store after a sequence of writes on the empty store. *)
Definition history (ops : list Op) : Store :=
  fold_left applyOp ops emptyStore.

End Histories.

(** The properties of a stored event. *)
Definition storedEventOK (unicodeLower : jsstring -> jsstring) (e : IEvent)
  : Prop :=
  validateEvent (fields e) = inl tt
  /\ castEvent unicodeLower (fields e) = fields e
  /\ (exists t, title (fields e) = Some t
                /\ slug (fields e) = Some (generateSlug unicodeLower t))
  /\ updatedAt e = createdAt e.

(** How often the code unit [c] occurs in [s]. *)
Definition occurrences (c : char) (s : jsstring) : nat :=
  List.length (filter (N.eqb c) s).

(** ** The cached connection ([lib/mongodb.ts])

    [connectDB] keeps the connection and the promise of a connection
    attempt in the global [cached].  Requests run in turns: a call of
    [connectDB] runs without interruption up to its [await], and when
    [mongoose.connect] settles, the handlers chained on its promise and the
    callers waiting for it all run, in the microtasks of that turn, before
    another request is taken up. *)

Module Cache.

(** The state of the promise in [cached.promise].  A rejected promise never
    stays there: its [catch] handler resets the field in the turn in which
    it is rejected. *)
Inductive PromiseState : Type := Pending | Fulfilled.

(** [cached]; [conn] is [true] when the Mongoose instance is stored. *)
Record MongooseConnection : Type := mkCached {
  conn : bool;
  promise : option PromiseState
}.

(** The cache, the number of callers suspended at the [await] and the
    number of calls of [mongoose.connect] made so far. *)
Record Process : Type := mkProcess {
  cached : MongooseConnection;
  awaiting : nat;
  connects : nat
}.

Definition initial : Process := mkProcess (mkCached false None) 0 0.

(** What a caller of [connectDB] gets. *)
Inductive Answer : Type :=
| Throws (message : jsstring)
| Returns
| Awaits.

Definition uriMissing : jsstring :=
  lit "Please define the MONGODB_URI environment variable inside .env.local".

(** A call of [connectDB()] up to its [await]; [uri] is
    [process.env.MONGODB_URI].  Awaiting a fulfilled promise goes on in the
    same turn. *)
Definition call (uri : option jsstring) (p : Process) : Answer * Process :=
  if falsy uri then (Throws uriMissing, p)
  else if conn (cached p) then (Returns, p)
  else
    match promise (cached p) with
    | None =>
        (Awaits,
         mkProcess (mkCached false (Some Pending)) (S (awaiting p))
           (S (connects p)))
    | Some Pending =>
        (Awaits, mkProcess (cached p) (S (awaiting p)) (connects p))
    | Some Fulfilled =>
        (Returns,
         mkProcess (mkCached true (Some Fulfilled)) (awaiting p) (connects p))
    end.

(** How [mongoose.connect] ends. *)
Inductive Outcome : Type :=
| Connected
| Failed (message : jsstring).

(** [mongoose.connect] settles.  Fulfilled, every waiting caller stores the
    instance in [cached.conn] and returns it.  Rejected, the [catch] handler
    and then every waiting caller reset [cached.promise] and the caller
    rethrows the error. *)
Definition settle (o : Outcome) (p : Process) : list Answer * Process :=
  match promise (cached p) with
  | Some Pending =>
      match o with
      | Connected =>
          (repeat Returns (awaiting p),
           mkProcess
             (mkCached ((0 <? awaiting p)%nat || conn (cached p))
                (Some Fulfilled))
             0 (connects p))
      | Failed message =>
          (repeat (Throws message) (awaiting p),
           mkProcess (mkCached (conn (cached p)) None) 0 (connects p))
      end
  | _ => ([], p)
  end.

(** What happens in a turn. *)
Inductive Turn : Type :=
| Call (uri : option jsstring)
| Settle (o : Outcome).

Definition turn (p : Process) (t : Turn) : Process :=
  match t with
  | Call uri => snd (call uri p)
  | Settle o => snd (settle o p)
  end.

Definition run (ts : list Turn) (p : Process) : Process :=
  fold_left turn ts p.

(** The number of turns in which a connection attempt is reported failed. *)
Fixpoint failures (ts : list Turn) : nat :=
  match ts with
  | [] => 0
  | Settle (Failed _) :: r => S (failures r)
  | _ :: r => failures r
  end.

(** One request on its own: the call and, when it waits, the settlement of
    the attempt. *)
Definition request (uri : option jsstring) (o : Outcome) (p : Process)
  : Answer * Process :=
  match call uri p with
  | (Awaits, p') =>
      match settle o p' with
      | (a :: _, p'') => (a, p'')
      | ([], p'') => (Awaits, p'')
      end
  | done => done
  end.

End Cache.

(** ** Creating an event over HTTP ([app/api/events/route.ts], [POST]) *)

(** A value of a form entry. *)
Inductive FormValue : Type :=
| TextValue (text : jsstring)
| FileValue (content : list N).

(** The entries of the form that [POST] and [eventSchema] read.  A form is
    taken to hold one entry at most under each name, text under the names
    of the text paths, and no entry named [_id], [createdAt], [updatedAt] or
    [__v], which Mongoose would read too. *)
Record EventForm : Type := mkEventForm {
  formTitle : option jsstring;
  formSlug : option jsstring;
  formDescription : option jsstring;
  formOverview : option jsstring;
  formImage : option FormValue;
  formVenue : option jsstring;
  formLocation : option jsstring;
  formDate : option jsstring;
  formTime : option jsstring;
  formMode : option jsstring;
  formAudience : option jsstring;
  formAgenda : option FormValue;
  formOrganizer : option jsstring;
  formTags : option FormValue
}.

(** How the upload to the asset host ends: with the [secure_url] of the
    result, if it has one, or rejected. *)
Inductive UploadOutcome : Type :=
| Uploaded (secure_url : option jsstring)
| UploadRejected.

(** What the [catch] block of [POST] caught. *)
Inductive PostFailure : Type :=
| ConnectionFailure (message : jsstring)
| JsonSyntaxError
| NotAFile
| UploadFailure
| SaveFailure (e : Error).

Inductive PostBody : Type :=
| ImageRequired
| Created (event : IEvent)
| CreationFailed (cause : PostFailure).

Record PostResponse : Type := mkPostResponse {
  postStatus : Z;
  postBody : PostBody
}.

Section Post.

Variable unicodeLower : jsstring -> jsstring.
Variable hostParse : jsstring -> option Z.

(** The values of JSON, [JSON.parse] ([None] when it throws), and the cast
    of a value to a [[String]] path ([None] for [null] and for a value the
    path cannot hold, which both fail the validation of the path; the
    place of the path among the failing paths is then taken to be that of
    a path without a value).  A [secure_url] that is [undefined] counts as
    no value too. *)
Variable JSValue : Type.
Variable JSON_parse : jsstring -> option JSValue.
Variable castStringArray : JSValue -> option (list jsstring).

(** The asset host. *)
Variable upload : list N -> UploadOutcome.

(** [formData.get(name) as string] as [JSON.parse] reads it. *)
Definition asJsonText (v : option FormValue) : jsstring :=
  match v with
  | None => lit "null"
  | Some (TextValue text) => text
  | Some (FileValue _) => lit "[object File]"
  end.

(** [!file] *)
Definition noFile (v : option FormValue) : bool :=
  match v with
  | None => true
  | Some (TextValue []) => true
  | Some _ => false
  end.

Definition creationFailed (cause : PostFailure) : PostResponse :=
  mkPostResponse 500 (CreationFailed cause).

(** The document [POST] hands to [Event.create]: the entries of the form,
    [image] set to the [secure_url] of the upload, and the parsed [tags] and
    [agenda]. *)
Definition postedEvent (form : EventForm) (secure_url : option jsstring)
  (tagsValue agendaValue : JSValue) : EventFields :=
  {| title := formTitle form;
     slug := formSlug form;
     description := formDescription form;
     overview := formOverview form;
     image := secure_url;
     venue := formVenue form;
     location := formLocation form;
     date := formDate form;
     time := formTime form;
     mode := formMode form;
     audience := formAudience form;
     agenda := castStringArray agendaValue;
     organizer := formOrganizer form;
     tags := castStringArray tagsValue |}.

(** [POST /api/events].  The result is the response, the store and the
    files the asset host has taken. *)
Definition POST (env : Env) (st : Store) (id : ObjectId) (now : Z)
  (form : EventForm) : PostResponse * Store * list (list N) :=
  match connectDB env with
  | Some message => (creationFailed (ConnectionFailure message), st, [])
  | None =>
      if noFile (formImage form) then
        (mkPostResponse 400 ImageRequired, st, [])
      else
        match JSON_parse (asJsonText (formTags form)) with
        | None => (creationFailed JsonSyntaxError, st, [])
        | Some tagsValue =>
            match JSON_parse (asJsonText (formAgenda form)) with
            | None => (creationFailed JsonSyntaxError, st, [])
            | Some agendaValue =>
                match formImage form with
                | Some (FileValue content) =>
                    match upload content with
                    | UploadRejected =>
                        (creationFailed UploadFailure, st, [])
                    | Uploaded secure_url =>
                        match Event_create unicodeLower hostParse st id now
                                (postedEvent form secure_url tagsValue
                                   agendaValue) with
                        | (inl created, st') =>
                            (mkPostResponse 201 (Created created), st',
                             [content])
                        | (inr e, st') =>
                            (creationFailed (SaveFailure e), st', [content])
                        end
                    end
                | _ => (creationFailed NotAFile, st, [])
                end
            end
        end
  end.

End Post.

Arguments postedEvent {JSValue} castStringArray form secure_url tagsValue
  agendaValue.
Arguments POST unicodeLower hostParse {JSValue} JSON_parse castStringArray
  upload env st id now form.

(** ** Sample data *)

(** An event input with every path valid and the given title. *)
Definition sampleEvent (t : string) : EventFields :=
  {| title := Some (lit t);
     slug := None;
     description := Some (lit "A conference");
     overview := Some (lit "Talks and workshops");
     image := Some (lit "https://res.cloudinary.com/demo/image.png");
     venue := Some (lit "Main hall");
     location := Some (lit "Las Vegas, NV");
     date := Some (lit "2024-10-15");
     time := Some (lit " 9:00 AM ");
     mode := Some (lit "offline");
     audience := Some (lit "Developers");
     agenda := Some [lit "Keynote"];
     organizer := Some (lit "The organizers");
     tags := Some [lit "react"] |}.

Fixpoint allDigits (d : hexDigit) (n : nat) : tuple hexDigit n :=
  match n return tuple hexDigit n with
  | O => tt
  | S m => (d, allDigits d m)
  end.

(** The ObjectId written [hex]; for a string that is not one, the ObjectId
    of 24 zeros. *)
Definition oid (hex : string) : ObjectId :=
  match castObjectId (lit hex) with
  | Some id => id
  | None => mkObjectId (allDigits Hex0 24)
  end.

(** A booking input for the event [eid] with the email [addr], and the
    document of such a booking. *)
Definition sampleBooking (eid addr : string) : BookingFields jsstring :=
  {| eventId := Some (lit eid); email := Some (lit addr) |}.

Definition sampleBooked (eid addr : string) : BookingFields ObjectId :=
  {| eventId := Some (oid eid); email := Some (lit addr) |}.

(** An environment in which the store is reachable. *)
Definition sampleEnv : Env :=
  {| MONGODB_URI := Some (lit "mongodb://localhost/eventhub");
     connectFailure := None |}.

(** A host whose case tables change nothing outside ASCII. *)
Definition asciiHost : jsstring -> jsstring := fun s => s.

(** A host whose date parser reads the ECMAScript format only. *)
Definition isoOnlyHost : jsstring -> option Z := fun _ => None.

(** The store after one event titled "!!!" was created. *)
Definition storeWithEmptySlug : Store :=
  snd (Event_create asciiHost isoOnlyHost emptyStore
    (oid "65f0a1c4e1b2a3d4c5f60718") 1000
         (sampleEvent "!!!")).

(** The store after one event titled "React Conf 2024!" was created. *)
Definition storeWithReactConf : Store :=
  snd (Event_create asciiHost isoOnlyHost emptyStore
    (oid "65f0a2c4e1b2a3d4c5f60718") 2000
         (sampleEvent "React Conf 2024!")).

(** The store after three events were created at the clock readings 1000,
    2000 and 3000. *)
Definition storeWithThree : Store :=
  let s1 := snd (Event_create asciiHost isoOnlyHost emptyStore
    (oid "65f0b1c4e1b2a3d4c5f60718")
                   1000 (sampleEvent "React Conf 2024")) in
  let s2 := snd (Event_create asciiHost isoOnlyHost s1
    (oid "65f0b2c4e1b2a3d4c5f60718")
                   2000 (sampleEvent "Google I/O 2024")) in
  snd (Event_create asciiHost isoOnlyHost s2 (oid "65f0b3c4e1b2a3d4c5f60718")
         3000 (sampleEvent "AWS re:Invent 2024")).

(** A sequence of writes: an event, a second event with the same slug, a
    third event with another slug, a booking for the first event and a
    booking for an event that does not exist. *)
Definition sampleOps : list Op :=
  [CreateEvent (oid "65f0a2c4e1b2a3d4c5f60718") 2000
     (sampleEvent "React Conf 2024!");
   CreateEvent (oid "65f0a3c4e1b2a3d4c5f60718") 3000
     (sampleEvent " react_conf  2024 ");
   CreateEvent (oid "65f0a5c4e1b2a3d4c5f60718") 3500
     (sampleEvent "Google I/O 2024");
   CreateBooking (oid "75a001c4e1b2a3d4c5f60718") 4000
     (sampleBooking "65f0a2c4e1b2a3d4c5f60718" "USER@Example.com");
   CreateBooking (oid "75a002c4e1b2a3d4c5f60718") 5000
     (sampleBooking "000000000000000000000000" "user@example.com")].

(** An event document and a booking document to fall back on. *)
Definition blankEvent : IEvent := mkIEvent (oid "") (sampleEvent "") 0 0.

Definition blankBooking : IBooking :=
  mkIBooking (oid "") (sampleBooked "" "") 0 0.

(** The text of a JSON array that holds the one string [w]. *)
Definition arrayText (w : string) : jsstring :=
  [91; 34]%N ++ lit w ++ [34; 93]%N.

(** A reader of JSON that knows two arrays, and a cast that keeps them. *)
Definition sampleJSON (s : jsstring) : option (list jsstring) :=
  if JS.eqb s (arrayText "react") then Some [lit "react"]
  else if JS.eqb s (arrayText "Keynote") then Some [lit "Keynote"]
  else None.

Definition sampleCast (v : list jsstring) : option (list jsstring) := Some v.

(** An asset host that takes every file. *)
Definition sampleUpload (content : list N) : UploadOutcome :=
  Uploaded (Some (lit "https://res.cloudinary.com/demo/EventHub/event.png ")).

(** A form with every entry valid, an image file and the given title. *)
Definition sampleForm (t : option string) : EventForm :=
  {| formTitle := option_map lit t;
     formSlug := None;
     formDescription := Some (lit "A conference");
     formOverview := Some (lit "Talks and workshops");
     formImage := Some (FileValue [137; 80; 78; 71]%N);
     formVenue := Some (lit "Main hall");
     formLocation := Some (lit "Las Vegas, NV");
     formDate := Some (lit "2024-10-15");
     formTime := Some (lit " 9:00 AM ");
     formMode := Some (lit "offline");
     formAudience := Some (lit "Developers");
     formAgenda := Some (TextValue (arrayText "Keynote"));
     formOrganizer := Some (lit "The organizers");
     formTags := Some (TextValue (arrayText "react")) |}.

(** The answer to the sample form on the empty store. *)
Definition samplePost (t : option string)
  : PostResponse * Store * list (list N) :=
  POST asciiHost isoOnlyHost sampleJSON sampleCast sampleUpload sampleEnv
    emptyStore (oid "65f0e1c4e1b2a3d4c5f60718") 6000 (sampleForm t).

(** A process in which one request has connected. *)
Definition connectedProcess : Cache.Process :=
  snd (Cache.request (MONGODB_URI sampleEnv) Cache.Connected Cache.initial).

(** * Properties *)

(** ** Strings *)

Lemma eqb_eq (a b : jsstring) : JS.eqb a b = true <-> a = b.
Proof.
  unfold JS.eqb. destruct (list_eq_dec N.eq_dec a b); split; congruence.
Qed.

Lemma eqb_refl (a : jsstring) : JS.eqb a a = true.
Proof. now apply eqb_eq. Qed.

Lemma eqb_neq (a b : jsstring) : JS.eqb a b = false <-> a <> b.
Proof.
  unfold JS.eqb. destruct (list_eq_dec N.eq_dec a b); split; congruence.
Qed.

Lemma optEqb_eq (a b : option jsstring) : optEqb a b = true <-> a = b.
Proof.
  destruct a as [x|], b as [y|]; simpl; try (split; congruence).
  rewrite eqb_eq. split; congruence.
Qed.

Lemma dropWhile_app_stop p (a b : jsstring) :
  forallb p a = false -> dropWhile p (a ++ b) = dropWhile p a ++ b.
Proof.
  induction a as [|c a IH]; simpl; [discriminate|].
  destruct (p c); simpl; auto.
Qed.

Lemma dropWhile_app_all p (a b : jsstring) :
  forallb p a = true -> dropWhile p (a ++ b) = dropWhile p b.
Proof.
  induction a as [|c a IH]; simpl; auto.
  destruct (p c); simpl; [auto|discriminate].
Qed.

Lemma dropWhile_all p (a : jsstring) :
  forallb p a = true -> dropWhile p a = [].
Proof.
  intros H. rewrite <- (app_nil_r a). rewrite dropWhile_app_all; auto.
Qed.

Lemma forallb_rev (p : char -> bool) (s : jsstring) :
  forallb p (rev s) = forallb p s.
Proof.
  induction s as [|c s IH]; simpl; auto.
  rewrite forallb_app, IH. simpl. rewrite andb_true_r. apply andb_comm.
Qed.

(** Stripping at the end goes through the string like this. *)
Lemma dropWhileEnd_cons p c (s : jsstring) :
  dropWhileEnd p (c :: s) =
  if p c && forallb p s then [] else c :: dropWhileEnd p s.
Proof.
  unfold dropWhileEnd. simpl rev.
  destruct (forallb p s) eqn:Hs.
  - rewrite dropWhile_app_all by (now rewrite forallb_rev).
    rewrite (dropWhile_all p (rev s)) by (now rewrite forallb_rev).
    simpl. destruct (p c); reflexivity.
  - rewrite dropWhile_app_stop by (now rewrite forallb_rev).
    rewrite rev_app_distr. simpl. now rewrite andb_false_r.
Qed.

Lemma dropWhileEnd_nil p : dropWhileEnd p [] = [].
Proof. reflexivity. Qed.

(** ** The slug generator *)

Lemma replaceEach_filter (keep : char -> bool) (s : jsstring) :
  replaceEach (fun c => negb (keep c)) [] s = filter keep s.
Proof.
  induction s as [|c s IH]; simpl; auto.
  destruct (keep c); simpl; now rewrite IH.
Qed.

Lemma isSeparator_hyphen c : isHyphen c = true -> SlugSpec.isSeparator c = true.
Proof.
  unfold SlugSpec.isSeparator. intros ->. now rewrite orb_true_r.
Qed.

Lemma collapseRuns_cons c (s : jsstring) :
  SlugSpec.collapseRuns (c :: s) =
  if SlugSpec.isSeparator c then
    match SlugSpec.collapseRuns s with
    | h :: _ =>
        if isHyphen h then SlugSpec.collapseRuns s
        else hyphen :: SlugSpec.collapseRuns s
    | [] => [hyphen]
    end
  else c :: SlugSpec.collapseRuns s.
Proof. reflexivity. Qed.

(** A collapsed string starts with a hyphen when the string starts with a
    separator. *)
Lemma collapseRuns_head c (s : jsstring) :
  SlugSpec.isSeparator c = true ->
  exists t, SlugSpec.collapseRuns (c :: s) = hyphen :: t.
Proof.
  intros Hc. rewrite collapseRuns_cons, Hc.
  destruct (SlugSpec.collapseRuns s) as [|h t] eqn:E.
  - now exists [].
  - destruct (isHyphen h) eqn:Hh.
    + apply N.eqb_eq in Hh. subst h. now exists t.
    + now exists (h :: t).
Qed.

(** [collapseRuns] is what its name says: text without separators is left
    as it is, and a run of separators between such text and the rest, when
    the rest does not go on with a separator, becomes one hyphen. *)
Lemma collapseRuns_plain (a rest : jsstring) :
  Forall (fun c => SlugSpec.isSeparator c = false) a ->
  SlugSpec.collapseRuns (a ++ rest) = a ++ SlugSpec.collapseRuns rest.
Proof.
  induction 1 as [|c a Hc _ IH]; [reflexivity|].
  cbn [app]. now rewrite collapseRuns_cons, Hc, IH.
Qed.

Lemma collapseRuns_run (run rest : jsstring) :
  run <> [] ->
  Forall (fun c => SlugSpec.isSeparator c = true) run ->
  match rest with
  | c :: _ => SlugSpec.isSeparator c = false
  | [] => True
  end ->
  SlugSpec.collapseRuns (run ++ rest) = hyphen :: SlugSpec.collapseRuns rest.
Proof.
  intros Hne Hrun Hrest. induction Hrun as [|c run Hc Hrun IH]; [congruence|].
  cbn [app]. rewrite collapseRuns_cons, Hc.
  destruct run as [|c' run'].
  - cbn [app]. destruct rest as [|x rest']; [reflexivity|].
    rewrite collapseRuns_cons, Hrest.
    destruct (isHyphen x) eqn:Hx; [|reflexivity].
    apply isSeparator_hyphen in Hx. congruence.
  - rewrite IH by discriminate. reflexivity.
Qed.

(** The scanner of [/[\s_-]+/g] against the reading from the right, in both
    of its states. *)
Lemma replaceRunsFrom_collapse (s : jsstring) :
  replaceRunsFrom SlugSpec.isSeparator [hyphen] false s
  = SlugSpec.collapseRuns s
  /\ replaceRunsFrom SlugSpec.isSeparator [hyphen] true s
     = match s with
       | c :: _ =>
           if SlugSpec.isSeparator c then tl (SlugSpec.collapseRuns s)
           else SlugSpec.collapseRuns s
       | [] => []
       end.
Proof.
  induction s as [|c s [IHf IHt]]; [split; reflexivity|].
  cbn [replaceRunsFrom].
  destruct (SlugSpec.isSeparator c) eqn:Hc.
  - assert (Hhead :
      [hyphen] ++ replaceRunsFrom SlugSpec.isSeparator [hyphen] true s
      = SlugSpec.collapseRuns (c :: s)).
    { rewrite IHt, (collapseRuns_cons c s), Hc.
      destruct s as [|c' s']; [reflexivity|].
      destruct (SlugSpec.isSeparator c') eqn:Hc'.
      - destruct (collapseRuns_head c' s' Hc') as [t Ht].
        rewrite Ht. reflexivity.
      - rewrite (collapseRuns_cons c' s'), Hc'.
        destruct (isHyphen c') eqn:Hh; [|reflexivity].
        apply isSeparator_hyphen in Hh. congruence. }
    split; [exact Hhead|].
    rewrite <- Hhead. reflexivity.
  - rewrite IHf, (collapseRuns_cons c s), Hc. split; reflexivity.
Qed.

Lemma stripEdgeHyphensFrom_trailing (s : jsstring) :
  stripEdgeHyphensFrom false s = dropWhileEnd isHyphen s.
Proof.
  induction s as [|c s IH]; [reflexivity|].
  simpl. rewrite dropWhileEnd_cons.
  destruct (isHyphen c); simpl.
  - destruct (forallb isHyphen s); [reflexivity|]. now rewrite IH.
  - now rewrite IH.
Qed.

Lemma stripEdgeHyphensFrom_leading (s : jsstring) :
  stripEdgeHyphensFrom true s
  = stripEdgeHyphensFrom false (dropWhile isHyphen s).
Proof.
  induction s as [|c s IH]; [reflexivity|].
  simpl. destruct (isHyphen c) eqn:Hc; [exact IH|].
  simpl. now rewrite Hc.
Qed.

Lemma stripEdgeHyphens_spec (s : jsstring) :
  stripEdgeHyphens s = SlugSpec.stripHyphens s.
Proof.
  unfold stripEdgeHyphens, SlugSpec.stripHyphens.
  now rewrite stripEdgeHyphensFrom_leading, stripEdgeHyphensFrom_trailing.
Qed.

(** C1. For every title, [generateSlug] returns what the specification
    describes: the title lowercased and trimmed, with everything but word
    characters, whitespace and hyphens removed, each run of whitespace,
    underscores and hyphens collapsed into one hyphen, and the hyphens at
    both ends stripped.  In particular "React Conf 2024!" becomes
    "react-conf-2024". *)
Theorem generateSlug_refines_spec :
  forall (unicodeLower : jsstring -> jsstring),
    (forall title, generateSlug unicodeLower title
                   = SlugSpec.slug unicodeLower title)
    /\ generateSlug unicodeLower (lit "React Conf 2024!")
       = lit "react-conf-2024".
Proof.
  intro u. split.
  - intro t. unfold generateSlug, SlugSpec.slug, replaceRuns.
    rewrite stripEdgeHyphens_spec.
    rewrite (replaceEach_filter (fun c => isWord c || isSpace c || isHyphen c)).
    f_equal.
    apply (proj1 (replaceRunsFrom_collapse _)).
  - vm_compute. reflexivity.
Qed.

(** *** Trimming *)

Lemma dropWhile_head p c (s r : jsstring) :
  dropWhile p s = c :: r -> p c = false.
Proof.
  induction s as [|a s IH]; simpl; [discriminate|].
  destruct (p a) eqn:Ha; auto.
  intros E. injection E as -> _. exact Ha.
Qed.

Lemma dropWhile_fixed p (s : jsstring) :
  match s with c :: _ => p c = false | [] => True end ->
  dropWhile p s = s.
Proof.
  destruct s as [|c s]; simpl; auto. now intros ->.
Qed.

Lemma forallb_dropWhileEnd_false p (s : jsstring) :
  forallb p s = false -> forallb p (dropWhileEnd p s) = false.
Proof.
  induction s as [|c s IH]; [discriminate|].
  intros H. rewrite dropWhileEnd_cons.
  change (forallb p (c :: s)) with (p c && forallb p s) in H. rewrite H.
  simpl. destruct (p c); simpl in *; auto.
Qed.

Lemma dropWhileEnd_idempotent p (s : jsstring) :
  dropWhileEnd p (dropWhileEnd p s) = dropWhileEnd p s.
Proof.
  induction s as [|c s IH]; [reflexivity|].
  rewrite dropWhileEnd_cons.
  destruct (p c && forallb p s) eqn:H; [reflexivity|].
  rewrite dropWhileEnd_cons, IH.
  destruct (p c) eqn:Hc; [|reflexivity].
  simpl in H. now rewrite (forallb_dropWhileEnd_false p s H).
Qed.

Lemma dropWhileEnd_none p (s : jsstring) :
  Forall (fun c => p c = false) s -> dropWhileEnd p s = s.
Proof.
  induction 1 as [|c s Hc _ IH]; [reflexivity|].
  now rewrite dropWhileEnd_cons, Hc, IH.
Qed.

Lemma trim_idempotent (s : jsstring) : trim (trim s) = trim s.
Proof.
  unfold trim.
  destruct (dropWhile isSpace s) as [|c a] eqn:E; [reflexivity|].
  pose proof (dropWhile_head isSpace c s a E) as Hc.
  assert (Hr : dropWhileEnd isSpace (c :: a) = c :: dropWhileEnd isSpace a)
    by (rewrite dropWhileEnd_cons, Hc; reflexivity).
  rewrite (dropWhile_fixed isSpace (dropWhileEnd isSpace (c :: a)))
    by (rewrite Hr; exact Hc).
  apply dropWhileEnd_idempotent.
Qed.

Lemma trim_no_space (s : jsstring) :
  Forall (fun c => isSpace c = false) s -> trim s = s.
Proof.
  intros H. unfold trim.
  rewrite dropWhile_fixed by (destruct H; auto).
  now apply dropWhileEnd_none.
Qed.

Lemma Forall_dropWhile (P : char -> Prop) p (s : jsstring) :
  Forall P s -> Forall P (dropWhile p s).
Proof.
  induction 1 as [|c s Hc Hs IH]; simpl; auto.
  destruct (p c); auto.
Qed.

Lemma Forall_dropWhileEnd (P : char -> Prop) p (s : jsstring) :
  Forall P s -> Forall P (dropWhileEnd p s).
Proof.
  intros H. unfold dropWhileEnd.
  apply Forall_rev, Forall_dropWhile, Forall_rev, H.
Qed.

Lemma Forall_trim (P : char -> Prop) (s : jsstring) :
  Forall P s -> Forall P (trim s).
Proof.
  intros H. now apply Forall_dropWhileEnd, Forall_dropWhile.
Qed.

(** *** Lowercasing *)

Lemma isUpper_asciiLower c : isUpper (asciiLower c) = false.
Proof.
  unfold asciiLower. destruct (isUpper c) eqn:H; [|exact H].
  unfold isUpper, inRange in *.
  apply andb_true_iff in H. destruct H as [H1 H2].
  apply N.leb_le in H1, H2.
  apply andb_false_iff. right. apply N.leb_gt. lia.
Qed.

Lemma toLowerCase_no_upper u (s : jsstring) :
  Forall (fun c => isUpper c = false) (toLowerCase u s).
Proof.
  unfold toLowerCase.
  destruct (forallb isAscii s); apply Forall_forall; intros c Hc;
    apply in_map_iff in Hc; destruct Hc as [x [<- _]];
    apply isUpper_asciiLower.
Qed.

Lemma isSlugChar_facts c :
  isSlugChar c = true ->
  isAscii c = true /\ asciiLower c = c /\ isSpace c = false.
Proof.
  unfold isSlugChar, isLower, isDigit, isHyphen, hyphen, isAscii, asciiLower,
    isUpper, isSpace, inRange.
  intros H.
  repeat rewrite orb_true_iff in H. repeat rewrite andb_true_iff in H.
  repeat rewrite N.leb_le in H. rewrite N.eqb_eq in H.
  assert (Hr : (48 <= c <= 57 \/ 97 <= c <= 122 \/ c = 45)%N) by lia.
  clear H. split; [apply N.ltb_lt; lia|]. split.
  - destruct ((65 <=? c)%N && (c <=? 90)%N) eqn:E; [|reflexivity].
    apply andb_true_iff in E. rewrite !N.leb_le in E. lia.
  - repeat (apply orb_false_iff; split);
      try (apply andb_false_iff; rewrite !N.leb_gt; lia);
      try (apply N.eqb_neq; lia).
Qed.

Lemma toLowerCase_slug_chars u (s : jsstring) :
  Forall (fun c => isSlugChar c = true) s -> toLowerCase u s = s.
Proof.
  intros H. unfold toLowerCase.
  assert (Ha : forallb isAscii s = true).
  { apply forallb_forall. intros c Hc.
    rewrite Forall_forall in H. now apply isSlugChar_facts, H. }
  rewrite Ha. rewrite <- (map_id s) at 2. apply map_ext_in.
  intros c Hc. rewrite Forall_forall in H. now apply isSlugChar_facts, H.
Qed.

(** *** The alphabet of a slug *)

Lemma replaceRunsFrom_chars (P : char -> Prop) sep b (s : jsstring) :
  P hyphen ->
  Forall (fun c => sep c = false -> P c) s ->
  Forall P (replaceRunsFrom sep [hyphen] b s).
Proof.
  intros Hh H. revert b.
  induction H as [|c s Hc _ IH]; intros b; simpl; auto.
  destruct (sep c) eqn:E.
  - destruct b; [apply IH|]. simpl. constructor; [exact Hh|apply IH].
  - constructor; auto.
Qed.

Lemma word_not_separator_not_upper c :
  isWord c || isSpace c || isHyphen c = true ->
  isUpper c = false ->
  SlugSpec.isSeparator c = false ->
  isSlugChar c = true.
Proof.
  unfold SlugSpec.isSeparator, isWord, isSlugChar.
  intros H Hu Hs.
  apply orb_false_iff in Hs. destruct Hs as [Hs Hh].
  apply orb_false_iff in Hs. destruct Hs as [Hsp Hun].
  rewrite Hu, Hsp, Hh, Hun in H. simpl in H.
  rewrite !orb_false_r in H. now rewrite H.
Qed.

(** A slug holds lowercase letters, digits and hyphens only. *)
Lemma generateSlug_chars u (text : jsstring) :
  Forall (fun c => isSlugChar c = true) (generateSlug u text).
Proof.
  unfold generateSlug. rewrite stripEdgeHyphens_spec.
  unfold SlugSpec.stripHyphens.
  apply Forall_dropWhileEnd, Forall_dropWhile.
  apply replaceRunsFrom_chars; [reflexivity|].
  rewrite (replaceEach_filter (fun c => isWord c || isSpace c || isHyphen c)).
  apply Forall_forall. intros c Hc Hsep.
  apply filter_In in Hc. destruct Hc as [Hc Hk].
  apply word_not_separator_not_upper; auto.
  pose proof (Forall_trim (fun c => isUpper c = false) _
                (toLowerCase_no_upper u text)) as Hu.
  rewrite Forall_forall in Hu. now apply Hu.
Qed.

(** The setters of the [slug] path leave a generated slug as it is. *)
Lemma setters_keep_generated_slug u (text : jsstring) :
  trim (toLowerCase u (generateSlug u text)) = generateSlug u text.
Proof.
  rewrite toLowerCase_slug_chars by apply generateSlug_chars.
  apply trim_no_space.
  eapply Forall_impl; [|apply generateSlug_chars].
  intros c Hc. now apply isSlugChar_facts.
Qed.

(** ** The date and time normalizers *)

Lemma isDigit_digitChar n : isDigit (JSDate.digitChar n) = true.
Proof.
  unfold JSDate.digitChar, isDigit, inRange.
  pose proof (Z.mod_pos_bound n 10 ltac:(lia)) as H.
  apply andb_true_iff. split; apply N.leb_le; lia.
Qed.

Lemma digits_are_digits w n :
  Forall (fun c => isDigit c = true) (JSDate.digits w n).
Proof.
  revert n. induction w as [|w IH]; intros n; simpl; [constructor|].
  apply Forall_app. split; [apply IH|].
  constructor; [apply isDigit_digitChar|constructor].
Qed.

Lemma split_before_separator sep (a b : jsstring) :
  Forall (fun c => (c =? sep)%N = false) a ->
  JSDate.split sep (a ++ sep :: b) = a :: JSDate.split sep b.
Proof.
  induction 1 as [|c a Hc _ IH]; simpl.
  - now rewrite N.eqb_refl.
  - now rewrite Hc, IH.
Qed.

Lemma split_pieces (P : char -> Prop) sep (s : jsstring) :
  Forall P s -> Forall (Forall P) (JSDate.split sep s).
Proof.
  induction 1 as [|c s Hc Hs IH]; simpl.
  - repeat constructor.
  - destruct (c =? sep)%N; [constructor; auto|].
    destruct (JSDate.split sep s) as [|p ps]; [repeat constructor; auto|].
    inversion IH; subst. constructor; auto.
Qed.

Lemma isISOChar_not_space c : isISOChar c = true -> isSpace c = false.
Proof.
  unfold isISOChar, isDigit, isSpace, inRange. simpl existsb.
  intros H.
  repeat rewrite orb_true_iff in H. rewrite andb_true_iff in H.
  repeat rewrite N.leb_le in H. repeat rewrite N.eqb_eq in H.
  assert (Hr : (48 <= c <= 57 \/ c = 43 \/ c = 45 \/ c = 84 \/ c = 58
                \/ c = 46 \/ c = 90)%N) by (simpl in H; lia).
  clear H.
  repeat (apply orb_false_iff; split);
    try (apply andb_false_iff; rewrite !N.leb_gt; lia);
    try (apply N.eqb_neq; lia).
Qed.

Lemma digits_iso w n : Forall (fun c => isISOChar c = true) (JSDate.digits w n).
Proof.
  eapply Forall_impl; [|apply digits_are_digits].
  intros c Hc. unfold isISOChar. now rewrite Hc.
Qed.

Lemma lit_iso (s : string) :
  forallb isISOChar (lit s) = true ->
  Forall (fun c => isISOChar c = true) (lit s).
Proof. intros H. apply Forall_forall. now apply forallb_forall. Qed.

Ltac iso_chars :=
  repeat first
    [ apply digits_iso
    | apply lit_iso; reflexivity
    | apply Forall_app; split ].

Lemma yearString_chars y :
  Forall (fun c => isISOChar c = true) (JSDate.yearString y).
Proof.
  unfold JSDate.yearString.
  destruct (_ && _); [apply digits_iso|].
  destruct (0 <=? y)%Z; iso_chars.
Qed.

Lemma isoDate_chars t : Forall (fun c => isISOChar c = true) (JSDate.isoDate t).
Proof. unfold JSDate.isoDate. iso_chars. apply yearString_chars. Qed.

Lemma isoDate_no_T t :
  Forall (fun c => (c =? 84)%N = false) (JSDate.isoDate t).
Proof.
  unfold JSDate.isoDate, JSDate.yearString.
  assert (Hd : forall w n,
             Forall (fun c => (c =? 84)%N = false) (JSDate.digits w n)).
  { intros w n. eapply Forall_impl; [|apply digits_are_digits].
    intros c Hc. unfold isDigit, inRange in Hc.
    apply andb_true_iff in Hc. rewrite !N.leb_le in Hc.
    apply N.eqb_neq. lia. }
  assert (Hl : forall s : string,
             forallb (fun c => negb (c =? 84)%N) (lit s) = true ->
             Forall (fun c => (c =? 84)%N = false) (lit s)).
  { intros s H. apply Forall_forall. intros c Hc.
    apply negb_true_iff. revert c Hc. now apply forallb_forall. }
  repeat first
    [ apply Hd | apply Hl; reflexivity | apply Forall_app; split ].
  destruct (_ && _); [apply Hd|].
  destruct (0 <=? _)%Z;
    repeat first
      [ apply Hd | apply Hl; reflexivity | apply Forall_app; split ].
Qed.

(** *** The calendar fields of a time value *)

Lemma year_estimate d :
  let y := (1970 + 400 * d / 146097)%Z in
  (146097 * (y - 1970) <= 400 * d < 146097 * (y - 1970) + 146097)%Z.
Proof.
  cbv zeta.
  pose proof (Z.div_mod (400 * d) 146097 ltac:(lia)).
  pose proof (Z.mod_pos_bound (400 * d) 146097 ltac:(lia)).
  lia.
Qed.

Lemma DayFromYear_below d y :
  (146097 * (y - 1970) <= 400 * d)%Z -> (JSDate.DayFromYear (y - 1) <= d)%Z.
Proof.
  unfold JSDate.DayFromYear. intros H.
  pose proof (Z.div_mod (y - 1 - 1969) 4 ltac:(lia)).
  pose proof (Z.mod_pos_bound (y - 1 - 1969) 4 ltac:(lia)).
  pose proof (Z.div_mod (y - 1 - 1901) 100 ltac:(lia)).
  pose proof (Z.mod_pos_bound (y - 1 - 1901) 100 ltac:(lia)).
  pose proof (Z.div_mod (y - 1 - 1601) 400 ltac:(lia)).
  pose proof (Z.mod_pos_bound (y - 1 - 1601) 400 ltac:(lia)).
  lia.
Qed.

Lemma DayFromYear_above d y :
  (400 * d < 146097 * (y - 1970) + 146097)%Z ->
  (d < JSDate.DayFromYear (y + 2))%Z.
Proof.
  unfold JSDate.DayFromYear. intros H.
  pose proof (Z.div_mod (y + 2 - 1969) 4 ltac:(lia)).
  pose proof (Z.mod_pos_bound (y + 2 - 1969) 4 ltac:(lia)).
  pose proof (Z.div_mod (y + 2 - 1901) 100 ltac:(lia)).
  pose proof (Z.mod_pos_bound (y + 2 - 1901) 100 ltac:(lia)).
  pose proof (Z.div_mod (y + 2 - 1601) 400 ltac:(lia)).
  pose proof (Z.mod_pos_bound (y + 2 - 1601) 400 ltac:(lia)).
  lia.
Qed.

(** [YearFromTime] is the year the day of [t] falls in. *)
Lemma YearFromTime_spec t :
  (JSDate.DayFromYear (JSDate.YearFromTime t) <= JSDate.Day t
   < JSDate.DayFromYear (JSDate.YearFromTime t + 1))%Z.
Proof.
  unfold JSDate.YearFromTime. cbv zeta.
  generalize (JSDate.Day t). intros d.
  pose proof (year_estimate d) as Hq. cbv zeta in Hq.
  set (y := (1970 + 400 * d / 146097)%Z) in *.
  destruct (d <? JSDate.DayFromYear y)%Z eqn:E1.
  - apply Z.ltb_lt in E1.
    replace (y - 1 + 1)%Z with y by lia.
    split; [|exact E1]. apply DayFromYear_below. lia.
  - apply Z.ltb_ge in E1.
    destruct (JSDate.DayFromYear (y + 1) <=? d)%Z eqn:E2.
    + apply Z.leb_le in E2. split; [exact E2|].
      replace (y + 1 + 1)%Z with (y + 2)%Z by lia.
      apply DayFromYear_above. lia.
    + apply Z.leb_gt in E2. split; assumption.
Qed.

Lemma DayFromYear_step y :
  (JSDate.DayFromYear (y + 1) - JSDate.DayFromYear y
   = 365 + (if JSDate.isLeapYear y then 1 else 0))%Z.
Proof.
  unfold JSDate.DayFromYear, JSDate.isLeapYear.
  assert (H4 : ((y + 1 - 1969) / 4 - (y - 1969) / 4
                = if (y mod 4 =? 0) then 1 else 0)%Z).
  { pose proof (Z.div_mod y 4 ltac:(lia)).
    pose proof (Z.mod_pos_bound y 4 ltac:(lia)).
    pose proof (Z.div_mod (y + 1 - 1969) 4 ltac:(lia)).
    pose proof (Z.mod_pos_bound (y + 1 - 1969) 4 ltac:(lia)).
    pose proof (Z.div_mod (y - 1969) 4 ltac:(lia)).
    pose proof (Z.mod_pos_bound (y - 1969) 4 ltac:(lia)).
    destruct (y mod 4 =? 0)%Z eqn:E;
      rewrite ?Z.eqb_eq, ?Z.eqb_neq in E; lia. }
  assert (H100 : ((y + 1 - 1901) / 100 - (y - 1901) / 100
                  = if (y mod 100 =? 0) then 1 else 0)%Z).
  { pose proof (Z.div_mod y 100 ltac:(lia)).
    pose proof (Z.mod_pos_bound y 100 ltac:(lia)).
    pose proof (Z.div_mod (y + 1 - 1901) 100 ltac:(lia)).
    pose proof (Z.mod_pos_bound (y + 1 - 1901) 100 ltac:(lia)).
    pose proof (Z.div_mod (y - 1901) 100 ltac:(lia)).
    pose proof (Z.mod_pos_bound (y - 1901) 100 ltac:(lia)).
    destruct (y mod 100 =? 0)%Z eqn:E;
      rewrite ?Z.eqb_eq, ?Z.eqb_neq in E; lia. }
  assert (H400 : ((y + 1 - 1601) / 400 - (y - 1601) / 400
                  = if (y mod 400 =? 0) then 1 else 0)%Z).
  { pose proof (Z.div_mod y 400 ltac:(lia)).
    pose proof (Z.mod_pos_bound y 400 ltac:(lia)).
    pose proof (Z.div_mod (y + 1 - 1601) 400 ltac:(lia)).
    pose proof (Z.mod_pos_bound (y + 1 - 1601) 400 ltac:(lia)).
    pose proof (Z.div_mod (y - 1601) 400 ltac:(lia)).
    pose proof (Z.mod_pos_bound (y - 1601) 400 ltac:(lia)).
    destruct (y mod 400 =? 0)%Z eqn:E;
      rewrite ?Z.eqb_eq, ?Z.eqb_neq in E; lia. }
  assert (D1 : (y mod 4 = (y mod 100) mod 4)%Z)
    by (symmetry; apply Z.mod_mod_divide; exists 25%Z; reflexivity).
  assert (D2 : (y mod 100 = (y mod 400) mod 100)%Z)
    by (symmetry; apply Z.mod_mod_divide; exists 4%Z; reflexivity).
  destruct (y mod 4 =? 0)%Z eqn:E4; destruct (y mod 100 =? 0)%Z eqn:E100;
    destruct (y mod 400 =? 0)%Z eqn:E400; cbn [andb orb negb];
    rewrite ?Z.eqb_eq, ?Z.eqb_neq in *;
    try lia;
    exfalso;
    try (rewrite E100 in D1; cbn in D1; congruence);
    try (rewrite E400 in D2; cbn in D2; congruence).
Qed.

Lemma DayWithinYear_range t :
  (0 <= JSDate.DayWithinYear t < 365 + JSDate.InLeapYear t)%Z.
Proof.
  unfold JSDate.DayWithinYear, JSDate.InLeapYear.
  pose proof (YearFromTime_spec t).
  pose proof (DayFromYear_step (JSDate.YearFromTime t)).
  lia.
Qed.

(** The month is one of the twelve and the day one of its days, so both
    are written in full on two digits. *)
Lemma month_and_date_range t :
  (0 <= JSDate.MonthFromTime t <= 11)%Z
  /\ (1 <= JSDate.DateFromTime t
      <= JSDate.DaysInMonth (JSDate.YearFromTime t)
           (JSDate.MonthFromTime t + 1))%Z.
Proof.
  pose proof (DayWithinYear_range t) as Hd.
  unfold JSDate.DateFromTime, JSDate.DaysInMonth, JSDate.MonthFromTime.
  unfold JSDate.InLeapYear in *.
  destruct (JSDate.isLeapYear (JSDate.YearFromTime t));
  repeat match goal with
         | |- context [(?a <? ?b)%Z] =>
             let E := fresh "E" in
             destruct (a <? b)%Z eqn:E;
             [apply Z.ltb_lt in E|apply Z.ltb_ge in E]
         end; cbn [JSDate.monthStart]; simpl; lia.
Qed.

(** *** Reading back what [toISOString] writes *)

Lemma digitValue_digitChar n :
  JSDate.digitValue (JSDate.digitChar n) = Some (n mod 10)%Z.
Proof.
  unfold JSDate.digitValue. rewrite isDigit_digitChar.
  unfold JSDate.digitChar.
  pose proof (Z.mod_pos_bound n 10 ltac:(lia)).
  f_equal. lia.
Qed.

Lemma number_digits w : forall k m acc r,
  (0 <= m < 10 ^ Z.of_nat w)%Z ->
  JSDate.number (w + k) acc (JSDate.digits w m ++ r)
  = JSDate.number k (acc * 10 ^ Z.of_nat w + m)%Z r.
Proof.
  induction w as [|w IH]; intros k m acc r Hm.
  - simpl in *. f_equal. lia.
  - cbn [JSDate.digits]. rewrite <- app_assoc. cbn [app].
    replace (S w + k)%nat with (w + S k)%nat by lia.
    rewrite Nat2Z.inj_succ, Z.pow_succ_r in * by lia.
    pose proof (Z.div_mod m 10 ltac:(lia)).
    pose proof (Z.mod_pos_bound m 10 ltac:(lia)).
    rewrite IH by lia.
    cbn [JSDate.number]. rewrite digitValue_digitChar. cbn [JSDate.bind].
    f_equal. lia.
Qed.

Lemma number_digits_exact w m r :
  (0 <= m < 10 ^ Z.of_nat w)%Z ->
  JSDate.number w 0 (JSDate.digits w m ++ r) = Some (m, r).
Proof.
  intros Hm. rewrite <- (Nat.add_0_r w) at 1.
  rewrite number_digits by exact Hm. reflexivity.
Qed.

Lemma year_of_digit c r :
  isDigit c = true -> JSDate.year (c :: r) = JSDate.number 4 0 (c :: r).
Proof.
  intros H. unfold JSDate.year.
  destruct c as [|p]; [reflexivity|].
  do 6 (destruct p as [p|p|]; try reflexivity); discriminate.
Qed.

Lemma digits_cons w m :
  exists c r, JSDate.digits (S w) m = c :: r /\ isDigit c = true.
Proof.
  pose proof (digits_are_digits (S w) m) as H.
  destruct (JSDate.digits (S w) m) as [|c r] eqn:E.
  - cbn [JSDate.digits] in E. destruct (JSDate.digits w (m / 10)); discriminate.
  - exists c, r. split; [reflexivity|]. now inversion H.
Qed.

Lemma year_yearString y r :
  (- 1000000 < y < 1000000)%Z ->
  JSDate.year (JSDate.yearString y ++ r) = Some (y, r).
Proof.
  intros Hy. unfold JSDate.yearString.
  destruct ((0 <=? y)%Z && (y <=? 9999)%Z) eqn:E.
  - apply andb_true_iff in E. rewrite !Z.leb_le in E.
    destruct (digits_cons 3 y) as (c & s & Ed & Hc).
    rewrite Ed. cbn [app]. rewrite (year_of_digit c (s ++ r) Hc).
    change (c :: s ++ r) with ((c :: s) ++ r). rewrite <- Ed.
    apply number_digits_exact. simpl. lia.
  - destruct (0 <=? y)%Z eqn:E0.
    + apply Z.leb_le in E0. change (lit "+") with [43%N]. cbn [app].
      unfold JSDate.year. rewrite number_digits_exact by (simpl; lia).
      f_equal. f_equal. lia.
    + apply Z.leb_gt in E0. change (lit "-") with [45%N]. cbn [app].
      unfold JSDate.year. rewrite number_digits_exact by (simpl; lia).
      cbn [JSDate.bind].
      replace (Z.abs y =? 0)%Z with false by (symmetry; apply Z.eqb_neq; lia).
      f_equal. f_equal. lia.
Qed.

Lemma YearFromTime_bounded t :
  (Z.abs t <= 8640000000000000)%Z ->
  (- 1000000 < JSDate.YearFromTime t < 1000000)%Z.
Proof.
  intros Ht. pose proof (YearFromTime_spec t) as H.
  assert (Hd : (- 100000000 <= JSDate.Day t <= 100000000)%Z).
  { unfold JSDate.Day, JSDate.msPerDay.
    pose proof (Z.div_mod t 86400000 ltac:(lia)).
    pose proof (Z.mod_pos_bound t 86400000 ltac:(lia)). lia. }
  revert H. generalize (JSDate.YearFromTime t) (JSDate.Day t) Hd.
  intros y d Hd' H. unfold JSDate.DayFromYear in H.
  pose proof (Z.div_mod (y - 1969) 4 ltac:(lia)).
  pose proof (Z.mod_pos_bound (y - 1969) 4 ltac:(lia)).
  pose proof (Z.div_mod (y - 1901) 100 ltac:(lia)).
  pose proof (Z.mod_pos_bound (y - 1901) 100 ltac:(lia)).
  pose proof (Z.div_mod (y - 1601) 400 ltac:(lia)).
  pose proof (Z.mod_pos_bound (y - 1601) 400 ltac:(lia)).
  pose proof (Z.div_mod (y + 1 - 1969) 4 ltac:(lia)).
  pose proof (Z.mod_pos_bound (y + 1 - 1969) 4 ltac:(lia)).
  pose proof (Z.div_mod (y + 1 - 1901) 100 ltac:(lia)).
  pose proof (Z.mod_pos_bound (y + 1 - 1901) 100 ltac:(lia)).
  pose proof (Z.div_mod (y + 1 - 1601) 400 ltac:(lia)).
  pose proof (Z.mod_pos_bound (y + 1 - 1601) 400 ltac:(lia)).
  lia.
Qed.

Lemma calendarDate_isoDate t r :
  (Z.abs t <= 8640000000000000)%Z ->
  JSDate.calendarDate (JSDate.isoDate t ++ r) = Some (JSDate.Day t, r).
Proof.
  intros Ht. unfold JSDate.calendarDate, JSDate.isoDate.
  pose proof (month_and_date_range t) as [Hm Hd].
  assert (Hdim : (JSDate.DaysInMonth (JSDate.YearFromTime t)
                    (JSDate.MonthFromTime t + 1) <= 31)%Z).
  { unfold JSDate.DaysInMonth.
    destruct (JSDate.isLeapYear _);
      assert (Hc : (JSDate.MonthFromTime t = 0 \/ JSDate.MonthFromTime t = 1
                    \/ JSDate.MonthFromTime t = 2 \/ JSDate.MonthFromTime t = 3
                    \/ JSDate.MonthFromTime t = 4 \/ JSDate.MonthFromTime t = 5
                    \/ JSDate.MonthFromTime t = 6 \/ JSDate.MonthFromTime t = 7
                    \/ JSDate.MonthFromTime t = 8 \/ JSDate.MonthFromTime t = 9
                    \/ JSDate.MonthFromTime t = 10
                    \/ JSDate.MonthFromTime t = 11)%Z) by lia;
      repeat (destruct Hc as [Hc|Hc]; [rewrite Hc; simpl; lia|]);
      rewrite Hc; simpl; lia. }
  repeat rewrite <- app_assoc.
  rewrite year_yearString by (now apply YearFromTime_bounded).
  cbn [JSDate.bind]. change (lit "-") with [45%N]. cbn [app JSDate.expect].
  cbn [N.eqb Pos.eqb JSDate.bind].
  rewrite number_digits_exact by (simpl; lia).
  cbn [JSDate.bind JSDate.expect N.eqb Pos.eqb].
  rewrite number_digits_exact by (simpl; lia).
  cbn [JSDate.bind].
  replace ((1 <=? JSDate.MonthFromTime t + 1)%Z
           && (JSDate.MonthFromTime t + 1 <=? 12)%Z
           && (1 <=? JSDate.DateFromTime t)%Z
           && (JSDate.DateFromTime t
               <=? JSDate.DaysInMonth (JSDate.YearFromTime t)
                     (JSDate.MonthFromTime t + 1))%Z) with true
    by (symmetry; repeat (apply andb_true_iff; split); apply Z.leb_le; lia).
  f_equal. f_equal.
  unfold JSDate.MakeDay, JSDate.DateFromTime, JSDate.DayWithinYear,
    JSDate.InLeapYear.
  replace (JSDate.MonthFromTime t + 1 - 1)%Z with (JSDate.MonthFromTime t)
    by lia.
  lia.
Qed.

Lemma time_fields t :
  (t mod JSDate.msPerDay
   = JSDate.HourFromTime t * 3600000 + JSDate.MinFromTime t * 60000
     + (JSDate.SecFromTime t * 1000 + JSDate.msFromTime t))%Z.
Proof.
  unfold JSDate.msPerDay, JSDate.HourFromTime, JSDate.MinFromTime,
    JSDate.SecFromTime, JSDate.msFromTime.
  replace (t / 60000)%Z with (t / 1000 / 60)%Z
    by (rewrite Z.div_div by lia; reflexivity).
  replace (t / 3600000)%Z with (t / 1000 / 60 / 60)%Z
    by (rewrite !Z.div_div by lia; reflexivity).
  rewrite (Z.mod_eq t 86400000) by lia.
  replace (t / 86400000)%Z with (t / 1000 / 60 / 60 / 24)%Z
    by (rewrite !Z.div_div by lia; reflexivity).
  pose proof (Z.div_mod t 1000 ltac:(lia)).
  pose proof (Z.div_mod (t / 1000) 60 ltac:(lia)).
  pose proof (Z.div_mod (t / 1000 / 60) 60 ltac:(lia)).
  pose proof (Z.div_mod (t / 1000 / 60 / 60) 24 ltac:(lia)).
  lia.
Qed.

Lemma timeOfDay_isoTime t :
  JSDate.timeOfDay (lit "T" ++ JSDate.isoTime t ++ lit "Z")
  = Some (t mod JSDate.msPerDay)%Z.
Proof.
  rewrite time_fields. unfold JSDate.isoTime.
  pose proof (Z.mod_pos_bound (t / 3600000) 24 ltac:(lia)) as Hh.
  pose proof (Z.mod_pos_bound (t / 60000) 60 ltac:(lia)) as Hm.
  pose proof (Z.mod_pos_bound (t / 1000) 60 ltac:(lia)) as Hs.
  pose proof (Z.mod_pos_bound t 1000 ltac:(lia)) as Hms.
  fold (JSDate.HourFromTime t) in Hh. fold (JSDate.MinFromTime t) in Hm.
  fold (JSDate.SecFromTime t) in Hs. fold (JSDate.msFromTime t) in Hms.
  change (lit "T") with [84%N]. change (lit ":") with [58%N].
  change (lit ".") with [46%N]. change (lit "Z") with [90%N].
  repeat rewrite <- app_assoc. cbn [app JSDate.timeOfDay].
  rewrite number_digits_exact by (simpl; lia).
  cbn [JSDate.bind JSDate.expect N.eqb Pos.eqb].
  rewrite number_digits_exact by (simpl; lia).
  cbn [JSDate.bind JSDate.seconds].
  rewrite number_digits_exact by (simpl; lia).
  cbn [JSDate.bind JSDate.fraction].
  rewrite number_digits_exact by (simpl; lia).
  cbn [JSDate.bind].
  replace (JSDate.SecFromTime t <=? 59)%Z with true
    by (symmetry; apply Z.leb_le; lia).
  replace ((JSDate.HourFromTime t <=? 23)%Z && (JSDate.MinFromTime t <=? 59)%Z)
    with true
    by (symmetry; apply andb_true_iff; split; apply Z.leb_le; lia).
  reflexivity.
Qed.

(** Every valid time value is read back from its ISO string, on every
    host. *)
Lemma parse_toISOString (hostParse : jsstring -> option Z) t :
  (Z.abs t <= 8640000000000000)%Z ->
  JSDate.parse hostParse (JSDate.toISOString t) = Some t.
Proof.
  intros Ht. unfold JSDate.parse, JSDate.isoParse, JSDate.toISOString.
  rewrite calendarDate_isoDate by exact Ht. cbn [JSDate.bind].
  rewrite timeOfDay_isoTime. cbn [JSDate.bind].
  replace (JSDate.Day t * JSDate.msPerDay + t mod JSDate.msPerDay)%Z with t.
  - unfold JSDate.TimeClip.
    replace (Z.abs t <=? 8640000000000000)%Z with true
      by (symmetry; now apply Z.leb_le).
    reflexivity.
  - unfold JSDate.Day, JSDate.msPerDay.
    pose proof (Z.div_mod t 86400000 ltac:(lia)). lia.
Qed.

(** *** The normalizers *)

Section NormalizerFacts.

Variable hostParse : jsstring -> option Z.

(** A string that is no date comes back trimmed. *)
Lemma normalizeDate_unparseable (s : jsstring) :
  JSDate.parse hostParse s = None -> normalizeDate hostParse s = trim s.
Proof. unfold normalizeDate. now intros ->. Qed.

(** A date comes back as the date part of its ISO string. *)
Lemma normalizeDate_parseable (s : jsstring) t :
  JSDate.parse hostParse s = Some t ->
  normalizeDate hostParse s = JSDate.isoDate t.
Proof.
  unfold normalizeDate. intros ->. unfold JSDate.toISOString.
  change (lit "T" ++ ?x) with (84%N :: x).
  now rewrite split_before_separator by apply isoDate_no_T.
Qed.

(** The [trim] setter of the [date] path keeps a normalized date. *)
Lemma normalizeDate_trimmed (s : jsstring) :
  trim (normalizeDate hostParse s) = normalizeDate hostParse s.
Proof.
  destruct (JSDate.parse hostParse s) as [t|] eqn:E.
  - rewrite (normalizeDate_parseable s t E).
    apply trim_no_space.
    eapply Forall_impl; [|apply isoDate_chars].
    intros c. apply isISOChar_not_space.
  - rewrite (normalizeDate_unparseable s E). apply trim_idempotent.
Qed.

(** A date within the years 0 to 9999 comes back as [YYYY-MM-DD]. *)
Lemma normalizeDate_four_digit_year (s : jsstring) t :
  JSDate.parse hostParse s = Some t ->
  (0 <= JSDate.YearFromTime t <= 9999)%Z ->
  JSDate.isYMD (normalizeDate hostParse s) = true.
Proof.
  intros E Hy. rewrite (normalizeDate_parseable s t E).
  unfold JSDate.isoDate, JSDate.yearString.
  replace ((0 <=? JSDate.YearFromTime t)%Z && (JSDate.YearFromTime t <=? 9999)%Z)
    with true by (symmetry; apply andb_true_iff; split; apply Z.leb_le; lia).
  cbn [JSDate.digits app]. unfold JSDate.isYMD.
  change (lit "-") with [45%N]. cbn [app].
  rewrite !isDigit_digitChar. reflexivity.
Qed.

(** [normalizeTime] only trims. *)
Lemma normalizeTime_trim (s : jsstring) : normalizeTime s = trim s.
Proof. reflexivity. Qed.

End NormalizerFacts.

(** C5. On the date string "+010000-01-01T00:00:00.000Z", which is in the
    ECMAScript date-time format and so parses on every host,
    [normalizeDate] returns "+010000-01-01": a parseable date whose result
    is not of the form YYYY-MM-DD. *)
Theorem normalizeDate_expanded_year :
  forall hostParse : jsstring -> option Z,
    JSDate.parse hostParse (lit "+010000-01-01T00:00:00.000Z")
    = Some 253402300800000%Z
    /\ normalizeDate hostParse (lit "+010000-01-01T00:00:00.000Z")
       = lit "+010000-01-01"
    /\ JSDate.isYMD
         (normalizeDate hostParse (lit "+010000-01-01T00:00:00.000Z"))
       = false.
Proof. intro h. vm_compute. repeat split. Qed.

(** ** Validation *)

Lemma PathState_cases (q : string * PathState) :
  (inState CastFailed q = true \/ inState Unset q = true)
  \/ (inState Modified q = true \/ inState Defaulted q = true).
Proof. destruct q as [n []]; cbn; auto. Qed.

(** The validation order goes through every path. *)
Lemma validationOrder_In ps p :
  In p (validationOrder ps) <-> In p (map fst ps).
Proof.
  unfold validationOrder. rewrite !in_map_iff. split.
  - intros [q [E H]]. exists q. split; [exact E|].
    rewrite !in_app_iff, <- in_rev, !filter_In in H. tauto.
  - intros [q [E H]]. exists q. split; [exact E|].
    rewrite !in_app_iff, <- in_rev, !filter_In.
    destruct (PathState_cases q) as [[C|C]|[C|C]]; tauto.
Qed.

Lemma fails_true vs p : fails vs p = true <-> In (p, false) vs.
Proof.
  unfold fails. rewrite existsb_exists. split.
  - intros [[n b] [H C]]. cbn in C. apply andb_true_iff in C.
    destruct C as [C1 C2]. apply String.eqb_eq in C1. subst n.
    now destruct b.
  - intros H. exists (p, false). split; [exact H|].
    cbn. now rewrite String.eqb_refl.
Qed.

Lemma failing_In vs order p :
  In p (filter (fails vs) order) <-> In p order /\ In (p, false) vs.
Proof. rewrite filter_In, fails_true. tauto. Qed.

Lemma failing_nil vs order :
  (forall p, In p (map fst vs) -> In p order) ->
  filter (fails vs) order = [] <-> forallb snd vs = true.
Proof.
  intros Hall. rewrite forallb_forall. split.
  - intros E [n b] Hin. destruct b; [reflexivity|]. exfalso.
    assert (H : In n (filter (fails vs) order)).
    { apply failing_In. split; [|exact Hin]. apply Hall.
      apply in_map_iff. now exists (n, false). }
    rewrite E in H. destruct H.
  - intros Hv. destruct (filter (fails vs) order) as [|n r] eqn:E;
      [reflexivity|].
    assert (H : In n (filter (fails vs) order)) by (rewrite E; now left).
    apply failing_In in H. destruct H as [_ H].
    specialize (Hv _ H). discriminate.
Qed.

Lemma firstFailing_In vs p : firstFailing vs = Some p -> In (p, false) vs.
Proof.
  unfold firstFailing. destruct (find _ vs) as [[n b]|] eqn:F;
    [|discriminate].
  intros H. injection H as <-. apply find_some in F. destruct F as [F C].
  cbn in *. now destruct b.
Qed.

Lemma requiredString_spec v :
  requiredString v = true <-> exists c s, v = Some (c :: s).
Proof.
  destruct v as [[|c s]|]; simpl; split;
    try discriminate; try (intros [c' [s' H]]; discriminate); eauto.
Qed.

Lemma nonEmptyArray_spec v :
  nonEmptyArray v = true <-> exists a l, v = Some (a :: l).
Proof.
  destruct v as [[|c s]|]; simpl; split;
    try discriminate; try (intros [c' [s' H]]; discriminate); eauto.
Qed.

Lemma validMode_spec v :
  validMode v = true <->
  v = Some (lit "online") \/ v = Some (lit "offline") \/ v = Some (lit "hybrid").
Proof.
  destruct v as [m|]; unfold validMode, modeEnum; cbn [existsb].
  - rewrite andb_true_iff, !orb_true_iff, !eqb_eq. split.
    + intros [_ [H|[H|[H|H]]]]; subst; auto. discriminate.
    + intros [H|[H|H]]; injection H as ->; split; auto; reflexivity.
  - split; [discriminate|]. intros [H|[H|H]]; discriminate.
Qed.

(** The validators of a trimmed text path fail exactly when the text is
    missing. *)
Lemma requiredString_false (v : option jsstring) :
  requiredString (option_map trim v) = false <-> missingText v.
Proof.
  unfold missingText. destruct v as [s|]; cbn [option_map requiredString].
  - destruct (trim s) eqn:E; split.
    + intros _ s' H. congruence.
    + reflexivity.
    + discriminate.
    + intros H. specialize (H s eq_refl). congruence.
  - split; [|reflexivity]. intros _ s E. discriminate.
Qed.

Lemma nonEmptyArray_false v : nonEmptyArray v = false <-> missingItems v.
Proof.
  unfold missingItems. destruct v as [[|a l]|]; cbn [nonEmptyArray].
  - split; [|reflexivity]. intros _ l E. congruence.
  - split; [discriminate|]. intros H. specialize (H _ eq_refl).
    discriminate.
  - split; [|reflexivity]. intros _ l E. discriminate.
Qed.

Lemma validMode_false v : validMode v = false <-> badMode v.
Proof.
  unfold badMode. pose proof (validMode_spec v) as S.
  destruct (validMode v).
  - split; [discriminate|]. intros (A & B & C).
    destruct (proj1 S eq_refl) as [H|[H|H]]; contradiction.
  - split; [|reflexivity]. intros _.
    repeat split; intros H;
      (assert (F : false = true) by (apply S; tauto)); discriminate.
Qed.

Lemma sameChecks_In vs fs p :
  sameChecks vs fs ->
  In (p, false) vs <-> exists fault, In (p, fault) fs /\ fault.
Proof.
  induction 1 as [|[n b] [m f] vs fs [En Eb] _ IH]; cbn [In].
  - split; [tauto|]. intros (f & [] & _).
  - cbn [fst snd] in En, Eb. subst m. rewrite IH. split.
    + intros [E|(f' & H & F)].
      * injection E as -> ->. exists f. split; [now left|]. now apply Eb.
      * exists f'. split; [now right|exact F].
    + intros (f' & [E|H] & F).
      * injection E as -> ->. left. f_equal. now apply Eb.
      * right. eauto.
Qed.

Lemma sameChecks_first vs fs p :
  sameChecks vs fs ->
  (exists before fault after,
      fs = before ++ (p, fault) :: after /\ fault
      /\ forall q, In q before -> ~ snd q) ->
  firstFailing vs = Some p.
Proof.
  unfold firstFailing.
  induction 1 as [|[n b] [m f] vs fs [En Eb] _ IH];
    intros (before & fault & after & E & F & Hb).
  - destruct before; discriminate.
  - cbn [fst snd] in En, Eb. subst m. cbn [find snd].
    destruct before as [|q before]; cbn [app] in E.
    + injection E as -> -> ->. apply Eb in F. rewrite F. reflexivity.
    + injection E as <- ->.
      assert (Hq : ~ f) by (apply (Hb (n, f)); now left).
      destruct b; [|exfalso; apply Hq; now apply Eb].
      cbn [negb]. apply IH. exists before, fault, after.
      split; [reflexivity|]. split; [exact F|].
      intros q Hin. apply Hb. now right.
Qed.

Section EventFacts.

Variable unicodeLower : jsstring -> jsstring.
Variable hostParse : jsstring -> option Z.

(** The validators of the schema fail where the schema says. *)
Lemma eventValidators_faults input :
  sameChecks (eventValidators (castEvent unicodeLower input))
    (eventFaults input).
Proof.
  unfold sameChecks, eventValidators, eventFaults, castEvent, setTrim.
  cbn [title description overview image venue location date time mode
       audience agenda organizer tags].
  repeat (apply Forall2_cons;
          [split; [reflexivity|];
           cbn [fst snd];
           first [apply requiredString_false | apply nonEmptyArray_false
                 | apply validMode_false]|]).
  apply Forall2_nil.
Qed.

Lemma failsAt_spec input p :
  In (p, false) (eventValidators (castEvent unicodeLower input))
  <-> failsAt input p.
Proof. apply sameChecks_In, eventValidators_faults. Qed.

Lemma validateEvent_cases d :
  (validateEvent d = inl tt /\ forallb snd (eventValidators d) = true)
  \/ (exists first rest,
        validateEvent d = inr (ValidationError (first :: rest))
        /\ forall p,
             In p (first :: rest) <-> In (p, false) (eventValidators d)).
Proof.
  assert (Hall : forall p, In p (map fst (eventValidators d)) ->
                           In p (validationOrder (eventStates d)))
    by (intros p H; apply validationOrder_In; exact H).
  unfold validateEvent.
  destruct (filter (fails (eventValidators d))
              (validationOrder (eventStates d))) as [|p ps] eqn:E.
  - left. split; auto. now apply (failing_nil _ _ Hall).
  - right. exists p, ps. split; [reflexivity|]. intros q.
    rewrite <- E, failing_In. split; [tauto|]. intros H. split; [|exact H].
    apply Hall, in_map_iff. now exists (q, false).
Qed.

Lemma validateEvent_pass d :
  forallb snd (eventValidators d) = true -> validateEvent d = inl tt.
Proof.
  intros H.
  destruct (validateEvent_cases d) as [[E _]|(f & r & _ & Hp)]; [exact E|].
  exfalso. specialize (proj1 (Hp f) (or_introl eq_refl)) as Hin.
  rewrite forallb_forall in H. specialize (H _ Hin). discriminate.
Qed.

(** A document that passes validation has every required path. *)
Lemma validateEvent_ok d :
  validateEvent d = inl tt ->
  exists t s x,
    title d = Some t /\ t <> [] /\ date d = Some s /\ time d = Some x.
Proof.
  intros H. destruct (validateEvent_cases d) as [[_ Hv]|[f [r [E _]]]];
    [|congruence].
  simpl in Hv. repeat rewrite andb_true_iff in Hv.
  destruct Hv as (Ht & _ & _ & _ & _ & _ & Hd & Hx & _).
  apply requiredString_spec in Ht, Hd, Hx.
  destruct Ht as (c1 & s1 & Ht), Hd as (c2 & s2 & Hd), Hx as (c3 & s3 & Hx).
  exists (c1 :: s1), (c2 :: s2), (c3 :: s3). repeat split; auto. discriminate.
Qed.

(** ** The save hook of an event *)

(** What the hook leaves of a document that has the three paths it reads. *)
Lemma eventPreSave_result :
  forall (isModified : string -> bool) (d : EventFields) (t s x : jsstring),
    title d = Some t -> date d = Some s -> time d = Some x ->
    eventPreSave unicodeLower hostParse isModified d =
    inl {| title := title d;
           slug := if isModified "title"%string || falsy (slug d)
                   then Some (generateSlug unicodeLower t) else slug d;
           description := description d;
           overview := overview d;
           image := image d;
           venue := venue d;
           location := location d;
           date := if isModified "date"%string
                   then Some (normalizeDate hostParse s) else date d;
           time := if isModified "time"%string
                   then Some (trim x) else time d;
           mode := mode d;
           audience := audience d;
           agenda := agenda d;
           organizer := organizer d;
           tags := tags d |}.
Proof.
  intros m d t s x Ht Hs Hx.
  destruct d; simpl in Ht, Hs, Hx; subst.
  unfold eventPreSave, andThen, assignSlug, assignDate, assignTime,
    normalizeTime, setTrim, setTrimLowercase.
  cbn [title slug date time option_map].
  destruct (m "title"%string || falsy _);
    destruct (m "date"%string); destruct (m "time"%string);
    cbn [title slug description overview image venue location date time
         mode audience agenda organizer tags option_map];
    rewrite ?setters_keep_generated_slug, ?normalizeDate_trimmed,
      ?trim_idempotent;
    reflexivity.
Qed.

(** C8. On a save of an event that has a title, a date and a time, the hook
    regenerates the slug from the title with the slug generator when the
    title is modified or the slug is absent, renormalizes the date when the
    date is modified and trims the time again when the time is modified;
    everything else, and each of the three when its trigger did not fire,
    is left as it was. *)
Theorem eventPreSave_spec :
  forall (isModified : string -> bool) (d : EventFields) (t s x : jsstring),
    title d = Some t -> date d = Some s -> time d = Some x ->
    eventPreSave unicodeLower hostParse isModified d =
    inl {| title := title d;
           slug := if isModified "title"%string || falsy (slug d)
                   then Some (generateSlug unicodeLower t) else slug d;
           description := description d;
           overview := overview d;
           image := image d;
           venue := venue d;
           location := location d;
           date := if isModified "date"%string
                   then Some (normalizeDate hostParse s) else date d;
           time := if isModified "time"%string
                   then Some (trim x) else time d;
           mode := mode d;
           audience := audience d;
           agenda := agenda d;
           organizer := organizer d;
           tags := tags d |}.
Proof. exact eventPreSave_result. Qed.

End EventFacts.

(** ** Creating events *)

Lemma slugTaken_spec st v :
  slugTaken st v = true <-> In v (map slugOf (events st)).
Proof.
  unfold slugTaken. rewrite existsb_exists, in_map_iff.
  split; intros [e [H1 H2]]; exists e.
  - apply optEqb_eq in H2. auto.
  - split; [tauto|]. apply optEqb_eq. tauto.
Qed.

Lemma slugTaken_app st e v :
  slugTaken (mkStore (events st ++ [e]) (bookings st)) v
  = slugTaken st v || optEqb (slugOf e) v.
Proof.
  unfold slugTaken. simpl. rewrite existsb_app. simpl.
  now rewrite orb_false_r.
Qed.

Section CreateFacts.

Variable unicodeLower : jsstring -> jsstring.
Variable hostParse : jsstring -> option Z.

(** A create that fails validation changes nothing. *)
Lemma Event_create_invalid st id now input err :
  validateEvent (castEvent unicodeLower input) = inr err ->
  Event_create unicodeLower hostParse st id now input = (inr err, st).
Proof. unfold Event_create. now intros ->. Qed.

(** A create that passes validation stops only at the unique index. *)
Lemma Event_create_valid st id now input t s x :
  validateEvent (castEvent unicodeLower input) = inl tt ->
  title (castEvent unicodeLower input) = Some t ->
  date (castEvent unicodeLower input) = Some s ->
  time (castEvent unicodeLower input) = Some x ->
  Event_create unicodeLower hostParse st id now input =
  let e :=
    mkIEvent id
      (savedFields unicodeLower hostParse (castEvent unicodeLower input) t s x)
      now now in
  if slugTaken st (Some (generateSlug unicodeLower t))
  then (inr (DuplicateKeyError "slug"), st)
  else (inl e, mkStore (events st ++ [e]) (bookings st)).
Proof.
  intros Hv Ht Hs Hx. unfold Event_create. rewrite Hv.
  rewrite (eventPreSave_result unicodeLower hostParse _ _ t s x Ht Hs Hx).
  unfold isModifiedNew. cbn [String.eqb Ascii.eqb Bool.eqb andb].
  rewrite Ht, Hs, Hx. cbn [isSome orb slug].
  unfold savedFields. rewrite Ht. reflexivity.
Qed.

(** Whatever a create does, it keeps the slugs of the store distinct. *)
Lemma Event_create_keeps_uniqueSlugs st id now input :
  uniqueSlugs st ->
  uniqueSlugs (snd (Event_create unicodeLower hostParse st id now input)).
Proof.
  intros Hu. unfold Event_create.
  destruct (validateEvent _); [|exact Hu].
  destruct (eventPreSave _ _ _ _) as [d|]; [|exact Hu].
  destruct (slugTaken st (slug d)) eqn:E; [exact Hu|].
  unfold uniqueSlugs. simpl. rewrite map_app. simpl.
  apply Permutation_NoDup with (l := slug d :: map slugOf (events st)).
  - apply Permutation_cons_append.
  - constructor; [|exact Hu].
    intros Hin. apply slugTaken_spec in Hin. congruence.
Qed.

(** The first of two creations with the same slug is stored, the second
    is refused by the unique index. *)
Lemma same_slug_creates :
  forall st id1 now1 input1 id2 now2 input2 t1 t2,
    validateEvent (castEvent unicodeLower input1) = inl tt ->
    validateEvent (castEvent unicodeLower input2) = inl tt ->
    title input1 = Some t1 ->
    title input2 = Some t2 ->
    generateSlug unicodeLower (trim t1) = generateSlug unicodeLower (trim t2) ->
    slugTaken st (Some (generateSlug unicodeLower (trim t1))) = false ->
    exists e1,
      let st1 := mkStore (events st ++ [e1]) (bookings st) in
      Event_create unicodeLower hostParse st id1 now1 input1 = (inl e1, st1)
      /\ slug (fields e1) = Some (generateSlug unicodeLower (trim t1))
      /\ Event_create unicodeLower hostParse st1 id2 now2 input2
         = (inr (DuplicateKeyError "slug"), st1).
Proof.
  intros st id1 now1 i1 id2 now2 i2 t1 t2 Hv1 Hv2 Ht1 Ht2 Hslug Hfree.
  destruct (validateEvent_ok _ Hv1) as (t1' & s1 & x1 & Ht1' & _ & Hs1 & Hx1).
  destruct (validateEvent_ok _ Hv2) as (t2' & s2 & x2 & Ht2' & _ & Hs2 & Hx2).
  assert (E1 : t1' = trim t1).
  { unfold castEvent in Ht1'. simpl in Ht1'. rewrite Ht1 in Ht1'.
    simpl in Ht1'. congruence. }
  assert (E2 : t2' = trim t2).
  { unfold castEvent in Ht2'. simpl in Ht2'. rewrite Ht2 in Ht2'.
    simpl in Ht2'. congruence. }
  subst t1' t2'.
  eexists. cbv zeta. split; [|split].
  - rewrite (Event_create_valid st id1 now1 i1 _ _ _ Hv1 Ht1' Hs1 Hx1).
    cbv zeta. rewrite Hfree. reflexivity.
  - reflexivity.
  - rewrite (Event_create_valid _ id2 now2 i2 _ _ _ Hv2 Ht2' Hs2 Hx2).
    cbv zeta. rewrite slugTaken_app. rewrite <- Hslug.
    unfold slugOf. cbn [fields savedFields slug].
    rewrite (proj2 (optEqb_eq _ _) eq_refl), orb_true_r. reflexivity.
Qed.

(** C3. Take two event creations whose titles, as the schema trims them,
    give the same slug, both with valid fields, the first one made on a
    store where that slug is free.  The first is stored with exactly the
    generated slug, nothing appended, and the second fails with the
    duplicate-key error of the unique index on [slug] and leaves the store
    as the first left it. *)
Theorem same_slug_second_create_fails :
  forall st id1 now1 input1 id2 now2 input2 t1 t2,
    validateEvent (castEvent unicodeLower input1) = inl tt ->
    validateEvent (castEvent unicodeLower input2) = inl tt ->
    title input1 = Some t1 ->
    title input2 = Some t2 ->
    generateSlug unicodeLower (trim t1) = generateSlug unicodeLower (trim t2) ->
    slugTaken st (Some (generateSlug unicodeLower (trim t1))) = false ->
    exists e1,
      let st1 := mkStore (events st ++ [e1]) (bookings st) in
      Event_create unicodeLower hostParse st id1 now1 input1 = (inl e1, st1)
      /\ slug (fields e1) = Some (generateSlug unicodeLower (trim t1))
      /\ Event_create unicodeLower hostParse st1 id2 now2 input2
         = (inr (DuplicateKeyError "slug"), st1).
Proof. exact same_slug_creates. Qed.

(** An input that fails the schema is refused with the paths at which it
    fails. *)
Lemma Event_create_faults st id now input path :
  failsAt input path ->
  exists paths,
    Event_create unicodeLower hostParse st id now input
    = (inr (ValidationError paths), st)
    /\ forall p, In p paths <-> failsAt input p.
Proof.
  intros Hf. apply (proj2 (failsAt_spec unicodeLower input path)) in Hf.
  destruct (validateEvent_cases (castEvent unicodeLower input))
    as [[_ Hok]|(first & rest & Hv & Hp)].
  - rewrite forallb_forall in Hok. specialize (Hok _ Hf). discriminate.
  - exists (first :: rest). split; [now apply Event_create_invalid|].
    intros p. rewrite Hp. apply (failsAt_spec unicodeLower).
Qed.


(** A valid event whose title gives the empty slug is stored with the
    empty slug when no stored event has it, and refused by the unique index
    when one has. *)
Lemma Event_create_empty_slug st id now input t :
  validateEvent (castEvent unicodeLower input) = inl tt ->
  title input = Some t ->
  generateSlug unicodeLower (trim t) = [] ->
  (slugTaken st (Some []) = false ->
   exists e,
     Event_create unicodeLower hostParse st id now input
     = (inl e, mkStore (events st ++ [e]) (bookings st))
     /\ title (fields e) = Some (trim t)
     /\ slug (fields e) = Some [])
  /\ (slugTaken st (Some []) = true ->
      Event_create unicodeLower hostParse st id now input
      = (inr (DuplicateKeyError "slug"), st)).
Proof.
  intros Hv Ht Hs.
  destruct (validateEvent_ok _ Hv) as (t' & s & x & Ht' & _ & Hd & Hx).
  assert (E : t' = trim t).
  { unfold castEvent in Ht'. simpl in Ht'. rewrite Ht in Ht'.
    simpl in Ht'. congruence. }
  subst t'.
  rewrite (Event_create_valid st id now input _ _ _ Hv Ht' Hd Hx).
  cbv zeta. split; intros Hfree.
  - assert (E : slugTaken st (Some (generateSlug unicodeLower (trim t)))
                = false) by (rewrite Hs; exact Hfree).
    rewrite E. eexists. split; [reflexivity|].
    cbn [fields savedFields title slug]. rewrite Ht', Hs. split; reflexivity.
  - assert (E : slugTaken st (Some (generateSlug unicodeLower (trim t)))
                = true) by (rewrite Hs; exact Hfree).
    rewrite E. reflexivity.
Qed.

End CreateFacts.

(** C10. The title "!!!" is not empty, so it passes the title validation,
    but its slug is the empty string.  Every valid event with such a title
    is stored with the empty slug when no stored event has it, and is
    refused by the unique index when one has: of any two such events,
    whatever their titles, the first is stored with the empty slug and the
    second collides with it. *)
Theorem empty_slug_collision :
  forall (unicodeLower : jsstring -> jsstring)
         (hostParse : jsstring -> option Z),
    (lit "!!!" <> []
     /\ validateEvent (castEvent unicodeLower (sampleEvent "!!!")) = inl tt
     /\ generateSlug unicodeLower (trim (lit "!!!")) = [])
    /\ (forall st id now input t,
           validateEvent (castEvent unicodeLower input) = inl tt ->
           title input = Some t ->
           generateSlug unicodeLower (trim t) = [] ->
           (slugTaken st (Some []) = false ->
            exists e,
              Event_create unicodeLower hostParse st id now input
              = (inl e, mkStore (events st ++ [e]) (bookings st))
              /\ title (fields e) = Some (trim t)
              /\ slug (fields e) = Some [])
           /\ (slugTaken st (Some []) = true ->
               Event_create unicodeLower hostParse st id now input
               = (inr (DuplicateKeyError "slug"), st)))
    /\ (forall st id1 now1 input1 id2 now2 input2 t1 t2,
           validateEvent (castEvent unicodeLower input1) = inl tt ->
           validateEvent (castEvent unicodeLower input2) = inl tt ->
           title input1 = Some t1 ->
           title input2 = Some t2 ->
           generateSlug unicodeLower (trim t1) = [] ->
           generateSlug unicodeLower (trim t2) = [] ->
           slugTaken st (Some []) = false ->
           exists e1,
             let st1 := mkStore (events st ++ [e1]) (bookings st) in
             Event_create unicodeLower hostParse st id1 now1 input1
             = (inl e1, st1)
             /\ slug (fields e1) = Some []
             /\ Event_create unicodeLower hostParse st1 id2 now2 input2
                = (inr (DuplicateKeyError "slug"), st1)).
Proof.
  intros u hp. split; [|split].
  - split; [discriminate|]. split; reflexivity.
  - apply Event_create_empty_slug.
  - intros st id1 now1 i1 id2 now2 i2 t1 t2 Hv1 Hv2 Ht1 Ht2 Hs1 Hs2 Hfree.
    destruct (same_slug_creates u hp st id1 now1 i1 id2 now2 i2 t1 t2
                Hv1 Hv2 Ht1 Ht2) as (e1 & H1 & Hs & H2).
    + now rewrite Hs1, Hs2.
    + now rewrite Hs1.
    + exists e1. cbv zeta in *. rewrite Hs1 in Hs. auto.
Qed.

(** ** Listing events *)

Lemma insertByCreatedAt_perm e l :
  Permutation (insertByCreatedAt e l) (e :: l).
Proof.
  induction l as [|h l IH]; simpl; [apply Permutation_refl|].
  destruct (createdAt h <=? createdAt e)%Z; [apply Permutation_refl|].
  eapply perm_trans; [apply perm_skip, IH|apply perm_swap].
Qed.

Lemma insertByCreatedAt_sorted e l :
  StronglySorted newerFirst l ->
  StronglySorted newerFirst (insertByCreatedAt e l).
Proof.
  induction 1 as [|h l Hl IH Hh]; simpl.
  - repeat constructor.
  - destruct (createdAt h <=? createdAt e)%Z eqn:E.
    + apply Z.leb_le in E. constructor; [constructor; assumption|].
      constructor; [exact E|].
      eapply Forall_impl; [|exact Hh].
      intros a Ha. unfold newerFirst in *. lia.
    + apply Z.leb_gt in E. constructor; [exact IH|].
      eapply Permutation_Forall;
        [apply Permutation_sym, insertByCreatedAt_perm|].
      constructor; [unfold newerFirst; lia|exact Hh].
Qed.

Lemma Event_find_sorted_perm st : Permutation (Event_find_sorted st) (events st).
Proof.
  unfold Event_find_sorted. induction (events st) as [|e l IH]; simpl.
  - apply perm_nil.
  - eapply perm_trans; [apply insertByCreatedAt_perm|now apply perm_skip].
Qed.

Lemma Event_find_sorted_sorted st :
  StronglySorted newerFirst (Event_find_sorted st).
Proof.
  unfold Event_find_sorted. induction (events st) as [|e l IH]; simpl.
  - constructor.
  - now apply insertByCreatedAt_sorted.
Qed.

(** An event older than all of [pre] goes behind [pre]. *)
Lemma insertByCreatedAt_behind e pre l :
  Forall (fun a => (createdAt e < createdAt a)%Z) pre ->
  insertByCreatedAt e (pre ++ l) = pre ++ insertByCreatedAt e l.
Proof.
  induction 1 as [|a pre Ha _ IH]; simpl; [reflexivity|].
  destruct (createdAt a <=? createdAt e)%Z eqn:E.
  - apply Z.leb_le in E. lia.
  - now rewrite IH.
Qed.

Lemma sort_behind (older pre : list IEvent) :
  (forall o a, In o older -> In a pre -> (createdAt o < createdAt a)%Z) ->
  fold_right insertByCreatedAt pre older
  = pre ++ fold_right insertByCreatedAt [] older.
Proof.
  induction older as [|o older IH]; intros H; simpl.
  - now rewrite app_nil_r.
  - rewrite IH by (intros; apply H; simpl; auto).
    apply insertByCreatedAt_behind.
    apply Forall_forall. intros a Ha. apply H; simpl; auto.
Qed.

Section ListFacts.

Variable unicodeLower : jsstring -> jsstring.
Variable hostParse : jsstring -> option Z.

(** What a successful create has done. *)
Lemma Event_create_stored st id now input e st' :
  Event_create unicodeLower hostParse st id now input = (inl e, st') ->
  st' = mkStore (events st ++ [e]) (bookings st)
  /\ _id e = id /\ createdAt e = now
  /\ slugTaken st (slug (fields e)) = false.
Proof.
  unfold Event_create.
  destruct (validateEvent _); [|discriminate].
  destruct (eventPreSave _ _ _ _) as [d|]; [|discriminate].
  destruct (slugTaken st (slug d)) eqn:E; [discriminate|].
  intros H. injection H as <- <-. auto.
Qed.

(** C9. With the store reachable, [GET /api/events] answers 200 with all
    stored events, the latest creation time first.  After three events
    were created one after the other, at increasing clock readings later
    than those of the events already stored, the listing starts with the
    third, the second and the first of them, in this order. *)
Theorem GET_events_newest_first :
  forall env,
    connectDB env = None ->
    (forall st,
        exists found,
          GET_events env st
          = mkResponse 200
              (MessageEvents (lit "Event fetched successfully.") found)
          /\ Permutation found (events st)
          /\ StronglySorted newerFirst found)
    /\ (forall st0 id1 now1 input1 e1 st1 id2 now2 input2 e2 st2
               id3 now3 input3 e3 st3,
           Event_create unicodeLower hostParse st0 id1 now1 input1
           = (inl e1, st1) ->
           Event_create unicodeLower hostParse st1 id2 now2 input2
           = (inl e2, st2) ->
           Event_create unicodeLower hostParse st2 id3 now3 input3
           = (inl e3, st3) ->
           (forall o, In o (events st0) -> createdAt o < now1)%Z ->
           (now1 < now2 < now3)%Z ->
           GET_events env st3
           = mkResponse 200
               (MessageEvents (lit "Event fetched successfully.")
                  ([e3; e2; e1] ++ Event_find_sorted st0))).
Proof.
  intros env Hc. split.
  - intros st. exists (Event_find_sorted st). unfold GET_events. rewrite Hc.
    split; [reflexivity|]. split.
    + apply Event_find_sorted_perm.
    + apply Event_find_sorted_sorted.
  - intros st0 id1 now1 i1 e1 st1 id2 now2 i2 e2 st2 id3 now3 i3 e3 st3
      H1 H2 H3 Hold Hnow.
    apply Event_create_stored in H1, H2, H3.
    destruct H1 as (-> & _ & T1 & _), H2 as (-> & _ & T2 & _),
      H3 as (-> & _ & T3 & _).
    unfold GET_events. rewrite Hc. do 2 f_equal.
    unfold Event_find_sorted. cbn [events].
    rewrite <- !app_assoc. cbn [app].
    rewrite fold_right_app. cbn [fold_right insertByCreatedAt].
    replace (createdAt e3 <=? createdAt e2)%Z with false
      by (symmetry; apply Z.leb_gt; lia).
    cbn [insertByCreatedAt].
    replace (createdAt e3 <=? createdAt e1)%Z with false
      by (symmetry; apply Z.leb_gt; lia).
    replace (createdAt e2 <=? createdAt e1)%Z with false
      by (symmetry; apply Z.leb_gt; lia).
    apply sort_behind.
    intros o a Ho Ha. specialize (Hold o Ho).
    simpl in Ha. destruct Ha as [<-|[<-|[<-|[]]]]; lia.
Qed.

End ListFacts.

(** ** Finding an event by its slug *)

Lemma trim_nil : trim [] = [].
Proof. reflexivity. Qed.

Lemma find_slug_unique (l : list IEvent) key e e' :
  NoDup (map slugOf l) ->
  In e l -> slugOf e = key ->
  find (fun a => optEqb (slugOf a) key) l = Some e' ->
  e' = e.
Proof.
  induction l as [|h l IH]; simpl; intros Hn Hin Hk Hf; [destruct Hin|].
  inversion Hn as [|? ? Hnotin Hn']; subst.
  destruct (optEqb (slugOf h) (slugOf e)) eqn:E.
  - injection Hf as <-. apply optEqb_eq in E.
    destruct Hin as [->|Hin]; [reflexivity|].
    exfalso. apply Hnotin. rewrite E. now apply in_map.
  - destruct Hin as [->|Hin].
    + rewrite (proj2 (optEqb_eq _ _) eq_refl) in E. discriminate.
    + now apply IH.
Qed.

(** C4, as stated, fails on a blank query.  The store holds the event
    created from the title "!!!", whose slug is the empty string; the query
    " " trims to the empty string, the slug of that event, and the answer is
    400 and not the event.  On the empty store the same query matches no
    event and the answer is 400 again, not 404. *)
Lemma blank_slug_query_rejected :
  (exists e,
      In e (events storeWithEmptySlug)
      /\ slug (fields e) = Some (toLowerCase asciiHost (trim (lit " ")))
      /\ status (GET_event asciiHost sampleEnv storeWithEmptySlug
                   (Some (lit " "))) = 400%Z)
  /\ Event_findOne_slug emptyStore (toLowerCase asciiHost (trim (lit " ")))
     = None
  /\ status (GET_event asciiHost sampleEnv emptyStore (Some (lit " ")))
     = 400%Z.
Proof.
  split; [|split; reflexivity].
  eexists. split; [left; reflexivity|]. split; reflexivity.
Qed.

Section RouteFacts.

Variable unicodeLower : jsstring -> jsstring.

Lemma GET_event_guard_passes (query : jsstring) :
  trim query <> [] ->
  falsy (Some query) || falsy (option_map trim (Some query)) = false.
Proof.
  intros Hq. simpl. destruct query as [|c q]; [now rewrite trim_nil in Hq|].
  destruct (trim (c :: q)); [congruence|reflexivity].
Qed.

(** A stored event whose slug is the normalized query is found. *)
Lemma GET_event_found env st query e :
  connectDB env = None ->
  trim query <> [] ->
  In e (events st) ->
  slug (fields e) = Some (toLowerCase unicodeLower (trim query)) ->
  exists e',
    GET_event unicodeLower env st (Some query)
    = mkResponse 200 (MessageEvent (lit "Event fetched successfully") e')
    /\ In e' (events st)
    /\ slug (fields e') = Some (toLowerCase unicodeLower (trim query))
    /\ (uniqueSlugs st -> e' = e).
Proof.
  intros Hc Hq Hin Hslug. unfold GET_event.
  rewrite Hc, (GET_event_guard_passes query Hq).
  unfold Event_findOne_slug.
  destruct (find _ (events st)) as [e'|] eqn:F.
  - exists e'. split; [reflexivity|].
    pose proof (find_some _ _ F) as [Hin' Hm].
    apply optEqb_eq in Hm. repeat split; auto.
    intros Hu. eapply find_slug_unique; eauto.
  - exfalso. pose proof (find_none _ _ F e Hin) as Hm. simpl in Hm.
    rewrite Hslug in Hm.
    rewrite (proj2 (optEqb_eq _ _) eq_refl) in Hm. discriminate.
Qed.

(** C4 (amended). With the store reachable and a query slug that is not
    blank, [GET /api/events/[slug]] looks for the trimmed, lowercased query:
    when a stored event has it as its slug the answer is 200 with an event
    of that slug, the event itself when slugs are unique in the store; when
    no stored event has it the answer is 404, a response and no thrown
    error.  The query "REACT-CONF-2024 " finds an event stored with the slug
    "react-conf-2024".  A blank query is answered with 400. *)
Theorem GET_event_by_slug :
  forall env st query,
    connectDB env = None ->
    let key := toLowerCase unicodeLower (trim query) in
    (trim query <> [] ->
     (forall e,
         In e (events st) -> slug (fields e) = Some key ->
         exists e',
           GET_event unicodeLower env st (Some query)
           = mkResponse 200
               (MessageEvent (lit "Event fetched successfully") e')
           /\ In e' (events st)
           /\ slug (fields e') = Some key
           /\ (uniqueSlugs st -> e' = e))
     /\ ((forall e, In e (events st) -> slug (fields e) <> Some key) ->
         GET_event unicodeLower env st (Some query)
         = mkResponse 404
             (Message (lit "Event with slug: " ++ key ++ lit " not found"))))
    /\ (trim query = [] ->
        GET_event unicodeLower env st (Some query)
        = mkResponse 400 (Message (lit "Invalid or missing slug parameter")))
    /\ (forall e,
           In e (events st) ->
           slug (fields e) = Some (lit "react-conf-2024") ->
           exists e',
             GET_event unicodeLower env st (Some (lit "REACT-CONF-2024 "))
             = mkResponse 200
                 (MessageEvent (lit "Event fetched successfully") e')
             /\ slug (fields e') = Some (lit "react-conf-2024")).
Proof.
  intros env st q Hc key. split; [|split].
  - intros Hq. split.
    + intros e Hin Hslug. now apply GET_event_found.
    + intros Hnone. unfold GET_event.
      rewrite Hc, (GET_event_guard_passes q Hq).
      fold key. unfold Event_findOne_slug.
      destruct (find _ (events st)) as [e'|] eqn:F; [|reflexivity].
      exfalso. pose proof (find_some _ _ F) as [Hin' Hm].
      apply optEqb_eq in Hm. exact (Hnone e' Hin' Hm).
  - intros Hq. unfold GET_event. rewrite Hc. simpl. rewrite Hq. simpl.
    now rewrite orb_true_r.
  - intros e Hin Hslug.
    destruct (GET_event_found env st (lit "REACT-CONF-2024 ") e Hc)
      as (e' & Hr & _ & Hs & _); [discriminate|exact Hin|exact Hslug|].
    exists e'. split; [exact Hr|exact Hs].
Qed.

End RouteFacts.

(** ** Regular expressions *)

Module RegexFacts.

Import Regex.

Lemma lang_seq_inv a b s :
  lang (Seq a b) s -> exists u v, s = u ++ v /\ lang a u /\ lang b v.
Proof. inversion 1; subst; eauto. Qed.

Lemma lang_alt_inv a b s : lang (Alt a b) s -> lang a s \/ lang b s.
Proof. inversion 1; subst; auto. Qed.

Lemma lang_class_inv p s :
  lang (Class p) s -> exists c, s = [c] /\ p c = true.
Proof. inversion 1; subst; eauto. Qed.

Lemma lang_star_inv a s :
  lang (Star a) s ->
  s = [] \/ exists c u v,
              s = c :: u ++ v /\ lang a (c :: u) /\ lang (Star a) v.
Proof. inversion 1; subst; [left; reflexivity|right; eauto 6]. Qed.

Lemma nullable_lang r : nullable r = true <-> lang r [].
Proof.
  induction r as [| |p|a IHa b IHb|a IHa b IHb|a IHa]; simpl.
  - split; [discriminate|inversion 1].
  - split; [constructor|reflexivity].
  - split; [discriminate|inversion 1].
  - rewrite andb_true_iff, IHa, IHb. split.
    + intros [Ha Hb]. exact (lang_seq a b [] [] Ha Hb).
    + intros H. apply lang_seq_inv in H.
      destruct H as (u & v & E & Hu & Hv).
      symmetry in E. apply app_eq_nil in E. destruct E; subst. auto.
  - rewrite orb_true_iff, IHa, IHb. split.
    + intros [H|H]; [now apply lang_alt_l|now apply lang_alt_r].
    + apply lang_alt_inv.
  - split; [constructor|reflexivity].
Qed.

Lemma deriv_seq_lang c a b s :
  (forall s, lang (deriv c a) s <-> lang a (c :: s)) ->
  lang (Seq a b) (c :: s) <->
  lang (Seq (deriv c a) b) s \/ (lang a [] /\ lang b (c :: s)).
Proof.
  intros IHa. split.
  - intros H. apply lang_seq_inv in H. destruct H as (u & v & E & Hu & Hv).
    destruct u as [|c' u]; simpl in E.
    + subst v. right. auto.
    + injection E as <- ->. left. apply IHa in Hu. now constructor.
  - intros [H|[Ha Hb]].
    + apply lang_seq_inv in H. destruct H as (u & v & -> & Hu & Hv).
      apply IHa in Hu. exact (lang_seq a b (c :: u) v Hu Hv).
    + exact (lang_seq a b [] (c :: s) Ha Hb).
Qed.

Lemma deriv_lang c r s : lang (deriv c r) s <-> lang r (c :: s).
Proof.
  revert s.
  induction r as [| |p|a IHa b IHb|a IHa b IHb|a IHa]; intros s; simpl.
  - split; inversion 1.
  - split; inversion 1.
  - destruct (p c) eqn:E; split.
    + inversion 1; subst. now constructor.
    + intros H. apply lang_class_inv in H. destruct H as (x & Ex & _).
      injection Ex as -> ->. constructor.
    + inversion 1.
    + intros H. apply lang_class_inv in H. destruct H as (x & Ex & Hx).
      injection Ex as -> ->. congruence.
  - rewrite (deriv_seq_lang c a b s IHa).
    destruct (nullable a) eqn:Na.
    + split.
      * intros H. apply lang_alt_inv in H. destruct H as [H|H]; [now left|].
        right. split; [now apply nullable_lang|now apply IHb].
      * intros [H|[_ H]]; [now apply lang_alt_l|].
        apply lang_alt_r. now apply IHb.
    + split; [now left|]. intros [H|[H _]]; [exact H|].
      apply nullable_lang in H. congruence.
  - split; intros H; apply lang_alt_inv in H; destruct H as [H|H];
      solve [apply lang_alt_l; now apply IHa
            |apply lang_alt_r; now apply IHb].
  - split.
    + intros H. apply lang_seq_inv in H. destruct H as (u & v & -> & Hu & Hv).
      apply IHa in Hu. now constructor.
    + intros H. apply lang_star_inv in H.
      destruct H as [H|(c' & u & v & E & Hu & Hv)]; [discriminate|].
      injection E as <- ->. apply IHa in Hu. now constructor.
Qed.

(** Matching by derivatives decides the words of the expression. *)
Lemma matches_lang r s : matches r s = true <-> lang r s.
Proof.
  revert r. induction s as [|c s IH]; intros r; simpl.
  - apply nullable_lang.
  - rewrite IH. apply deriv_lang.
Qed.

Lemma lang_star_class p s :
  lang (Star (Class p)) s <-> Forall (fun c => p c = true) s.
Proof.
  split.
  - intros H. remember (Star (Class p)) as r eqn:E.
    induction H as [| | | | | |a c u v Hu _ Hv IH]; try discriminate;
      [constructor|].
    injection E as ->. apply lang_class_inv in Hu.
    destruct Hu as (x & Ex & Hx). injection Ex as Ec Eu. subst c u.
    simpl. constructor; auto.
  - induction 1 as [|c s Hc _ IH]; [constructor|].
    exact (lang_star_cons (Class p) c [] s (lang_class p c Hc) IH).
Qed.

Lemma lang_plus_class p s :
  lang (Plus (Class p)) s <-> s <> [] /\ Forall (fun c => p c = true) s.
Proof.
  unfold Plus. split.
  - intros H. apply lang_seq_inv in H. destruct H as (u & v & -> & Hu & Hv).
    apply lang_class_inv in Hu. destruct Hu as (x & -> & Hx).
    apply lang_star_class in Hv.
    split; [discriminate|]. simpl. constructor; auto.
  - intros [Hne H]. destruct H as [|c s Hc Hs]; [congruence|].
    apply (lang_seq (Class p) (Star (Class p)) [c] s).
    + now constructor.
    + now apply lang_star_class.
Qed.

End RegexFacts.

(** [emailRegex] accepts the strings [local@domain.tail] whose three parts
    are not empty and hold neither whitespace nor [@]. *)
Lemma emailRegex_spec (s : jsstring) :
  Regex.matches emailRegex s = true <->
  exists a b c,
    s = a ++ [64%N] ++ b ++ [46%N] ++ c
    /\ a <> [] /\ b <> [] /\ c <> []
    /\ Forall (fun x => isEmailChar x = true) a
    /\ Forall (fun x => isEmailChar x = true) b
    /\ Forall (fun x => isEmailChar x = true) c.
Proof.
  rewrite RegexFacts.matches_lang. unfold emailRegex. split.
  - intros H.
    apply RegexFacts.lang_seq_inv in H. destruct H as (a & r1 & -> & Ha & H).
    apply RegexFacts.lang_seq_inv in H. destruct H as (x & r2 & -> & Hx & H).
    apply RegexFacts.lang_seq_inv in H. destruct H as (b & r3 & -> & Hb & H).
    apply RegexFacts.lang_seq_inv in H. destruct H as (y & c & -> & Hy & Hc).
    apply RegexFacts.lang_class_inv in Hx, Hy.
    destruct Hx as (x' & -> & Hx), Hy as (y' & -> & Hy).
    apply N.eqb_eq in Hx, Hy. subst x' y'.
    apply RegexFacts.lang_plus_class in Ha, Hb, Hc.
    exists a, b, c. intuition.
  - intros (a & b & c & -> & Ha & Hb & Hc & Fa & Fb & Fc).
    apply Regex.lang_seq; [now apply RegexFacts.lang_plus_class|].
    apply (Regex.lang_seq _ _ [64%N]); [now constructor|].
    apply Regex.lang_seq; [now apply RegexFacts.lang_plus_class|].
    apply (Regex.lang_seq _ _ [46%N]); [now constructor|].
    now apply RegexFacts.lang_plus_class.
Qed.

(** ** ObjectIds *)

Lemma hexValue_hexChar d : hexValue (hexChar d) = Some d.
Proof. destruct d; reflexivity. Qed.

Lemma readHex_writeHex n (t : tuple hexDigit n) :
  readHex n (writeHex n t) = Some t.
Proof.
  induction n as [|n IH]; cbn [writeHex readHex].
  - now destruct t.
  - destruct t as [d t]. cbn [fst snd]. now rewrite hexValue_hexChar, IH.
Qed.

(** The string of an ObjectId casts back to it. *)
Lemma castObjectId_toHexString id : castObjectId (toHexString id) = Some id.
Proof.
  unfold castObjectId, toHexString. rewrite readHex_writeHex.
  now destruct id.
Qed.

Lemma toHexString_inj a b : toHexString a = toHexString b -> a = b.
Proof.
  intros H. apply (f_equal castObjectId) in H.
  rewrite !castObjectId_toHexString in H. congruence.
Qed.

Lemma ObjectId_eqb_eq a b : ObjectId_eqb a b = true <-> a = b.
Proof.
  unfold ObjectId_eqb. rewrite eqb_eq. split; [apply toHexString_inj|].
  now intros ->.
Qed.

Lemma ObjectId_eqb_neq a b : ObjectId_eqb a b = false <-> a <> b.
Proof.
  rewrite <- ObjectId_eqb_eq. destruct (ObjectId_eqb a b); split; congruence.
Qed.

Lemma readHex_length n s t : readHex n s = Some t -> List.length s = n.
Proof.
  revert s t. induction n as [|n IH]; intros [|c s] t; cbn [readHex];
    try discriminate; [reflexivity|].
  destruct (hexValue c); [|discriminate].
  destruct (readHex n s) as [t'|] eqn:E; [|discriminate].
  intros _. cbn. f_equal. exact (IH _ _ E).
Qed.

(** Only strings of 24 characters cast. *)
Lemma castObjectId_length s id :
  castObjectId s = Some id -> List.length s = 24%nat.
Proof.
  unfold castObjectId. destruct (readHex 24 s) as [t|] eqn:E;
    [|discriminate].
  intros _. exact (readHex_length _ _ _ E).
Qed.

(** ** Creating bookings *)

Lemma Event_findById_missing st id :
  Event_findById st id = None <->
  (forall e, In e (events st) -> _id e <> id).
Proof.
  unfold Event_findById. split.
  - intros H e Hin. apply ObjectId_eqb_neq. exact (find_none _ _ H e Hin).
  - intros H. destruct (find _ (events st)) as [e|] eqn:F; [|reflexivity].
    apply find_some in F. destruct F as [Hin Hm].
    apply ObjectId_eqb_eq in Hm. exfalso. exact (H e Hin Hm).
Qed.

Lemma Event_findById_present st id :
  (exists e, In e (events st) /\ _id e = id) ->
  exists e, Event_findById st id = Some e.
Proof.
  intros (e & Hin & Hid).
  destruct (Event_findById st id) as [e'|] eqn:F; [eauto|].
  exfalso. exact (proj1 (Event_findById_missing st id) F e Hin Hid).
Qed.

Lemma Event_findById_found st id e :
  Event_findById st id = Some e -> In e (events st) /\ _id e = id.
Proof.
  unfold Event_findById. intros F. apply find_some in F.
  destruct F as [Hin Hm]. apply ObjectId_eqb_eq in Hm. auto.
Qed.

Section BookingFacts.

Variable unicodeLower : jsstring -> jsstring.

(** The email validators pass exactly when the email is there and matches
    the pattern once lowercased and trimmed. *)
Lemma validEmail_spec (v : option jsstring) :
  validEmail (setTrimLowercase unicodeLower v) = true <->
  exists addr,
    v = Some addr
    /\ Regex.matches emailRegex (trim (toLowerCase unicodeLower addr)) = true.
Proof.
  destruct v as [addr|]; cbn [setTrimLowercase option_map validEmail].
  - split.
    + intros H. apply andb_true_iff in H. exists addr. tauto.
    + intros (a & E & H). injection E as <-. rewrite H, andb_true_r.
      destruct (trim (toLowerCase unicodeLower addr)); [discriminate|].
      reflexivity.
  - split; [discriminate|]. intros (a & E & _). discriminate.
Qed.

Lemma validEmail_false (v : option jsstring) :
  validEmail (setTrimLowercase unicodeLower v) = false <->
  forall addr,
    v = Some addr ->
    Regex.matches emailRegex (trim (toLowerCase unicodeLower addr)) = false.
Proof.
  pose proof (validEmail_spec v) as S.
  destruct (validEmail (setTrimLowercase unicodeLower v)).
  - split; [discriminate|]. intros H.
    destruct (proj1 S eq_refl) as (a & E & M). rewrite (H a E) in M.
    discriminate.
  - split; [|reflexivity]. intros _ addr E.
    destruct (Regex.matches emailRegex (trim (toLowerCase unicodeLower addr)))
      eqn:M; [|reflexivity].
    assert (C : false = true) by (apply S; eauto). discriminate.
Qed.


Lemma castEventId_false (v : option jsstring) :
  isSome (bind_id v castObjectId) = false <->
  forall s, v = Some s -> castObjectId s = None.
Proof.
  destruct v as [s|]; cbn [bind_id].
  - destruct (castObjectId s) as [eid|] eqn:C; cbn [isSome]; split.
    + discriminate.
    + intros H. specialize (H s eq_refl). congruence.
    + intros _ s' E. congruence.
    + reflexivity.
  - cbn [isSome]. split; [|reflexivity]. intros _ s E. discriminate.
Qed.

Lemma validateBooking_cases input :
  (validateBooking unicodeLower input = inl tt
   /\ isSome (eventId (castBooking unicodeLower input)) = true
   /\ validEmail (email (castBooking unicodeLower input)) = true)
  \/ (exists first rest,
        validateBooking unicodeLower input
        = inr (ValidationError (first :: rest))
        /\ forall p,
             In p (first :: rest) <->
             In (p, false)
               (bookingValidators (castBooking unicodeLower input))).
Proof.
  assert (Hall : forall p,
             In p (map fst (bookingValidators
                              (castBooking unicodeLower input))) ->
             In p (validationOrder (bookingStates input)))
    by (intros p H; apply validationOrder_In; exact H).
  unfold validateBooking.
  destruct (filter _ (validationOrder (bookingStates input)))
    as [|p ps] eqn:E.
  - left. apply (failing_nil _ _ Hall) in E. cbn [bookingValidators forallb snd]
      in E. rewrite andb_true_r in E. apply andb_true_iff in E. tauto.
  - right. exists p, ps. split; [reflexivity|]. intros q.
    rewrite <- E, failing_In. split; [tauto|]. intros H. split; [|exact H].
    apply Hall, in_map_iff. now exists (q, false).
Qed.

(** A booking that passes validation is stored exactly when its event is
    found. *)
Lemma Booking_create_valid st id now input :
  validateBooking unicodeLower input = inl tt ->
  Booking_create unicodeLower st id now input =
  match bind_id (eventId (castBooking unicodeLower input))
          (Event_findById st) with
  | Some _ =>
      let b := mkIBooking id (castBooking unicodeLower input) now now in
      (inl b, mkStore (events st) (bookings st ++ [b]))
  | None =>
      (inr (PlainError
              (eventMissingMessage
                 (eventId (castBooking unicodeLower input)))), st)
  end.
Proof.
  intros Hv. unfold Booking_create. rewrite Hv. unfold bookingPreSave.
  destruct (bind_id (eventId (castBooking unicodeLower input))
              (Event_findById st)); reflexivity.
Qed.

(** A booking that fails validation is not stored. *)
Lemma Booking_create_invalid st id now input err :
  validateBooking unicodeLower input = inr err ->
  Booking_create unicodeLower st id now input = (inr err, st).
Proof. unfold Booking_create. now intros ->. Qed.

(** A booking with an [eventId] that casts and an email that matches passes
    validation. *)
Lemma validateBooking_passes input s eid addr :
  eventId input = Some s -> castObjectId s = Some eid ->
  email input = Some addr ->
  Regex.matches emailRegex (trim (toLowerCase unicodeLower addr)) = true ->
  validateBooking unicodeLower input = inl tt
  /\ castBooking unicodeLower input
     = {| eventId := Some eid;
          email := Some (trim (toLowerCase unicodeLower addr)) |}.
Proof.
  intros Hs Hc Ha Hm.
  assert (Hd : castBooking unicodeLower input
               = {| eventId := Some eid;
                    email := Some (trim (toLowerCase unicodeLower addr)) |}).
  { unfold castBooking. rewrite Hs, Ha. cbn [bind_id]. now rewrite Hc. }
  split; [|exact Hd].
  destruct (validateBooking_cases input)
    as [(Hv & _)|(f & r & _ & Hf)]; [exact Hv|].
  exfalso. specialize (proj1 (Hf f) (or_introl eq_refl)) as Hin.
  rewrite Hd in Hin. cbn [bookingValidators In eventId email isSome] in Hin.
  destruct Hin as [E|[E|[]]]; [discriminate|].
  assert (V : validEmail (setTrimLowercase unicodeLower (Some addr)) = true)
    by (apply validEmail_spec; eauto).
  cbn [setTrimLowercase option_map] in V. congruence.
Qed.

(** Such a booking is stored when its event is, with the cast identifier
    and the normalized email; otherwise the hook refuses it. *)
Lemma Booking_create_passes st id now input s eid addr :
  eventId input = Some s -> castObjectId s = Some eid ->
  email input = Some addr ->
  Regex.matches emailRegex (trim (toLowerCase unicodeLower addr)) = true ->
  Booking_create unicodeLower st id now input =
  match Event_findById st eid with
  | Some _ =>
      let b := mkIBooking id
                 {| eventId := Some eid;
                    email := Some (trim (toLowerCase unicodeLower addr)) |}
                 now now in
      (inl b, mkStore (events st) (bookings st ++ [b]))
  | None =>
      (inr (PlainError
              (lit "Event with ID " ++ toHexString eid
               ++ lit " does not exist")), st)
  end.
Proof.
  intros Hs Hc Ha Hm.
  destruct (validateBooking_passes input s eid addr Hs Hc Ha Hm) as [Hv Hd].
  rewrite (Booking_create_valid st id now input Hv), Hd.
  cbn [eventId bind_id]. destruct (Event_findById st eid); reflexivity.
Qed.


(** C6. A booking whose email is missing or, lowercased and trimmed, does
    not match the email pattern fails with a ValidationError that names the
    [email] path, and is not stored.  A booking for a stored event whose
    email matches the pattern once lowercased and trimmed is stored, with
    the email lowercased and trimmed; no booking is stored with anything
    else.  So a booking for "USER@Example.com" is stored with the email
    "user@example.com", and so is one for " USER@Example.com ". *)
Theorem Booking_email_normalized :
  forall st id now input,
    ((forall addr,
         email input = Some addr ->
         Regex.matches emailRegex (trim (toLowerCase unicodeLower addr))
         = false) ->
     exists paths,
       Booking_create unicodeLower st id now input
       = (inr (ValidationError paths), st)
       /\ In "email"%string paths)
    /\ (forall s e addr,
           In e (events st) ->
           eventId input = Some s -> castObjectId s = Some (_id e) ->
           email input = Some addr ->
           Regex.matches emailRegex (trim (toLowerCase unicodeLower addr))
           = true ->
           exists b,
             Booking_create unicodeLower st id now input
             = (inl b, mkStore (events st) (bookings st ++ [b]))
             /\ email (booking b)
                = Some (trim (toLowerCase unicodeLower addr)))
    /\ (forall b st',
           Booking_create unicodeLower st id now input = (inl b, st') ->
           exists raw,
             email input = Some raw
             /\ email (booking b) = Some (trim (toLowerCase unicodeLower raw))
             /\ Regex.matches emailRegex (trim (toLowerCase unicodeLower raw))
                = true
             /\ st' = mkStore (events st) (bookings st ++ [b]))
    /\ (forall e padded,
           In e (events st) ->
           padded = lit "USER@Example.com"
           \/ padded = lit " USER@Example.com " ->
           exists b,
             Booking_create unicodeLower st id now
               {| eventId := Some (toHexString (_id e));
                  email := Some padded |}
             = (inl b, mkStore (events st) (bookings st ++ [b]))
             /\ email (booking b) = Some (lit "user@example.com")).
Proof.
  assert (Hstored : forall st id now input s e addr,
             In e (events st) ->
             eventId input = Some s -> castObjectId s = Some (_id e) ->
             email input = Some addr ->
             Regex.matches emailRegex (trim (toLowerCase unicodeLower addr))
             = true ->
             exists b,
               Booking_create unicodeLower st id now input
               = (inl b, mkStore (events st) (bookings st ++ [b]))
               /\ email (booking b)
                  = Some (trim (toLowerCase unicodeLower addr))).
  { intros st id now input s e addr Hin Hs Hc Ha Hm.
    rewrite (Booking_create_passes st id now input s (_id e) addr Hs Hc
               Ha Hm).
    destruct (Event_findById_present st (_id e)) as [e' He'];
      [now exists e|].
    rewrite He'. eexists. split; reflexivity. }
  intros st id now input. split; [|split; [|split]].
  - intros Hbad. apply validEmail_false in Hbad.
    destruct (validateBooking_cases input)
      as [(_ & _ & Hok)|(f & r & Hv & Hf)].
    + cbn [castBooking email] in Hok. congruence.
    + exists (f :: r). split; [now apply Booking_create_invalid|].
      apply Hf. cbn [bookingValidators castBooking email In].
      right. left. now rewrite Hbad.
  - apply Hstored.
  - intros b st' Hc.
    destruct (validateBooking_cases input)
      as [(Hv & _ & Hok)|(f & r & Hv & _)].
    + rewrite (Booking_create_valid st id now input Hv) in Hc.
      destruct (bind_id _ _); [|discriminate].
      cbv zeta in Hc. injection Hc as <- <-.
      cbn [castBooking email booking] in *.
      apply validEmail_spec in Hok. destruct Hok as (raw & Hr & Hm).
      exists raw. rewrite Hr. cbn [setTrimLowercase option_map]. auto.
    + rewrite (Booking_create_invalid st id now input _ Hv) in Hc.
      discriminate.
  - intros e padded Hin Hp.
    destruct (Hstored st id now
                {| eventId := Some (toHexString (_id e));
                   email := Some padded |} _ e padded Hin eq_refl
                (castObjectId_toHexString _) eq_refl)
      as (b & Hb & He).
    + destruct Hp as [-> | ->]; reflexivity.
    + exists b. split; [exact Hb|]. rewrite He.
      destruct Hp as [-> | ->]; reflexivity.
Qed.

End BookingFacts.

(** ** The theorems at concrete inputs *)


Lemma same_slug_second_create_fails_witness :
  exists e1,
    Event_create asciiHost isoOnlyHost emptyStore
      (oid "65f0c1c4e1b2a3d4c5f60718") 1000
      (sampleEvent "React Conf 2024!") = (inl e1, mkStore [e1] [])
    /\ slug (fields e1) = Some (lit "react-conf-2024")
    /\ Event_create asciiHost isoOnlyHost (mkStore [e1] [])
      (oid "65f0c2c4e1b2a3d4c5f60718")
         2000 (sampleEvent " react_conf  2024 ")
       = (inr (DuplicateKeyError "slug"), mkStore [e1] []).
Proof.
  exact (same_slug_second_create_fails asciiHost isoOnlyHost emptyStore
           (oid "65f0c1c4e1b2a3d4c5f60718") 1000 (sampleEvent "React Conf 2024!")
           (oid "65f0c2c4e1b2a3d4c5f60718") 2000 (sampleEvent " react_conf  2024 ")
           (lit "React Conf 2024!") (lit " react_conf  2024 ")
           eq_refl eq_refl eq_refl eq_refl eq_refl eq_refl).
Defined.

Lemma GET_event_by_slug_witness :
  exists e',
    GET_event asciiHost sampleEnv storeWithReactConf
      (Some (lit "REACT-CONF-2024 "))
    = mkResponse 200 (MessageEvent (lit "Event fetched successfully") e')
    /\ title (fields e') = Some (lit "React Conf 2024!").
Proof.
  destruct (proj1 (proj1 (GET_event_by_slug asciiHost sampleEnv
                            storeWithReactConf (lit "REACT-CONF-2024 ")
                            eq_refl)
                     ltac:(discriminate))
              (hd blankEvent (events storeWithReactConf))
              (or_introl eq_refl) eq_refl)
    as (e' & Hr & _ & _ & Hu).
  exists e'. split; [exact Hr|].
  rewrite Hu; [reflexivity|].
  repeat constructor. intros [].
Defined.

Lemma Booking_email_normalized_witness :
  (exists paths,
      Booking_create asciiHost storeWithReactConf
        (oid "75a002c4e1b2a3d4c5f60718") 5000
        (sampleBooking "65f0a2c4e1b2a3d4c5f60718" "user at example.com")
      = (inr (ValidationError paths), storeWithReactConf)
      /\ In "email"%string paths)
  /\ (exists b,
         Booking_create asciiHost storeWithReactConf
           (oid "75a002c4e1b2a3d4c5f60718") 5000
           (sampleBooking "65f0a2c4e1b2a3d4c5f60718" " USER@Example.com ")
         = (inl b, mkStore (events storeWithReactConf)
                     (bookings storeWithReactConf ++ [b]))
         /\ email (booking b) = Some (lit "user@example.com")).
Proof.
  split.
  - apply (proj1 (Booking_email_normalized asciiHost storeWithReactConf
                    (oid "75a002c4e1b2a3d4c5f60718") 5000
                    (sampleBooking "65f0a2c4e1b2a3d4c5f60718"
                       "user at example.com"))).
    intros addr E. injection E as <-. reflexivity.
  - exact (proj2 (proj2 (proj2 (Booking_email_normalized asciiHost
                                  storeWithReactConf
                                  (oid "75a002c4e1b2a3d4c5f60718") 5000
                                  (sampleBooking "65f0a2c4e1b2a3d4c5f60718"
                                     " USER@Example.com "))))
             (hd blankEvent (events storeWithReactConf))
             (lit " USER@Example.com ")
             (or_introl eq_refl) (or_intror eq_refl)).
Defined.


(** The order of the paths in a validation error: with no title and no
    description the error lists [description] before [title]. *)
Example Event_create_lists_unset_paths_first :
  fst (Event_create asciiHost isoOnlyHost storeWithReactConf
         (oid "65f0d2c4e1b2a3d4c5f60718") 4000
         {| title := None;
            slug := None;
            description := None;
            overview := Some (lit "Talks");
            image := Some (lit "/images/event5.png");
            venue := Some (lit "Convention center");
            location := Some (lit "Pittsburgh, PA");
            date := Some (lit "2024-05-15");
            time := Some (lit "8:30 AM");
            mode := Some (lit "offline");
            audience := Some (lit "Developers");
            agenda := Some [lit "Keynote"];
            organizer := Some (lit "PSF");
            tags := Some [lit "python"] |})
  = inr (ValidationError ["description"; "title"]%string).
Proof. reflexivity. Qed.

Lemma empty_slug_collision_witness :
  exists e1,
    Event_create asciiHost isoOnlyHost emptyStore
      (oid "65f0a1c4e1b2a3d4c5f60718") 1000 (sampleEvent "!!!")
    = (inl e1, mkStore [e1] [])
    /\ slug (fields e1) = Some []
    /\ Event_create asciiHost isoOnlyHost (mkStore [e1] [])
         (oid "65f0a4c4e1b2a3d4c5f60718") 2000 (sampleEvent "???")
       = (inr (DuplicateKeyError "slug"), mkStore [e1] []).
Proof.
  exact (proj2 (proj2 (empty_slug_collision asciiHost isoOnlyHost))
           emptyStore (oid "65f0a1c4e1b2a3d4c5f60718") 1000%Z
           (sampleEvent "!!!") (oid "65f0a4c4e1b2a3d4c5f60718") 2000%Z
           (sampleEvent "???") (lit "!!!") (lit "???")
           eq_refl eq_refl eq_refl eq_refl eq_refl eq_refl eq_refl).
Defined.

Lemma eventPreSave_spec_witness :
  exists d',
    eventPreSave asciiHost isoOnlyHost (fun p => String.eqb p "title")
      {| title := Some (lit "React Summit");
         slug := Some (lit "react-conf-2024");
         description := Some (lit "A conference");
         overview := Some (lit "Talks");
         image := Some (lit "/images/event1.png");
         venue := Some (lit "Main hall");
         location := Some (lit "Las Vegas, NV");
         date := Some (lit "October 15-16, 2024");
         time := Some (lit "9:00 AM - 6:00 PM");
         mode := Some (lit "offline");
         audience := Some (lit "Developers");
         agenda := Some [lit "Keynote"];
         organizer := Some (lit "The organizers");
         tags := Some [lit "react"] |}
    = inl d'
    /\ slug d' = Some (lit "react-summit")
    /\ date d' = Some (lit "October 15-16, 2024")
    /\ time d' = Some (lit "9:00 AM - 6:00 PM").
Proof.
  eexists. split.
  - apply (eventPreSave_spec asciiHost isoOnlyHost
             (fun p => String.eqb p "title") _
             (lit "React Summit") (lit "October 15-16, 2024")
             (lit "9:00 AM - 6:00 PM")); reflexivity.
  - repeat split; reflexivity.
Defined.

Lemma GET_events_newest_first_witness :
  exists e1 e2 e3,
    GET_events sampleEnv storeWithThree
    = mkResponse 200
        (MessageEvents (lit "Event fetched successfully.") [e3; e2; e1])
    /\ (createdAt e1, createdAt e2, createdAt e3) = (1000, 2000, 3000)%Z.
Proof.
  do 3 eexists. split.
  - eapply (proj2 (GET_events_newest_first asciiHost isoOnlyHost sampleEnv
                     eq_refl)
              emptyStore
              (oid "65f0b1c4e1b2a3d4c5f60718") 1000%Z (sampleEvent "React Conf 2024") _ _
              (oid "65f0b2c4e1b2a3d4c5f60718") 2000%Z (sampleEvent "Google I/O 2024") _ _
              (oid "65f0b3c4e1b2a3d4c5f60718") 3000%Z (sampleEvent "AWS re:Invent 2024")).
    + reflexivity.
    + reflexivity.
    + reflexivity.
    + intros o [].
    + lia.
  - reflexivity.
Defined.

(** * Further properties *)

(** ** The shape of a slug *)

Lemma noHyphenPair_tail c s : noHyphenPair (c :: s) = true -> noHyphenPair s = true.
Proof.
  destruct s as [|b s]; [reflexivity|]. cbn [noHyphenPair].
  intros H. apply andb_true_iff in H. tauto.
Qed.

Lemma noHyphenPair_cons c s :
  noHyphenPair (c :: s) = negb (isHyphen c && startsWithHyphen s) && noHyphenPair s.
Proof. destruct s as [|b s]; cbn; [now destruct (isHyphen c)|reflexivity]. Qed.

Lemma collapseRuns_starts c s :
  startsWithHyphen (SlugSpec.collapseRuns (c :: s)) = SlugSpec.isSeparator c.
Proof.
  rewrite collapseRuns_cons.
  destruct (SlugSpec.isSeparator c) eqn:Hc.
  - destruct (SlugSpec.collapseRuns s) as [|h t]; [reflexivity|].
    destruct (isHyphen h) eqn:Hh; [exact Hh|reflexivity].
  - cbn. destruct (isHyphen c) eqn:Hh; [|reflexivity].
    apply isSeparator_hyphen in Hh. congruence.
Qed.

Lemma collapseRuns_noHyphenPair s : noHyphenPair (SlugSpec.collapseRuns s) = true.
Proof.
  induction s as [|c s IH]; [reflexivity|].
  rewrite collapseRuns_cons.
  destruct (SlugSpec.isSeparator c) eqn:Hc.
  - destruct (SlugSpec.collapseRuns s) as [|h t] eqn:E; [reflexivity|].
    destruct (isHyphen h) eqn:Hh; [exact IH|].
    rewrite noHyphenPair_cons, IH. cbn [startsWithHyphen]. rewrite Hh.
    now destruct (isHyphen hyphen).
  - rewrite noHyphenPair_cons, IH.
    destruct (isHyphen c) eqn:Hh; [|reflexivity].
    apply isSeparator_hyphen in Hh. congruence.
Qed.

Lemma noHyphenPair_dropWhile p s :
  noHyphenPair s = true -> noHyphenPair (dropWhile p s) = true.
Proof.
  induction s as [|c s IH]; [reflexivity|]. intros H. cbn [dropWhile].
  destruct (p c); [|exact H]. apply IH. eapply noHyphenPair_tail; eauto.
Qed.

Lemma startsWithHyphen_dropWhileEnd p s :
  startsWithHyphen (dropWhileEnd p s) = true -> startsWithHyphen s = true.
Proof.
  destruct s as [|c s]; [discriminate|]. rewrite dropWhileEnd_cons.
  destruct (p c && forallb p s); [discriminate|]. auto.
Qed.

Lemma noHyphenPair_dropWhileEnd p s :
  noHyphenPair s = true -> noHyphenPair (dropWhileEnd p s) = true.
Proof.
  induction s as [|c s IH]; [reflexivity|]. intros H.
  rewrite dropWhileEnd_cons. destruct (p c && forallb p s); [reflexivity|].
  rewrite noHyphenPair_cons in *. apply andb_true_iff in H. destruct H as [H1 H2].
  rewrite (IH H2), andb_true_r.
  destruct (isHyphen c); [|reflexivity]. cbn in *.
  destruct (startsWithHyphen (dropWhileEnd p s)) eqn:E; [|reflexivity].
  apply startsWithHyphen_dropWhileEnd in E. now rewrite E in H1.
Qed.

Lemma dropWhile_starts s :
  startsWithHyphen (dropWhile isHyphen s) = false.
Proof.
  destruct (dropWhile isHyphen s) as [|c r] eqn:E; [reflexivity|].
  exact (dropWhile_head isHyphen c s r E).
Qed.

Lemma stripHyphens_edges s :
  startsWithHyphen (SlugSpec.stripHyphens s) = false
  /\ startsWithHyphen (rev (SlugSpec.stripHyphens s)) = false.
Proof.
  unfold SlugSpec.stripHyphens. split.
  - destruct (startsWithHyphen (dropWhileEnd isHyphen (dropWhile isHyphen s)))
      eqn:E; [|reflexivity].
    apply startsWithHyphen_dropWhileEnd in E. now rewrite dropWhile_starts in E.
  - unfold dropWhileEnd. rewrite rev_involutive. apply dropWhile_starts.
Qed.

Lemma Forall_forallb (p : char -> bool) s :
  Forall (fun c => p c = true) s <-> forallb p s = true.
Proof. rewrite forallb_forall, Forall_forall. tauto. Qed.

Section SlugShape.

Variable unicodeLower : jsstring -> jsstring.

Lemma generateSlug_shape text : isSlug (generateSlug unicodeLower text) = true.
Proof.
  unfold isSlug.
  rewrite (proj1 (Forall_forallb isSlugChar _)
             (generateSlug_chars unicodeLower text)).
  unfold generateSlug, replaceRuns.
  rewrite stripEdgeHyphens_spec, (proj1 (replaceRunsFrom_collapse _)).
  destruct (stripHyphens_edges
              (SlugSpec.collapseRuns
                 (replaceEach
                    (fun c => negb (isWord c || isSpace c || isHyphen c)) []
                    (trim (toLowerCase unicodeLower text))))) as [H1 H2].
  rewrite H1, H2. cbn [negb andb]. rewrite !andb_true_r.
  unfold SlugSpec.stripHyphens.
  apply noHyphenPair_dropWhileEnd, noHyphenPair_dropWhile,
    collapseRuns_noHyphenPair.
Qed.

Lemma isSlugChar_kept c :
  isSlugChar c = true ->
  isWord c || isSpace c || isHyphen c = true
  /\ SlugSpec.isSeparator c = isHyphen c.
Proof.
  intros H. destruct (isSlugChar_facts c H) as (_ & _ & Hs).
  unfold SlugSpec.isSeparator, isWord. rewrite Hs.
  unfold isSlugChar in H.
  assert (Hu : (c =? underscore)%N = false).
  { unfold isLower, isDigit, isHyphen, hyphen, underscore, inRange in *.
    apply N.eqb_neq. intros ->. discriminate. }
  rewrite Hu. cbn [orb]. split; [|reflexivity].
  destruct (isHyphen c); [now rewrite !orb_true_r|].
  rewrite !orb_false_r in *. destruct (isUpper c); [reflexivity|exact H].
Qed.

Lemma collapseRuns_slug s :
  Forall (fun c => isSlugChar c = true) s ->
  noHyphenPair s = true ->
  SlugSpec.collapseRuns s = s.
Proof.
  induction 1 as [|c s Hc Hs IH]; [reflexivity|]. intros Hp.
  rewrite noHyphenPair_cons in Hp. apply andb_true_iff in Hp.
  destruct Hp as [Hp1 Hp2].
  rewrite collapseRuns_cons, (IH Hp2), (proj2 (isSlugChar_kept c Hc)).
  destruct (isHyphen c) eqn:Hh; [|reflexivity].
  apply N.eqb_eq in Hh. subst c.
  destruct s as [|h t]; [reflexivity|]. cbn in Hp1.
  destruct (isHyphen h); [discriminate|reflexivity].
Qed.

Lemma stripHyphens_fixed s :
  startsWithHyphen s = false -> startsWithHyphen (rev s) = false ->
  SlugSpec.stripHyphens s = s.
Proof.
  intros H1 H2. unfold SlugSpec.stripHyphens, dropWhileEnd.
  rewrite (dropWhile_fixed isHyphen s) by (destruct s; [exact I|exact H1]).
  rewrite (dropWhile_fixed isHyphen (rev s))
    by (destruct (rev s); [exact I|exact H2]).
  apply rev_involutive.
Qed.

(** A string of the shape of a slug is its own slug. *)
Lemma generateSlug_fixed s : isSlug s = true -> generateSlug unicodeLower s = s.
Proof.
  unfold isSlug. rewrite !andb_true_iff, !negb_true_iff.
  intros [[[Hc Hp] H1] H2]. apply Forall_forallb in Hc.
  unfold generateSlug, replaceRuns.
  rewrite stripEdgeHyphens_spec, (proj1 (replaceRunsFrom_collapse _)).
  rewrite (replaceEach_filter (fun c => isWord c || isSpace c || isHyphen c)).
  rewrite toLowerCase_slug_chars by exact Hc.
  rewrite trim_no_space
    by (eapply Forall_impl; [|exact Hc]; intros c H; now apply isSlugChar_facts).
  replace (filter (fun c => isWord c || isSpace c || isHyphen c) s) with s.
  - rewrite collapseRuns_slug by assumption. now apply stripHyphens_fixed.
  - symmetry. apply forallb_filter_id. apply forallb_forall. intros c Hin.
    rewrite Forall_forall in Hc. now apply isSlugChar_kept, Hc.
Qed.

(** X1. Every generated slug is made of lowercase ASCII letters, digits and
    hyphens, has no two hyphens in a row and neither starts nor ends with a
    hyphen. *)
Theorem generateSlug_isSlug :
  forall text, isSlug (generateSlug unicodeLower text) = true.
Proof. exact generateSlug_shape. Qed.

(** X2. The slugs are exactly the strings [generateSlug] leaves as they
    are, so generating the slug of a slug changes nothing. *)
Theorem generateSlug_idempotent :
  (forall s, generateSlug unicodeLower s = s <-> isSlug s = true)
  /\ (forall text,
         generateSlug unicodeLower (generateSlug unicodeLower text)
         = generateSlug unicodeLower text).
Proof.
  split.
  - intros s. split.
    + intros <-. apply generateSlug_shape.
    + apply generateSlug_fixed.
  - intros text. apply generateSlug_fixed, generateSlug_shape.
Qed.

End SlugShape.

(** ** When a slug is empty *)

Lemma dropWhile_nil_iff p (s : jsstring) :
  dropWhile p s = [] <-> forallb p s = true.
Proof.
  split; [|apply dropWhile_all].
  induction s as [|c s IH]; [reflexivity|]. cbn.
  destruct (p c); [exact IH|discriminate].
Qed.

Lemma stripHyphens_nil_iff (s : jsstring) :
  SlugSpec.stripHyphens s = [] <-> forallb isHyphen s = true.
Proof.
  unfold SlugSpec.stripHyphens, dropWhileEnd.
  rewrite <- dropWhile_nil_iff. split.
  - intros H. apply (f_equal (@rev char)) in H.
    rewrite rev_involutive in H. cbn in H.
    apply dropWhile_nil_iff in H. rewrite forallb_rev in H.
    destruct (dropWhile isHyphen s) as [|c r] eqn:E; [reflexivity|].
    pose proof (dropWhile_head isHyphen c s r E) as Hc.
    cbn in H. now rewrite Hc in H.
  - now intros ->.
Qed.

Lemma collapseRuns_all_hyphens (s : jsstring) :
  forallb isHyphen (SlugSpec.collapseRuns s) = forallb SlugSpec.isSeparator s.
Proof.
  induction s as [|c s IH]; [reflexivity|].
  rewrite collapseRuns_cons. cbn [forallb].
  destruct (SlugSpec.isSeparator c) eqn:Hc; cbn [andb].
  - destruct (SlugSpec.collapseRuns s) as [|h t] eqn:E; [now rewrite <- IH|].
    destruct (isHyphen h) eqn:Hh; [exact IH|].
    rewrite <- IH. reflexivity.
  - cbn [forallb]. destruct (isHyphen c) eqn:Hh; [|reflexivity].
    apply isSeparator_hyphen in Hh. congruence.
Qed.

Lemma forallb_filter_keep (p q : char -> bool) (s : jsstring) :
  forallb p (filter q s) = forallb (fun c => negb (q c) || p c) s.
Proof.
  induction s as [|c s IH]; [reflexivity|]. cbn.
  destruct (q c); cbn; now rewrite IH.
Qed.

Lemma forallb_dropWhile_spaces (q : char -> bool) (s : jsstring) :
  (forall c, isSpace c = true -> q c = true) ->
  forallb q (dropWhile isSpace s) = forallb q s.
Proof.
  intros H. induction s as [|c s IH]; [reflexivity|]. cbn.
  destruct (isSpace c) eqn:E; [|reflexivity].
  now rewrite IH, (H c E).
Qed.

Lemma forallb_trim (q : char -> bool) (s : jsstring) :
  (forall c, isSpace c = true -> q c = true) ->
  forallb q (trim s) = forallb q s.
Proof.
  intros H. unfold trim, dropWhileEnd.
  rewrite forallb_rev, forallb_dropWhile_spaces, forallb_rev by exact H.
  now apply forallb_dropWhile_spaces.
Qed.

Lemma forallb_agree (p q : char -> bool) (s : jsstring) :
  Forall (fun c => p c = q c) s -> forallb p s = forallb q s.
Proof. induction 1 as [|c s Hc _ IH]; cbn; [reflexivity|now rewrite Hc, IH]. Qed.

Lemma forallb_map_char (p : char -> bool) (f : char -> char) (s : jsstring) :
  forallb p (map f s) = forallb (fun c => p (f c)) s.
Proof. induction s as [|c s IH]; cbn; [reflexivity|now rewrite IH]. Qed.

Lemma isSlugLetter_kept c :
  isSlugLetter c = true ->
  isWord c || isSpace c || isHyphen c = true
  /\ SlugSpec.isSeparator c = false.
Proof.
  intros H.
  assert (Hs : isSlugChar c = true)
    by (unfold isSlugChar; unfold isSlugLetter in H; now rewrite H).
  destruct (isSlugChar_kept c Hs) as [Hk Hsep]. split; [exact Hk|].
  rewrite Hsep. unfold isSlugLetter, isLower, isDigit, isHyphen, hyphen, inRange in *.
  apply N.eqb_neq. intros ->. discriminate.
Qed.

Lemma other_char_dropped_or_separator c :
  isUpper c = false -> isSlugLetter c = false ->
  negb (isWord c || isSpace c || isHyphen c) || SlugSpec.isSeparator c = true.
Proof.
  unfold isSlugLetter, isWord, SlugSpec.isSeparator. intros Hu Hl.
  apply orb_false_iff in Hl. destruct Hl as [Hl Hd]. rewrite Hu, Hl, Hd.
  cbn [orb].
  destruct (isSpace c), ((c =? underscore)%N), (isHyphen c); reflexivity.
Qed.

Lemma isSpace_not_letter c : isSpace c = true -> isSlugLetter c = false.
Proof.
  intros H. destruct (isSlugLetter c) eqn:E; [|reflexivity].
  assert (Hs : isSlugChar c = true)
    by (unfold isSlugChar; unfold isSlugLetter in E; now rewrite E).
  destruct (isSlugChar_facts c Hs) as (_ & _ & Hn). congruence.
Qed.

Lemma isSlugLetter_asciiLower c :
  isSlugLetter (asciiLower c) = isUpper c || isLower c || isDigit c.
Proof.
  unfold isSlugLetter, asciiLower, isUpper, isLower, isDigit, inRange.
  destruct ((65 <=? c)%N && (c <=? 90)%N) eqn:E.
  - apply andb_true_iff in E. rewrite !N.leb_le in E. cbn [orb].
    apply orb_true_iff. left. apply andb_true_iff.
    rewrite !N.leb_le. lia.
  - reflexivity.
Qed.

Section EmptySlug.

Variable unicodeLower : jsstring -> jsstring.

(** X3. The slug of a title is empty exactly when the lowercased title holds
    no ASCII letter and no digit; for a title of ASCII characters, exactly
    when the title holds none. *)
Theorem generateSlug_empty_iff :
  (forall text,
      generateSlug unicodeLower text = [] <->
      forallb (fun c => negb (isSlugLetter c)) (toLowerCase unicodeLower text)
      = true)
  /\ (forall text,
         forallb isAscii text = true ->
         (generateSlug unicodeLower text = [] <->
          forallb (fun c => negb (isUpper c || isLower c || isDigit c)) text
          = true)).
Proof.
  assert (Hmain : forall text,
      generateSlug unicodeLower text = [] <->
      forallb (fun c => negb (isSlugLetter c)) (toLowerCase unicodeLower text)
      = true).
  { intros text. unfold generateSlug, replaceRuns.
    rewrite stripEdgeHyphens_spec, (proj1 (replaceRunsFrom_collapse _)).
    rewrite stripHyphens_nil_iff, collapseRuns_all_hyphens.
    rewrite (replaceEach_filter (fun c => isWord c || isSpace c || isHyphen c)).
    rewrite forallb_filter_keep.
    rewrite <- (forallb_trim (fun c => negb (isSlugLetter c)))
      by (intros c Hc; now rewrite (isSpace_not_letter c Hc)).
    erewrite forallb_agree; [reflexivity|].
    pose proof (Forall_trim (fun c => isUpper c = false) _
                  (toLowerCase_no_upper unicodeLower text)) as Hu.
    eapply Forall_impl; [|exact Hu]. intros c Hc. cbv beta.
    destruct (isSlugLetter c) eqn:E.
    - destruct (isSlugLetter_kept c E) as [Hk Hs]. now rewrite Hk, Hs.
    - now rewrite other_char_dropped_or_separator. }
  split; [exact Hmain|].
  intros text Ha. rewrite Hmain. unfold toLowerCase. rewrite Ha.
  rewrite forallb_map_char.
  erewrite forallb_agree; [reflexivity|].
  apply Forall_forall. intros c _. now rewrite isSlugLetter_asciiLower.
Qed.

End EmptySlug.

(** ** Dates that parse *)

Lemma TimeClip_range t t' :
  JSDate.TimeClip t = Some t' -> t' = t /\ (Z.abs t <= 8640000000000000)%Z.
Proof.
  unfold JSDate.TimeClip.
  destruct (Z.abs t <=? 8640000000000000)%Z eqn:E; [|discriminate].
  intros H. injection H as <-. split; [reflexivity|now apply Z.leb_le].
Qed.

Lemma parse_range hostParse s t :
  JSDate.parse hostParse s = Some t -> (Z.abs t <= 8640000000000000)%Z.
Proof.
  unfold JSDate.parse.
  destruct (JSDate.isoParse s) as [t0|].
  - intros H. apply TimeClip_range in H. destruct H as [-> H]. exact H.
  - destruct (hostParse s) as [t0|]; [|discriminate]. cbn.
    intros H. apply TimeClip_range in H. destruct H as [-> H]. exact H.
Qed.

(** The date part of the ISO string is the same all day long. *)
Lemma isoDate_same_day t1 t2 :
  JSDate.Day t1 = JSDate.Day t2 -> JSDate.isoDate t1 = JSDate.isoDate t2.
Proof.
  intros H.
  assert (Hy : JSDate.YearFromTime t1 = JSDate.YearFromTime t2)
    by (unfold JSDate.YearFromTime; now rewrite H).
  assert (Hd : JSDate.DayWithinYear t1 = JSDate.DayWithinYear t2)
    by (unfold JSDate.DayWithinYear; now rewrite H, Hy).
  assert (Hl : JSDate.InLeapYear t1 = JSDate.InLeapYear t2)
    by (unfold JSDate.InLeapYear; now rewrite Hy).
  assert (Hm : JSDate.MonthFromTime t1 = JSDate.MonthFromTime t2)
    by (unfold JSDate.MonthFromTime; now rewrite Hd, Hl).
  unfold JSDate.isoDate, JSDate.DateFromTime. now rewrite Hy, Hm, Hd, Hl.
Qed.

Lemma parse_isoDate hostParse t :
  (Z.abs t <= 8640000000000000)%Z ->
  JSDate.parse hostParse (JSDate.isoDate t)
  = Some (JSDate.Day t * JSDate.msPerDay)%Z.
Proof.
  intros Ht. unfold JSDate.parse, JSDate.isoParse.
  rewrite <- (app_nil_r (JSDate.isoDate t)).
  rewrite calendarDate_isoDate by exact Ht.
  cbn [JSDate.bind JSDate.timeOfDay]. rewrite Z.add_0_r.
  unfold JSDate.TimeClip.
  replace (Z.abs (JSDate.Day t * JSDate.msPerDay) <=? 8640000000000000)%Z
    with true; [reflexivity|].
  symmetry. apply Z.leb_le. unfold JSDate.Day, JSDate.msPerDay.
  pose proof (Z.div_mod t 86400000 ltac:(lia)).
  pose proof (Z.mod_pos_bound t 86400000 ltac:(lia)). lia.
Qed.

Section ParseableDates.

Variable hostParse : jsstring -> option Z.

(** X4. A date string that parses to a date within the years 0 to 9999
    comes back in the form YYYY-MM-DD: four digits, a hyphen, two digits, a
    hyphen, two digits. *)
Theorem normalizeDate_YMD :
  forall s t,
    JSDate.parse hostParse s = Some t ->
    (0 <= JSDate.YearFromTime t <= 9999)%Z ->
    JSDate.isYMD (normalizeDate hostParse s) = true
    /\ normalizeDate hostParse s
       = JSDate.digits 4 (JSDate.YearFromTime t) ++ lit "-"
         ++ JSDate.digits 2 (JSDate.MonthFromTime t + 1) ++ lit "-"
         ++ JSDate.digits 2 (JSDate.DateFromTime t).
Proof.
  intros s t E Hy. split.
  - now apply normalizeDate_four_digit_year with (t := t).
  - rewrite (normalizeDate_parseable hostParse s t E).
    unfold JSDate.isoDate, JSDate.yearString.
    replace ((0 <=? JSDate.YearFromTime t)%Z
             && (JSDate.YearFromTime t <=? 9999)%Z) with true
      by (symmetry; apply andb_true_iff; split; apply Z.leb_le; lia).
    reflexivity.
Qed.

(** X5. Normalizing a date that parses gives a string that parses again, to
    the start of the same UTC day, and that normalizing leaves as it is. *)
Theorem normalizeDate_idempotent :
  forall s t,
    JSDate.parse hostParse s = Some t ->
    JSDate.parse hostParse (normalizeDate hostParse s)
    = Some (JSDate.Day t * JSDate.msPerDay)%Z
    /\ normalizeDate hostParse (normalizeDate hostParse s)
       = normalizeDate hostParse s.
Proof.
  intros s t E. pose proof (parse_range hostParse s t E) as Ht.
  rewrite (normalizeDate_parseable hostParse s t E).
  pose proof (parse_isoDate hostParse t Ht) as Hp.
  split; [exact Hp|].
  rewrite (normalizeDate_parseable hostParse _ _ Hp).
  apply isoDate_same_day. unfold JSDate.Day, JSDate.msPerDay.
  apply Z.div_mul. discriminate.
Qed.

End ParseableDates.

(** ** Stored events *)

Lemma option_trim_idempotent v : setTrim (setTrim v) = setTrim v.
Proof. destruct v as [s|]; cbn; [now rewrite trim_idempotent|reflexivity]. Qed.

Lemma isoDate_not_empty t : JSDate.isoDate t <> [].
Proof.
  unfold JSDate.isoDate. intros H.
  apply app_eq_nil in H. destruct H as [_ H]. discriminate.
Qed.

Lemma normalizeDate_not_empty hostParse s :
  trim s = s -> s <> [] -> normalizeDate hostParse s <> [].
Proof.
  intros Ht Hs. destruct (JSDate.parse hostParse s) as [t|] eqn:E.
  - rewrite (normalizeDate_parseable hostParse s t E). apply isoDate_not_empty.
  - rewrite (normalizeDate_unparseable hostParse s E). now rewrite Ht.
Qed.

Lemma requiredString_Some s : s <> [] -> requiredString (Some s) = true.
Proof. destruct s; [congruence|reflexivity]. Qed.

Lemma setTrim_Some v s : setTrim v = Some s -> trim s = s.
Proof.
  destruct v as [r|]; [|discriminate]. cbn. intros H. injection H as <-.
  apply trim_idempotent.
Qed.

Section StoredEvents.

Variable unicodeLower : jsstring -> jsstring.
Variable hostParse : jsstring -> option Z.

(** What is known of a create that succeeded. *)
Lemma Event_create_success st id now input e st' :
  Event_create unicodeLower hostParse st id now input = (inl e, st') ->
  exists t s x,
    validateEvent (castEvent unicodeLower input) = inl tt
    /\ title (castEvent unicodeLower input) = Some t
    /\ date (castEvent unicodeLower input) = Some s
    /\ time (castEvent unicodeLower input) = Some x
    /\ e = mkIEvent id
             (savedFields unicodeLower hostParse
                (castEvent unicodeLower input) t s x) now now
    /\ slugTaken st (Some (generateSlug unicodeLower t)) = false
    /\ st' = mkStore (events st ++ [e]) (bookings st).
Proof.
  intros H.
  destruct (validateEvent_cases (castEvent unicodeLower input))
    as [[Hv _]|(f & r & Hv & _)].
  - destruct (validateEvent_ok _ Hv) as (t & s & x & Ht & _ & Hs & Hx).
    rewrite (Event_create_valid unicodeLower hostParse st id now input
               t s x Hv Ht Hs Hx) in H.
    cbv zeta in H.
    destruct (slugTaken st (Some (generateSlug unicodeLower t))) eqn:E;
      [discriminate|].
    injection H as <- <-. exists t, s, x. repeat split; auto.
  - rewrite (Event_create_invalid unicodeLower hostParse st id now input _ Hv)
      in H.
    discriminate.
Qed.

(** The fields a create stores pass validation again and are what the
    setters of the schema make of them. *)
Lemma savedFields_normal input t s x :
  validateEvent (castEvent unicodeLower input) = inl tt ->
  title (castEvent unicodeLower input) = Some t ->
  date (castEvent unicodeLower input) = Some s ->
  time (castEvent unicodeLower input) = Some x ->
  let d := savedFields unicodeLower hostParse
             (castEvent unicodeLower input) t s x in
  validateEvent d = inl tt /\ castEvent unicodeLower d = d.
Proof.
  intros Hv Ht Hs Hx d.
  destruct (validateEvent_cases (castEvent unicodeLower input))
    as [[_ Hok]|(f & r & E & _)]; [|congruence].
  pose proof Hs as Hs'. pose proof Hx as Hx'.
  cbn [castEvent date time] in Hs', Hx'.
  apply setTrim_Some in Hs', Hx'.
  cbn [eventValidators forallb snd] in Hok.
  repeat rewrite andb_true_iff in Hok.
  destruct Hok as (V1 & V2 & V3 & V4 & V5 & V6 & V7 & V8 & V9 & V10 & V11
                   & V12 & V13 & _).
  rewrite Hs in V7. rewrite Hx in V8.
  assert (Hsne : s <> []) by (destruct s; [discriminate|discriminate]).
  assert (Hxne : x <> []) by (destruct x; [discriminate|discriminate]).
  split.
  - apply validateEvent_pass.
    subst d. cbn [eventValidators forallb snd savedFields title description
                  overview image venue location date time mode audience
                  agenda organizer tags].
    rewrite V1, V2, V3, V4, V5, V6, V9, V10, V11, V12, V13.
    pose proof (requiredString_Some _
                  (normalizeDate_not_empty hostParse s Hs' Hsne)) as R1.
    assert (R2 : requiredString (Some (trim x)) = true)
      by (apply requiredString_Some; now rewrite Hx').
    cbn [andb].
    apply andb_true_iff; split; [exact R1|].
    apply andb_true_iff; split; [exact R2|reflexivity].
  - subst d. unfold savedFields, castEvent.
    cbn [title slug description overview image venue location date time
         mode audience agenda organizer tags].
    rewrite !option_trim_idempotent.
    cbn [setTrim setTrimLowercase option_map].
    rewrite setters_keep_generated_slug, normalizeDate_trimmed,
      trim_idempotent.
    reflexivity.
Qed.

End StoredEvents.

(** ** What every history keeps *)

Lemma NoDup_map_injective {A B} (f : A -> B) (l : list A) a b :
  NoDup (map f l) -> In a l -> In b l -> f a = f b -> a = b.
Proof.
  induction l as [|h l IH]; cbn; [tauto|].
  intros Hn Ha Hb E. inversion Hn as [|? ? Hnot Hn']; subst.
  destruct Ha as [->|Ha], Hb as [->|Hb]; auto.
  - exfalso. apply Hnot. rewrite E. now apply in_map.
  - exfalso. apply Hnot. rewrite <- E. now apply in_map.
Qed.

Section Invariants.

Variable unicodeLower : jsstring -> jsstring.
Variable hostParse : jsstring -> option Z.

Lemma Event_create_failed st id now input err st' :
  Event_create unicodeLower hostParse st id now input = (inr err, st') ->
  st' = st.
Proof.
  unfold Event_create.
  destruct (validateEvent _); [|now intros H; injection H].
  destruct (eventPreSave _ _ _ _) as [d|]; [|now intros H; injection H].
  destruct (slugTaken st (slug d)); [now intros H; injection H|discriminate].
Qed.

(** What is known of a booking that was stored. *)
Lemma Booking_create_success st id now input b st' :
  Booking_create unicodeLower st id now input = (inl b, st') ->
  exists e,
    validEmail (email (castBooking unicodeLower input)) = true
    /\ In e (events st)
    /\ eventId (castBooking unicodeLower input) = Some (_id e)
    /\ b = mkIBooking id (castBooking unicodeLower input) now now
    /\ st' = mkStore (events st) (bookings st ++ [b]).
Proof.
  intros H.
  destruct (validateBooking_cases unicodeLower input)
    as [(Hv & _ & Hok)|(f & r & Hv & _)].
  - rewrite (Booking_create_valid unicodeLower st id now input Hv) in H.
    destruct (eventId (castBooking unicodeLower input)) as [eid|];
      [|discriminate].
    cbn [bind_id] in H.
    destruct (Event_findById st eid) as [e|] eqn:F; [|discriminate].
    cbv zeta in H. injection H as <- <-.
    apply Event_findById_found in F. destruct F as [Hin <-].
    exists e. repeat split; auto.
  - rewrite (Booking_create_invalid unicodeLower st id now input _ Hv) in H.
    discriminate.
Qed.

Lemma Booking_create_failed st id now input err st' :
  Booking_create unicodeLower st id now input = (inr err, st') -> st' = st.
Proof.
  unfold Booking_create.
  destruct (validateBooking _); [|now intros H; injection H].
  destruct (bookingPreSave _ _); [discriminate|now intros H; injection H].
Qed.

(** A write leaves the store as it was or adds one document at the end of
    one collection. *)
Lemma applyOp_cases st op :
  applyOp unicodeLower hostParse st op = st
  \/ (exists id now input e,
         op = CreateEvent id now input
         /\ Event_create unicodeLower hostParse st id now input
            = (inl e, applyOp unicodeLower hostParse st op))
  \/ (exists id now input b,
         op = CreateBooking id now input
         /\ Booking_create unicodeLower st id now input
            = (inl b, applyOp unicodeLower hostParse st op)).
Proof.
  destruct op as [id now input|id now input]; cbn [applyOp].
  - destruct (Event_create unicodeLower hostParse st id now input)
      as [[e|err] st'] eqn:E.
    + right. left. exists id, now, input, e. auto.
    + left. cbn. eapply Event_create_failed; eauto.
  - destruct (Booking_create unicodeLower st id now input)
      as [[b|err] st'] eqn:E.
    + right. right. exists id, now, input, b. auto.
    + left. cbn. eapply Booking_create_failed; eauto.
Qed.

(** An induction principle for histories: what holds of the empty store and
    is kept by every write holds after every history. *)
Lemma history_ind (P : Store -> Prop) :
  P emptyStore ->
  (forall st op, P st -> P (applyOp unicodeLower hostParse st op)) ->
  forall ops, P (history unicodeLower hostParse ops).
Proof.
  intros H0 Hstep ops. unfold history.
  generalize emptyStore H0. induction ops as [|op ops IH]; intros st Hst.
  - exact Hst.
  - cbn [fold_left]. apply IH, Hstep, Hst.
Qed.

(** X6. After any sequence of event and booking creations, successful or
    not, no two stored events have the same slug: stored events with equal
    slugs are one and the same. *)
Theorem history_unique_slugs :
  forall ops,
    uniqueSlugs (history unicodeLower hostParse ops)
    /\ (forall e1 e2,
           In e1 (events (history unicodeLower hostParse ops)) ->
           In e2 (events (history unicodeLower hostParse ops)) ->
           slug (fields e1) = slug (fields e2) -> e1 = e2).
Proof.
  intros ops.
  assert (Hu : uniqueSlugs (history unicodeLower hostParse ops)).
  { apply history_ind.
    - constructor.
    - intros st [id now input|id now input] H; cbn [applyOp].
      + now apply Event_create_keeps_uniqueSlugs.
      + destruct (Booking_create unicodeLower st id now input)
          as [[b|err] st'] eqn:E; cbn.
        * apply Booking_create_success in E.
          destruct E as (e & _ & _ & _ & _ & ->). exact H.
        * apply Booking_create_failed in E. now subst. }
  split; [exact Hu|].
  intros e1 e2 H1 H2 E.
  exact (NoDup_map_injective slugOf _ e1 e2 Hu H1 H2 E).
Qed.

(** X7. After any sequence of creations every stored event still passes the
    validation of the schema, is left unchanged by the setters of the schema
    (every text field is trimmed), has the slug generated from its stored
    title, and has equal creation and update times. *)
Theorem history_events_normal :
  forall ops e,
    In e (events (history unicodeLower hostParse ops)) ->
    storedEventOK unicodeLower e.
Proof.
  intros ops. apply history_ind.
  - intros e [].
  - intros st op IH e Hin.
    destruct (applyOp_cases st op)
      as [E|[(id & now & input & e' & _ & E)|(id & now & input & b & _ & E)]].
    + rewrite E in Hin. now apply IH.
    + apply Event_create_success in E.
      destruct E as (t & s & x & Hv & Ht & Hs & Hx & -> & _ & E).
      rewrite E in Hin. cbn [events] in Hin.
      apply in_app_or in Hin. destruct Hin as [Hin|[<-|[]]]; [now apply IH|].
      destruct (savedFields_normal unicodeLower hostParse input t s x
                  Hv Ht Hs Hx) as [Hv' Hc'].
      unfold storedEventOK. cbn [fields createdAt updatedAt].
      repeat split; auto.
      exists t. split; [|reflexivity]. cbn [savedFields title]. exact Ht.
    + apply Booking_create_success in E.
      destruct E as (e0 & _ & _ & _ & _ & E).
      rewrite E in Hin. now apply IH.
Qed.

(** X8. After any sequence of creations every stored booking names a
    stored event, and holds an email that matches the email pattern. *)
Theorem history_bookings_refer :
  forall ops b,
    In b (bookings (history unicodeLower hostParse ops)) ->
    (exists e,
        In e (events (history unicodeLower hostParse ops))
        /\ eventId (booking b) = Some (_id e))
    /\ (exists addr,
           email (booking b) = Some addr
           /\ Regex.matches emailRegex addr = true).
Proof.
  intros ops. apply history_ind.
  - intros b [].
  - intros st op IH b Hin.
    destruct (applyOp_cases st op)
      as [E|[(id & now & input & e' & _ & E)|(id & now & input & b' & _ & E)]].
    + rewrite E in *. now apply IH.
    + apply Event_create_success in E.
      destruct E as (_ & _ & _ & _ & _ & _ & _ & _ & _ & E).
      rewrite E in *. cbn [events bookings] in *.
      destruct (IH b Hin) as [(e & He & Hid) Hm]. split; [|exact Hm].
      exists e. split; [apply in_or_app; now left|exact Hid].
    + apply Booking_create_success in E.
      destruct E as (e0 & Hm & He0 & Hid & -> & E).
      rewrite E in *. cbn [events bookings] in *.
      apply in_app_or in Hin. destruct Hin as [Hin|[<-|[]]]; [now apply IH|].
      cbn [booking]. split.
      * exists e0. auto.
      * unfold validEmail in Hm. cbn [castBooking email] in *.
        destruct (setTrimLowercase unicodeLower (email input)) as [addr|];
          [|discriminate].
        exists addr. split; [reflexivity|].
        apply andb_true_iff in Hm. tauto.
Qed.

End Invariants.

(** ** Creating, then finding and booking *)

Lemma toLowerCase_not_empty u (s : jsstring) :
  (forall x, x <> [] -> u x <> []) -> s <> [] -> toLowerCase u s <> [].
Proof.
  intros Hu Hs. unfold toLowerCase.
  destruct (forallb isAscii s).
  - destruct s; [congruence|discriminate].
  - specialize (Hu s Hs). destruct (u s); [congruence|discriminate].
Qed.

Section RoundTrips.

Variable unicodeLower : jsstring -> jsstring.
Variable hostParse : jsstring -> option Z.

(** X9. An event that was just created, on a store with distinct slugs, is
    the one [GET /api/events/[slug]] returns for its slug, and for every
    query that trims and lowercases to its slug, provided the slug is not
    empty. *)
Theorem created_event_is_found :
  forall env st id now input e st',
    connectDB env = None ->
    uniqueSlugs st ->
    Event_create unicodeLower hostParse st id now input = (inl e, st') ->
    exists s,
      slug (fields e) = Some s
      /\ (s <> [] ->
          GET_event unicodeLower env st' (Some s)
          = mkResponse 200 (MessageEvent (lit "Event fetched successfully") e)
          /\ forall query,
               toLowerCase unicodeLower (trim query) = s ->
               GET_event unicodeLower env st' (Some query)
               = mkResponse 200
                   (MessageEvent (lit "Event fetched successfully") e)).
Proof.
  intros env st id now input e st' Hc Hu H.
  pose proof (Event_create_keeps_uniqueSlugs unicodeLower hostParse
                st id now input Hu) as Hu'.
  rewrite H in Hu'. cbn [snd] in Hu'.
  apply Event_create_success in H.
  destruct H as (t & s & x & _ & _ & _ & _ & He & _ & Hst).
  assert (Hslug : slug (fields e) = Some (generateSlug unicodeLower t))
    by (rewrite He; reflexivity).
  assert (Hin : In e (events st'))
    by (rewrite Hst; cbn; apply in_or_app; right; now left).
  clear He Hst.
  exists (generateSlug unicodeLower t). split; [exact Hslug|]. intros Hne.
  assert (Hq : forall query,
             toLowerCase unicodeLower (trim query)
             = generateSlug unicodeLower t ->
             GET_event unicodeLower env st' (Some query)
             = mkResponse 200
                 (MessageEvent (lit "Event fetched successfully") e)).
  { intros q Hk.
    assert (Hnb : trim q <> []).
    { intros E. rewrite E in Hk. cbn in Hk. congruence. }
    destruct (GET_event_found unicodeLower env st' q e Hc Hnb Hin)
      as (e' & Hr & _ & _ & He').
    - now rewrite Hk.
    - rewrite Hr. now rewrite (He' Hu'). }
  split; [|exact Hq].
  apply Hq.
  rewrite trim_no_space.
  - apply toLowerCase_slug_chars, generateSlug_chars.
  - eapply Forall_impl; [|apply generateSlug_chars].
    intros c Hcs. now apply isSlugChar_facts.
Qed.

(** X10. A stored event whose slug is empty is returned by no request to
    [GET /api/events/[slug]], whatever the slug parameter, on a host whose
    lowercasing never empties a string. *)
Theorem empty_slug_event_is_never_found :
  (forall x, x <> [] -> unicodeLower x <> []) ->
  forall env st e query message,
    In e (events st) ->
    slug (fields e) = Some [] ->
    body (GET_event unicodeLower env st query) <> MessageEvent message e.
Proof.
  intros Hhost env st e q message Hin Hslug. unfold GET_event.
  destruct (connectDB env) as [m|].
  - destruct (includes _ _); discriminate.
  - destruct (falsy q || falsy (option_map trim q)) eqn:G; [discriminate|].
    destruct q as [q|]; [|discriminate]. cbn in G.
    apply orb_false_iff in G. destruct G as [_ G].
    assert (Hnb : trim q <> []) by (destruct (trim q); [discriminate|discriminate]).
    unfold Event_findOne_slug.
    destruct (find _ (events st)) as [e'|] eqn:F; [|discriminate].
    cbn [body]. intros E. injection E as _ ->.
    apply find_some in F. destruct F as [_ F]. apply optEqb_eq in F.
    rewrite Hslug in F. injection F as F.
    symmetry in F. revert F. now apply toLowerCase_not_empty.
Qed.

(** X11. Once an event is created, a booking for its identifier with an
    email that matches the pattern after lowercasing and trimming is
    stored, with that normalized email. *)
Theorem created_event_can_be_booked :
  forall st id now input e st' bid bnow addr,
    Event_create unicodeLower hostParse st id now input = (inl e, st') ->
    Regex.matches emailRegex (trim (toLowerCase unicodeLower addr)) = true ->
    let b := mkIBooking bid
               {| eventId := Some id;
                  email := Some (trim (toLowerCase unicodeLower addr)) |}
               bnow bnow in
    Booking_create unicodeLower st' bid bnow
      {| eventId := Some (toHexString id); email := Some addr |}
    = (inl b, mkStore (events st') (bookings st' ++ [b])).
Proof.
  intros st id now input e st' bid bnow addr H Hm b.
  apply Event_create_stored in H. destruct H as (-> & Hid & _ & _).
  rewrite (Booking_create_passes unicodeLower _ bid bnow
             {| eventId := Some (toHexString id); email := Some addr |}
             (toHexString id) id addr eq_refl
             (castObjectId_toHexString id) eq_refl Hm).
  destruct (Event_findById_present
              (mkStore (events st ++ [e]) (bookings st)) id) as [e0 He0].
  { exists e. split; [cbn; apply in_or_app; right; now left|exact Hid]. }
  rewrite He0. reflexivity.
Qed.

(** X12. A slug supplied with the input of a create is never used: the
    create does the same with any value, or none, in its place. *)
Theorem Event_create_ignores_given_slug :
  forall st id now input given,
    Event_create unicodeLower hostParse st id now
      {| title := title input;
         slug := given;
         description := description input;
         overview := overview input;
         image := image input;
         venue := venue input;
         location := location input;
         date := date input;
         time := time input;
         mode := mode input;
         audience := audience input;
         agenda := agenda input;
         organizer := organizer input;
         tags := tags input |}
    = Event_create unicodeLower hostParse st id now input.
Proof.
  intros st id now input given.
  set (input' := {| title := title input; slug := given;
                    description := description input;
                    overview := overview input; image := image input;
                    venue := venue input; location := location input;
                    date := date input; time := time input;
                    mode := mode input; audience := audience input;
                    agenda := agenda input; organizer := organizer input;
                    tags := tags input |}).
  assert (Hsame : validateEvent (castEvent unicodeLower input')
                  = validateEvent (castEvent unicodeLower input))
    by reflexivity.
  destruct (validateEvent_cases (castEvent unicodeLower input))
    as [[Hv _]|(f & r & Hv & _)].
  - destruct (validateEvent_ok _ Hv) as (t & s & x & Ht & _ & Hs & Hx).
    rewrite (Event_create_valid unicodeLower hostParse st id now input
               t s x Hv Ht Hs Hx).
    assert (Hv' : validateEvent (castEvent unicodeLower input') = inl tt)
      by congruence.
    rewrite (Event_create_valid unicodeLower hostParse st id now input'
               t s x Hv' Ht Hs Hx).
    reflexivity.
  - rewrite (Event_create_invalid unicodeLower hostParse st id now input _ Hv).
    apply Event_create_invalid. congruence.
Qed.

End RoundTrips.

(** ** Emails and booking validation *)

Lemma occurrences_app c (a b : jsstring) :
  occurrences c (a ++ b) = (occurrences c a + occurrences c b)%nat.
Proof. unfold occurrences. now rewrite filter_app, List.length_app. Qed.

Lemma count_at_email_chars (s : jsstring) :
  Forall (fun x => isEmailChar x = true) s -> occurrences 64%N s = 0%nat.
Proof.
  unfold occurrences.
  induction 1 as [|c s Hc _ IH]; [reflexivity|]. cbn [filter].
  destruct (64 =? c)%N eqn:E; [|exact IH].
  apply N.eqb_eq in E. subst c. discriminate.
Qed.

Lemma email_char_not_space c : isEmailChar c = true -> isSpace c = false.
Proof.
  unfold isEmailChar. intros H. apply negb_true_iff, orb_false_iff in H. tauto.
Qed.

Lemma email_parts_shape (a b c : jsstring) :
  Forall (fun x => isEmailChar x = true) a ->
  Forall (fun x => isEmailChar x = true) b ->
  Forall (fun x => isEmailChar x = true) c ->
  Forall (fun x => isSpace x = false) (a ++ [64%N] ++ b ++ [46%N] ++ c)
  /\ occurrences 64%N (a ++ [64%N] ++ b ++ [46%N] ++ c) = 1%nat.
Proof.
  intros Fa Fb Fc. split.
  - repeat (apply Forall_app; split);
      try (eapply Forall_impl; [|eassumption]; apply email_char_not_space);
      repeat constructor.
  - rewrite !occurrences_app.
    rewrite (count_at_email_chars a Fa), (count_at_email_chars b Fb),
      (count_at_email_chars c Fc).
    reflexivity.
Qed.

(** X13. [emailRegex] accepts exactly the strings made of a local part, an
    [@], a domain part, a dot and a last part, the three parts being
    non-empty and free of whitespace and [@].  So an accepted string holds
    no whitespace and exactly one [@]. *)
Theorem emailRegex_accepts :
  forall s,
    (Regex.matches emailRegex s = true <->
     exists a b c,
       s = a ++ [64%N] ++ b ++ [46%N] ++ c
       /\ a <> [] /\ b <> [] /\ c <> []
       /\ Forall (fun x => isEmailChar x = true) a
       /\ Forall (fun x => isEmailChar x = true) b
       /\ Forall (fun x => isEmailChar x = true) c)
    /\ (Regex.matches emailRegex s = true ->
        Forall (fun x => isSpace x = false) s
        /\ occurrences 64%N s = 1%nat).
Proof.
  intros s. split; [apply emailRegex_spec|].
  intros H. apply emailRegex_spec in H.
  destruct H as (a & b & c & -> & _ & _ & _ & Fa & Fb & Fc).
  now apply email_parts_shape.
Qed.

Section BookingValidation.

Variable unicodeLower : jsstring -> jsstring.

(** X14. A booking whose [eventId] is missing or is not the string of an
    ObjectId, or whose email is missing or does not match the pattern once
    lowercased and trimmed, fails with a ValidationError; the store is not
    searched for the event and is left as it was.  The error names
    [eventId] exactly in the first case and [email] exactly in the second,
    and no other path.  With neither of the two given, it lists [email]
    before [eventId]. *)
Theorem Booking_create_validation :
  forall st id now input,
    let noEvent :=
      forall s, eventId input = Some s -> castObjectId s = None in
    let noEmail :=
      forall addr,
        email input = Some addr ->
        Regex.matches emailRegex (trim (toLowerCase unicodeLower addr))
        = false in
    noEvent \/ noEmail ->
    exists paths,
      Booking_create unicodeLower st id now input
      = (inr (ValidationError paths), st)
      /\ (In "eventId"%string paths <-> noEvent)
      /\ (In "email"%string paths <-> noEmail)
      /\ (forall p, In p paths -> p = "eventId"%string \/ p = "email"%string)
      /\ (eventId input = None -> email input = None ->
          paths = ["email"; "eventId"]%string).
Proof.
  intros st id now input noEvent noEmail H.
  assert (He : isSome (eventId (castBooking unicodeLower input)) = false
               <-> noEvent) by apply castEventId_false.
  assert (Hm : validEmail (email (castBooking unicodeLower input)) = false
               <-> noEmail) by apply validEmail_false.
  destruct (validateBooking_cases unicodeLower input)
    as [(_ & Hid & Hok)|(f & r & Hv & Hf)].
  - exfalso. destruct H as [H|H]; [apply He in H|apply Hm in H]; congruence.
  - exists (f :: r).
    split; [now apply Booking_create_invalid|].
    assert (Hin : forall p,
               In p (f :: r) <->
               (p = "eventId"%string
                /\ isSome (eventId (castBooking unicodeLower input)) = false)
               \/ (p = "email"%string
                   /\ validEmail (email (castBooking unicodeLower input))
                      = false)).
    { intros p. rewrite Hf. cbn [bookingValidators In]. split.
      - intros [E|[E|[]]]; injection E as <- <-; auto.
      - intros [[-> <-]|[-> <-]]; auto. }
    split; [|split; [|split]].
    + rewrite Hin, <- He. split; [|auto].
      intros [[_ E]|[E _]]; [exact E|discriminate].
    + rewrite Hin, <- Hm. split; [|auto].
      intros [[E _]|[_ E]]; [discriminate|exact E].
    + intros p Hp. apply Hin in Hp. tauto.
    + intros E1 E2.
      unfold validateBooking, castBooking, bookingStates in Hv.
      rewrite E1, E2 in Hv. cbn in Hv. now injection Hv as <- <-.
Qed.

(** X15. The email of a booking that was stored holds no ASCII capital and
    no whitespace, and exactly one [@]. *)
Theorem stored_email_shape :
  forall st id now input b st',
    Booking_create unicodeLower st id now input = (inl b, st') ->
    exists addr,
      email (booking b) = Some addr
      /\ Forall (fun c => isUpper c = false) addr
      /\ Forall (fun c => isSpace c = false) addr
      /\ occurrences 64%N addr = 1%nat.
Proof.
  intros st id now input b st' H.
  apply Booking_create_success in H.
  destruct H as (e & Hm & _ & _ & -> & _).
  cbn [booking castBooking email] in *. unfold validEmail in Hm.
  destruct (email input) as [raw|]; [|discriminate].
  cbn [setTrimLowercase option_map] in *.
  exists (trim (toLowerCase unicodeLower raw)).
  apply andb_true_iff in Hm. destruct Hm as [_ Hm].
  pose proof (proj1 (emailRegex_spec _) Hm) as Hs.
  split; [reflexivity|]. split.
  - apply Forall_trim, toLowerCase_no_upper.
  - destruct Hs as (a & b & c & E & _ & _ & _ & Fa & Fb & Fc).
    rewrite E. now apply email_parts_shape.
Qed.

End BookingValidation.

(** ** The answers of the slug route *)

Section SlugRoute.

Variable unicodeLower : jsstring -> jsstring.

(** X16. Two slug parameters that are not blank and trim and lowercase to
    the same string get the same answer from [GET /api/events/[slug]]. *)
Theorem GET_event_normalizes_query :
  forall env st q1 q2,
    trim q1 <> [] -> trim q2 <> [] ->
    toLowerCase unicodeLower (trim q1) = toLowerCase unicodeLower (trim q2) ->
    GET_event unicodeLower env st (Some q1)
    = GET_event unicodeLower env st (Some q2).
Proof.
  intros env st q1 q2 H1 H2 E. unfold GET_event.
  destruct (connectDB env); [reflexivity|].
  rewrite (GET_event_guard_passes q1 H1), (GET_event_guard_passes q2 H2).
  now rewrite E.
Qed.

(** X17. The status of an answer of [GET /api/events/[slug]] tells what
    happened: 500 exactly when the connection fails, whatever the slug; 400
    exactly when the store is reachable and the slug is missing or blank;
    otherwise 200 when a stored event has the normalized slug and 404 when
    none has.  Without [MONGODB_URI] the message is "Database configuration
    error". *)
Theorem GET_event_status :
  forall env st query,
    let blank :=
      match query with Some q => JS.eqb (trim q) [] | None => true end in
    let key :=
      toLowerCase unicodeLower
        (trim (match query with Some q => q | None => [] end)) in
    status (GET_event unicodeLower env st query)
    = (match connectDB env with
       | Some _ => 500
       | None =>
           if blank then 400
           else if existsb (fun e => optEqb (slug (fields e)) (Some key))
                     (events st)
                then 200 else 404
       end)%Z
    /\ (falsy (MONGODB_URI env) = true ->
        GET_event unicodeLower env st query
        = mkResponse 500 (Message (lit "Database configuration error"))).
Proof.
  intros env st query blank key. split.
  - unfold GET_event.
    destruct (connectDB env) as [m|]; [destruct (includes _ m); reflexivity|].
    subst blank key. destruct query as [q|]; [|reflexivity].
    destruct (JS.eqb (trim q) []) eqn:E.
    + apply eqb_eq in E. cbn [falsy option_map]. rewrite E.
      now rewrite orb_true_r.
    + apply eqb_neq in E. rewrite (GET_event_guard_passes q E).
      unfold Event_findOne_slug.
      destruct (find _ (events st)) as [e|] eqn:F.
      * apply find_some in F. destruct F as [Hin Hm].
        replace (existsb _ (events st)) with true; [reflexivity|].
        symmetry. apply existsb_exists. eauto.
      * replace (existsb _ (events st)) with false; [reflexivity|].
        symmetry. apply not_true_is_false. intros Hex.
        apply existsb_exists in Hex. destruct Hex as (e & Hin & Hm).
        pose proof (find_none _ _ F e Hin) as Hn. cbn in Hn. congruence.
  - intros Hu. unfold GET_event, connectDB. rewrite Hu. reflexivity.
Qed.

End SlugRoute.

(** ** The cached connection *)

Lemma run_app ts1 ts2 p :
  Cache.run (ts1 ++ ts2) p = Cache.run ts2 (Cache.run ts1 p).
Proof. unfold Cache.run. apply fold_left_app. Qed.

Lemma failures_app ts1 ts2 :
  Cache.failures (ts1 ++ ts2)
  = (Cache.failures ts1 + Cache.failures ts2)%nat.
Proof.
  induction ts1 as [|[uri|[|m]] ts1 IH]; cbn; auto.
Qed.

(** An attempt is counted when it starts and the cache is free again only
    after a failure. *)
Lemma connects_bound ts :
  (Cache.connects (Cache.run ts Cache.initial)
   + (match Cache.promise (Cache.cached (Cache.run ts Cache.initial)) with
      | None => 1
      | Some _ => 0
      end)
   <= 1 + Cache.failures ts)%nat.
Proof.
  induction ts as [|t ts IH] using rev_ind; [cbn; lia|].
  rewrite run_app, failures_app. cbn [Cache.run fold_left].
  set (p := Cache.run ts Cache.initial) in *.
  destruct p as [[c pr] w n]. cbn [Cache.cached Cache.promise Cache.connects] in IH.
  destruct t as [uri|o]; cbn [Cache.turn Cache.failures].
  - unfold Cache.call. cbn [Cache.cached Cache.conn Cache.promise].
    destruct (falsy uri); destruct c; destruct pr as [[|]|];
      cbn in *; lia.
  - unfold Cache.settle. cbn [Cache.cached Cache.conn Cache.promise].
    destruct pr as [[|]|]; destruct o; cbn in *; lia.
Qed.

(** X18. However the calls of [connectDB] and the settlements of connection
    attempts follow each other, [mongoose.connect] is called at most once
    more often than an attempt has failed.  While no attempt fails it is
    called at most once, however many requests arrive. *)
Theorem connect_attempts_bounded :
  forall ts,
    (Cache.connects (Cache.run ts Cache.initial) <= 1 + Cache.failures ts)%nat.
Proof. intros ts. pose proof (connects_bound ts). lia. Qed.

(** X19. Once the connection is stored it stays stored and
    [mongoose.connect] is not called again, whatever follows; a call then
    returns at once when [MONGODB_URI] is set, and still throws when it is
    not. *)
Theorem connection_is_kept :
  forall p ts,
    Cache.conn (Cache.cached p) = true ->
    Cache.conn (Cache.cached (Cache.run ts p)) = true
    /\ Cache.connects (Cache.run ts p) = Cache.connects p
    /\ (forall uri,
           fst (Cache.call uri (Cache.run ts p))
           = if falsy uri then Cache.Throws Cache.uriMissing
             else Cache.Returns).
Proof.
  assert (H : forall ts p,
             Cache.conn (Cache.cached p) = true ->
             Cache.conn (Cache.cached (Cache.run ts p)) = true
             /\ Cache.connects (Cache.run ts p) = Cache.connects p).
  { induction ts as [|t ts IH]; intros p Hp; [auto|].
    cbn [Cache.run fold_left]. fold (Cache.run ts (Cache.turn p t)).
    assert (Ht : Cache.conn (Cache.cached (Cache.turn p t)) = true
                 /\ Cache.connects (Cache.turn p t) = Cache.connects p).
    { destruct p as [[c pr] w n]. cbn in Hp. subst c.
      destruct t as [uri|o]; cbn.
      - unfold Cache.call. destruct (falsy uri); cbn; auto.
      - unfold Cache.settle. cbn.
        destruct pr as [[|]|]; destruct o; cbn; auto using orb_true_r. }
    destruct Ht as [Hc Hn]. destruct (IH _ Hc) as [Hc' Hn'].
    split; [exact Hc'|congruence]. }
  intros p ts Hp. destruct (H ts p Hp) as [Hc Hn].
  split; [exact Hc|]. split; [exact Hn|].
  intros uri. unfold Cache.call. rewrite Hc. now destruct (falsy uri).
Qed.

(** X20. When a pending attempt fails, every waiting caller gets the error,
    the cache is empty again, and the next call with [MONGODB_URI] set
    starts a new attempt. *)
Theorem failed_attempt_is_retried :
  forall p message uri,
    Cache.promise (Cache.cached p) = Some Cache.Pending ->
    Cache.conn (Cache.cached p) = false ->
    falsy uri = false ->
    let p' := snd (Cache.settle (Cache.Failed message) p) in
    fst (Cache.settle (Cache.Failed message) p)
    = repeat (Cache.Throws message) (Cache.awaiting p)
    /\ Cache.cached p' = Cache.mkCached false None
    /\ Cache.awaiting p' = 0%nat
    /\ Cache.call uri p'
       = (Cache.Awaits,
          Cache.mkProcess (Cache.mkCached false (Some Cache.Pending)) 1
            (S (Cache.connects p))).
Proof.
  intros [[c pr] w n] message uri Hp Hc Hu. cbn in Hp, Hc. subst c pr.
  cbn. unfold Cache.call. rewrite Hu. cbn. auto.
Qed.

(** X21. A request on its own, on a fresh process, is answered as the
    route handlers take it: it throws the configuration error without
    [MONGODB_URI], throws the error of the attempt when the attempt fails,
    and returns otherwise. *)
Theorem request_agrees_with_connectDB :
  forall uri o,
    fst (Cache.request uri o Cache.initial)
    = match connectDB
              {| MONGODB_URI := uri;
                 connectFailure :=
                   match o with
                   | Cache.Failed message => Some message
                   | Cache.Connected => None
                   end |} with
      | Some message => Cache.Throws message
      | None => Cache.Returns
      end.
Proof.
  intros uri o. unfold Cache.request, Cache.call, connectDB.
  cbn [MONGODB_URI connectFailure].
  destruct (falsy uri); [reflexivity|]. cbn.
  destruct o; reflexivity.
Qed.

Lemma calls_while_pending uri n w c :
  falsy uri = false ->
  Cache.run (repeat (Cache.Call uri) n)
    (Cache.mkProcess (Cache.mkCached false (Some Cache.Pending)) w c)
  = Cache.mkProcess (Cache.mkCached false (Some Cache.Pending)) (n + w) c.
Proof.
  intros Hu. revert w. induction n as [|n IH]; intros w; [reflexivity|].
  cbn [repeat Cache.run fold_left Cache.turn].
  unfold Cache.call at 1. rewrite Hu. cbn [Cache.cached Cache.conn Cache.promise snd].
  fold (Cache.run (repeat (Cache.Call uri) n)
          (Cache.mkProcess (Cache.mkCached false (Some Cache.Pending)) (S w) c)).
  rewrite IH. now rewrite Nat.add_succ_r.
Qed.

(** X22. Calls of [connectDB] that arrive before the first attempt settles
    share that attempt: [mongoose.connect] is called once, and when it
    settles every caller gets the same answer, the connection or the
    error. *)
Theorem concurrent_calls_share_attempt :
  forall uri n o,
    falsy uri = false ->
    let p := Cache.run (repeat (Cache.Call uri) (S n)) Cache.initial in
    Cache.connects p = 1%nat
    /\ fst (Cache.settle o p)
       = repeat (match o with
                 | Cache.Connected => Cache.Returns
                 | Cache.Failed message => Cache.Throws message
                 end) (S n)
    /\ Cache.cached (snd (Cache.settle o p))
       = match o with
         | Cache.Connected => Cache.mkCached true (Some Cache.Fulfilled)
         | Cache.Failed _ => Cache.mkCached false None
         end.
Proof.
  intros uri n o Hu p.
  assert (Hp : p = Cache.mkProcess
                     (Cache.mkCached false (Some Cache.Pending)) (S n) 1).
  { subst p. cbn [repeat Cache.run fold_left Cache.turn].
    unfold Cache.call at 1. rewrite Hu.
    cbn [Cache.initial Cache.cached Cache.conn Cache.promise Cache.awaiting
         Cache.connects snd].
    fold (Cache.run (repeat (Cache.Call uri) n)
            (Cache.mkProcess (Cache.mkCached false (Some Cache.Pending)) 1 1)).
    rewrite (calls_while_pending uri n 1 1 Hu).
    now rewrite Nat.add_1_r. }
  rewrite Hp. destruct o; repeat split; reflexivity.
Qed.

(** ** Creating an event over HTTP *)

Section PostFacts.

Variable unicodeLower : jsstring -> jsstring.
Variable hostParse : jsstring -> option Z.
Variable JSValue : Type.
Variable JSON_parse : jsstring -> option JSValue.
Variable castStringArray : JSValue -> option (list jsstring).
Variable upload : list N -> UploadOutcome.

(** [POST] either stops before the upload, or uploads the file and hands
    the document to [Event.create]. *)
Lemma POST_cases env st id now form :
  (exists resp,
      POST unicodeLower hostParse JSON_parse castStringArray upload
        env st id now form = (resp, st, [])
      /\ postStatus resp <> 201%Z
      /\ (postStatus resp = 400%Z <->
          connectDB env = None /\ noFile (formImage form) = true))
  \/ (exists content secure_url tagsValue agendaValue,
         connectDB env = None
         /\ formImage form = Some (FileValue content)
         /\ JSON_parse (asJsonText (formTags form)) = Some tagsValue
         /\ JSON_parse (asJsonText (formAgenda form)) = Some agendaValue
         /\ upload content = Uploaded secure_url
         /\ POST unicodeLower hostParse JSON_parse castStringArray upload
              env st id now form
            = match Event_create unicodeLower hostParse st id now
                      (postedEvent castStringArray form secure_url tagsValue agendaValue) with
              | (inl created, st') =>
                  (mkPostResponse 201 (Created created), st', [content])
              | (inr e, st') =>
                  (creationFailed (SaveFailure e), st', [content])
              end).
Proof.
  unfold POST.
  destruct (connectDB env) as [m|] eqn:Hc.
  { left. eexists. split; [reflexivity|]. cbn. split; [discriminate|].
    split; [discriminate|]. intros [H _]. discriminate. }
  destruct (noFile (formImage form)) eqn:Hf.
  { left. eexists. split; [reflexivity|]. cbn. split; [discriminate|].
    split; auto. }
  destruct (JSON_parse (asJsonText (formTags form))) as [tv|] eqn:Ht.
  2:{ left. eexists. split; [reflexivity|]. cbn. split; [discriminate|].
      split; [discriminate|]. intros [_ H]. discriminate. }
  destruct (JSON_parse (asJsonText (formAgenda form))) as [av|] eqn:Ha.
  2:{ left. eexists. split; [reflexivity|]. cbn. split; [discriminate|].
      split; [discriminate|]. intros [_ H]. discriminate. }
  destruct (formImage form) as [[text|content]|] eqn:Hi.
  - left. eexists. split; [reflexivity|]. cbn. split; [discriminate|].
    split; [discriminate|]. intros [_ H]. congruence.
  - destruct (upload content) as [url|] eqn:Hu.
    + right. exists content, url, tv, av. repeat split; auto.
    + left. eexists. split; [reflexivity|]. cbn. split; [discriminate|].
      split; [discriminate|]. intros [_ H]. congruence.
  - left. eexists. split; [reflexivity|]. cbn. split; [discriminate|].
    split; [discriminate|]. intros [_ H]. congruence.
Qed.

(** X23. [POST /api/events] changes the store only when it answers 201, and
    then by adding the created event, whose image is the trimmed
    [secure_url] of the upload.  With any other answer the store is as it
    was. *)
Theorem POST_store :
  forall env st id now form resp st' assets,
    POST unicodeLower hostParse JSON_parse castStringArray upload
      env st id now form = (resp, st', assets) ->
    (postStatus resp <> 201%Z /\ st' = st)
    \/ (exists created content secure_url,
           resp = mkPostResponse 201 (Created created)
           /\ st' = mkStore (events st ++ [created]) (bookings st)
           /\ formImage form = Some (FileValue content)
           /\ upload content = Uploaded (Some secure_url)
           /\ image (fields created) = Some (trim secure_url)
           /\ assets = [content]).
Proof.
  intros env st id now form resp st' assets H.
  destruct (POST_cases env st id now form)
    as [(r & E & Hs & _)|(content & url & tv & av & _ & Hi & _ & _ & Hu & E)];
    rewrite E in H.
  - injection H as <- <- <-. left. auto.
  - destruct (Event_create unicodeLower hostParse st id now
                (postedEvent castStringArray form url tv av)) as [[created|err] st1] eqn:C.
    + injection H as <- <- <-. right.
      pose proof C as C'. apply Event_create_success in C'.
      destruct C' as (t & s & x & Hv & _ & _ & _ & He & _ & Hst).
      destruct (validateEvent_cases
                  (castEvent unicodeLower (postedEvent castStringArray form url tv av)))
        as [[_ Hok]|(f & r & Hbad & _)]; [|congruence].
      cbn [eventValidators forallb snd] in Hok.
      repeat rewrite andb_true_iff in Hok.
      destruct Hok as (_ & _ & _ & V4 & _).
      cbn [castEvent image postedEvent] in V4.
      destruct url as [u|]; [|discriminate].
      exists created, content, u. repeat split; auto.
      rewrite He. reflexivity.
    + injection H as <- <- <-. left. split; [discriminate|].
      eapply Event_create_failed; eauto.
Qed.

(** X24. The image is uploaded before the event is validated: a form with
    an image file, tags and agenda that parse, and an event that fails the
    schema at some path is answered 500 with a validation error that names
    the paths at which it fails, and leaves the file on the asset host and
    no event in the store.  So it is with a form that has no title, whose
    error names the title. *)
Theorem POST_uploads_before_validation :
  forall env st id now form content secure_url tagsValue agendaValue path,
    connectDB env = None ->
    formImage form = Some (FileValue content) ->
    JSON_parse (asJsonText (formTags form)) = Some tagsValue ->
    JSON_parse (asJsonText (formAgenda form)) = Some agendaValue ->
    upload content = Uploaded secure_url ->
    failsAt (postedEvent castStringArray form secure_url tagsValue
               agendaValue) path ->
    exists paths,
      POST unicodeLower hostParse JSON_parse castStringArray upload
        env st id now form
      = (creationFailed (SaveFailure (ValidationError paths)), st, [content])
      /\ (forall p,
             In p paths <->
             failsAt (postedEvent castStringArray form secure_url tagsValue
                        agendaValue) p)
      /\ (formTitle form = None -> In "title"%string paths).
Proof.
  intros env st id now form content url tv av path Hc Hi Ht Ha Hu Hf.
  unfold POST. rewrite Hc, Hi. cbn [noFile]. rewrite Ht, Ha, Hu.
  destruct (Event_create_faults unicodeLower hostParse st id now _ path Hf)
    as (paths & Hcreate & Hp).
  rewrite Hcreate. exists paths. split; [reflexivity|]. split; [exact Hp|].
  intros Htitle. apply Hp. exists (missingText (formTitle form)).
  split; [now left|]. rewrite Htitle. intros s E. discriminate.
Qed.

(** X25. [POST] puts a file on the asset host only when the connection is
    up, the image entry is a file, the tags and the agenda parse and the
    host accepts the upload, and then only that one file.  It answers 400
    exactly when the connection is up and there is no image; unparseable
    tags or agenda are answered with 500. *)
Theorem POST_checks :
  forall env st id now form resp st' assets,
    POST unicodeLower hostParse JSON_parse castStringArray upload
      env st id now form = (resp, st', assets) ->
    (assets <> [] ->
     exists content secure_url,
       assets = [content]
       /\ connectDB env = None
       /\ formImage form = Some (FileValue content)
       /\ JSON_parse (asJsonText (formTags form)) <> None
       /\ JSON_parse (asJsonText (formAgenda form)) <> None
       /\ upload content = Uploaded secure_url)
    /\ (postStatus resp = 400%Z <->
        connectDB env = None /\ noFile (formImage form) = true)
    /\ (connectDB env = None ->
        noFile (formImage form) = false ->
        JSON_parse (asJsonText (formTags form)) = None
        \/ JSON_parse (asJsonText (formAgenda form)) = None ->
        resp = creationFailed JsonSyntaxError).
Proof.
  intros env st id now form resp st' assets H.
  destruct (POST_cases env st id now form)
    as [(r & E & Hs & H400)
       |(content & url & tv & av & Hc & Hi & Ht & Ha & Hu & E)].
  - rewrite E in H. injection H as <- <- <-.
    split; [congruence|]. split; [exact H400|].
    intros Hc Hf Hj. revert E. unfold POST. rewrite Hc, Hf.
    destruct Hj as [Hj|Hj].
    + rewrite Hj. intros E. now injection E.
    + destruct (JSON_parse (asJsonText (formTags form)));
        [rewrite Hj|]; intros E; now injection E.
  - assert (Hst : postStatus resp <> 400%Z /\ assets = [content]).
    { rewrite E in H.
      destruct (Event_create unicodeLower hostParse st id now
                  (postedEvent castStringArray form url tv av)) as [[c|err] s1];
        injection H as <- <- <-; split; [discriminate|reflexivity
                                         |discriminate|reflexivity]. }
    destruct Hst as [H4 Has]. split; [|split].
    + intros _. exists content, url. rewrite Ht, Ha.
      repeat split; auto; discriminate.
    + split; [intros; congruence|]. intros [_ Hn].
      rewrite Hi in Hn. discriminate.
    + intros _ _ [Hj|Hj]; congruence.
Qed.

(** X26. Posting the same form again after it created an event creates
    nothing: the answer is 500 with the duplicate-key error of the slug
    index, the store stays as the first request left it, and the image is
    uploaded once more. *)
Theorem POST_twice :
  forall env st id1 now1 id2 now2 form created st1 assets,
    POST unicodeLower hostParse JSON_parse castStringArray upload
      env st id1 now1 form
    = (mkPostResponse 201 (Created created), st1, assets) ->
    POST unicodeLower hostParse JSON_parse castStringArray upload
      env st1 id2 now2 form
    = (creationFailed (SaveFailure (DuplicateKeyError "slug")), st1, assets).
Proof.
  intros env st id1 now1 id2 now2 form created st1 assets H.
  destruct (POST_cases env st id1 now1 form)
    as [(r & E & Hs & _)|(content & url & tv & av & Hc & Hi & Ht & Ha & Hu & E)];
    rewrite E in H.
  - injection H as Er _ _. rewrite Er in Hs. cbn in Hs. congruence.
  - destruct (Event_create unicodeLower hostParse st id1 now1
                (postedEvent castStringArray form url tv av)) as [[c|err] s1] eqn:C;
      [|discriminate].
    injection H as Ec Es Ea. subst c s1 assets.
    apply Event_create_success in C.
    destruct C as (t & s & x & Hv & Htt & Hss & Hxx & He & _ & Hst).
    unfold POST. rewrite Hc, Hi. cbn [noFile]. rewrite Ht, Ha, Hu.
      rewrite (Event_create_valid unicodeLower hostParse st1 id2 now2 _
               t s x Hv Htt Hss Hxx).
    cbv zeta. rewrite Hst at 1. rewrite slugTaken_app, He. unfold slugOf.
    cbn [fields savedFields slug].
    rewrite (proj2 (optEqb_eq _ _) eq_refl), orb_true_r. reflexivity.
Qed.

End PostFacts.

(** ** The further properties at concrete inputs *)

Lemma generateSlug_idempotent_witness :
  isSlug (lit "react-conf-2024") = true
  /\ generateSlug asciiHost (lit "react-conf-2024") = lit "react-conf-2024".
Proof.
  split; [reflexivity|].
  apply (proj2 (proj1 (generateSlug_idempotent asciiHost)
                  (lit "react-conf-2024"))).
  reflexivity.
Defined.

Lemma generateSlug_empty_iff_witness :
  forallb isAscii (lit " ?! ") = true
  /\ generateSlug asciiHost (lit " ?! ") = [].
Proof.
  split; [reflexivity|].
  apply (proj2 (proj2 (generateSlug_empty_iff asciiHost) (lit " ?! ")
                  eq_refl)).
  reflexivity.
Defined.

Lemma normalizeDate_YMD_witness :
  JSDate.parse isoOnlyHost (lit "2024-10-15T09:30:00Z") = Some 1728984600000%Z
  /\ JSDate.isYMD (normalizeDate isoOnlyHost (lit "2024-10-15T09:30:00Z"))
     = true.
Proof.
  split; [reflexivity|].
  apply (normalizeDate_YMD isoOnlyHost (lit "2024-10-15T09:30:00Z")
           1728984600000%Z); [reflexivity|].
  vm_compute. split; discriminate.
Defined.

Lemma normalizeDate_idempotent_witness :
  JSDate.parse isoOnlyHost (lit "2024-10-15T09:30:00Z") = Some 1728984600000%Z
  /\ normalizeDate isoOnlyHost
       (normalizeDate isoOnlyHost (lit "2024-10-15T09:30:00Z"))
     = normalizeDate isoOnlyHost (lit "2024-10-15T09:30:00Z").
Proof.
  split; [reflexivity|].
  apply (normalizeDate_idempotent isoOnlyHost (lit "2024-10-15T09:30:00Z")
           1728984600000%Z).
  reflexivity.
Defined.

Lemma history_unique_slugs_witness :
  List.length (events (history asciiHost isoOnlyHost sampleOps)) = 2%nat
  /\ slug (fields (hd blankEvent
                     (events (history asciiHost isoOnlyHost sampleOps))))
     <> slug (fields (last (events (history asciiHost isoOnlyHost sampleOps))
                        blankEvent))
  /\ nth 1 (events (history asciiHost isoOnlyHost sampleOps)) blankEvent
     = last (events (history asciiHost isoOnlyHost sampleOps)) blankEvent.
Proof.
  split; [reflexivity|]. split.
  - intros Heq.
    pose proof (proj2 (history_unique_slugs asciiHost isoOnlyHost sampleOps)
                  (hd blankEvent
                     (events (history asciiHost isoOnlyHost sampleOps)))
                  (last (events (history asciiHost isoOnlyHost sampleOps))
                     blankEvent)
                  (or_introl eq_refl) (or_intror (or_introl eq_refl)) Heq)
      as E.
    apply (f_equal createdAt) in E. vm_compute in E. discriminate.
  - apply (proj2 (history_unique_slugs asciiHost isoOnlyHost sampleOps)).
    + right. left. reflexivity.
    + right. left. reflexivity.
    + reflexivity.
Defined.

Lemma history_events_normal_witness :
  In (hd blankEvent (events (history asciiHost isoOnlyHost sampleOps)))
    (events (history asciiHost isoOnlyHost sampleOps))
  /\ storedEventOK asciiHost
       (hd blankEvent (events (history asciiHost isoOnlyHost sampleOps))).
Proof.
  assert (Hin : In (hd blankEvent
                      (events (history asciiHost isoOnlyHost sampleOps)))
                  (events (history asciiHost isoOnlyHost sampleOps)))
    by (left; reflexivity).
  split; [exact Hin|].
  exact (history_events_normal asciiHost isoOnlyHost sampleOps _ Hin).
Defined.

Lemma history_bookings_refer_witness :
  In (hd blankBooking (bookings (history asciiHost isoOnlyHost sampleOps)))
    (bookings (history asciiHost isoOnlyHost sampleOps))
  /\ exists e,
       In e (events (history asciiHost isoOnlyHost sampleOps))
       /\ eventId
            (booking
               (hd blankBooking
                  (bookings (history asciiHost isoOnlyHost sampleOps))))
          = Some (_id e).
Proof.
  assert (Hin : In (hd blankBooking
                      (bookings (history asciiHost isoOnlyHost sampleOps)))
                  (bookings (history asciiHost isoOnlyHost sampleOps)))
    by (left; reflexivity).
  split; [exact Hin|].
  exact (proj1 (history_bookings_refer asciiHost isoOnlyHost sampleOps _ Hin)).
Defined.

Lemma created_event_is_found_witness :
  GET_event asciiHost sampleEnv storeWithReactConf
    (Some (lit " React-Conf-2024"))
  = mkResponse 200
      (MessageEvent (lit "Event fetched successfully")
         (hd blankEvent (events storeWithReactConf))).
Proof.
  destruct (created_event_is_found asciiHost isoOnlyHost sampleEnv emptyStore
              (oid "65f0a2c4e1b2a3d4c5f60718") 2000 (sampleEvent "React Conf 2024!")
              (hd blankEvent (events storeWithReactConf)) storeWithReactConf
              eq_refl (NoDup_nil _) eq_refl)
    as (s & Hs & H).
  vm_compute in Hs. injection Hs as <-.
  apply H; [discriminate|reflexivity].
Defined.

Lemma empty_slug_event_is_never_found_witness :
  slug (fields (hd blankEvent (events storeWithEmptySlug))) = Some []
  /\ body (GET_event asciiHost sampleEnv storeWithEmptySlug (Some (lit " ")))
     <> MessageEvent (lit "Event fetched successfully")
          (hd blankEvent (events storeWithEmptySlug)).
Proof.
  split; [reflexivity|].
  apply (empty_slug_event_is_never_found asciiHost (fun x H => H)).
  - left. reflexivity.
  - reflexivity.
Defined.

Lemma created_event_can_be_booked_witness :
  Booking_create asciiHost storeWithReactConf
    (oid "75a003c4e1b2a3d4c5f60718") 7000
    (sampleBooking "65f0a2c4e1b2a3d4c5f60718" " Dev@Example.ORG ")
  = (inl (mkIBooking (oid "75a003c4e1b2a3d4c5f60718")
            (sampleBooked "65f0a2c4e1b2a3d4c5f60718" "dev@example.org")
            7000 7000),
     mkStore (events storeWithReactConf)
       (bookings storeWithReactConf
        ++ [mkIBooking (oid "75a003c4e1b2a3d4c5f60718")
              (sampleBooked "65f0a2c4e1b2a3d4c5f60718" "dev@example.org")
              7000 7000])).
Proof.
  exact (created_event_can_be_booked asciiHost isoOnlyHost emptyStore
           (oid "65f0a2c4e1b2a3d4c5f60718") 2000
           (sampleEvent "React Conf 2024!")
           (hd blankEvent (events storeWithReactConf)) storeWithReactConf
           (oid "75a003c4e1b2a3d4c5f60718") 7000 (lit " Dev@Example.ORG ")
           eq_refl eq_refl).
Defined.

Lemma emailRegex_accepts_witness :
  Regex.matches emailRegex (lit "first.last@mail.example.com") = true
  /\ occurrences 64%N (lit "first.last@mail.example.com") = 1%nat.
Proof.
  split; [reflexivity|].
  apply (proj2 (emailRegex_accepts (lit "first.last@mail.example.com"))).
  reflexivity.
Defined.

Lemma Booking_create_validation_witness :
  (exists paths,
      Booking_create asciiHost storeWithReactConf
        (oid "75a004c4e1b2a3d4c5f60718") 8000
        (sampleBooking "65f0a2" "user@example")
      = (inr (ValidationError paths), storeWithReactConf)
      /\ In "eventId"%string paths /\ In "email"%string paths)
  /\ Booking_create asciiHost storeWithReactConf
       (oid "75a004c4e1b2a3d4c5f60718") 8000
       {| eventId := None; email := None |}
     = (inr (ValidationError ["email"; "eventId"]%string),
        storeWithReactConf).
Proof.
  split.
  - destruct (Booking_create_validation asciiHost storeWithReactConf
                (oid "75a004c4e1b2a3d4c5f60718") 8000
                (sampleBooking "65f0a2" "user@example"))
      as (paths & Hc & He & Hm & _).
    + left. intros s E. injection E as <-. reflexivity.
    + exists paths. split; [exact Hc|]. split.
      * apply He. intros s E. injection E as <-. reflexivity.
      * apply Hm. intros addr E. injection E as <-. reflexivity.
  - destruct (Booking_create_validation asciiHost storeWithReactConf
                (oid "75a004c4e1b2a3d4c5f60718") 8000
                {| eventId := None; email := None |})
      as (paths & Hc & _ & _ & _ & Ho).
    + left. intros s E. discriminate.
    + rewrite Hc, (Ho eq_refl eq_refl). reflexivity.
Defined.

Lemma stored_email_shape_witness :
  exists b addr,
    fst (Booking_create asciiHost storeWithReactConf
           (oid "75a005c4e1b2a3d4c5f60718") 9000
           (sampleBooking "65f0a2c4e1b2a3d4c5f60718" "USER@Example.com"))
    = inl b
    /\ email (booking b) = Some addr
    /\ Forall (fun c => isUpper c = false) addr
    /\ occurrences 64%N addr = 1%nat.
Proof.
  destruct (stored_email_shape asciiHost storeWithReactConf
              (oid "75a005c4e1b2a3d4c5f60718") 9000
              (sampleBooking "65f0a2c4e1b2a3d4c5f60718" "USER@Example.com")
              (mkIBooking (oid "75a005c4e1b2a3d4c5f60718")
                 (sampleBooked "65f0a2c4e1b2a3d4c5f60718" "user@example.com")
                 9000 9000)
              (mkStore (events storeWithReactConf)
                 (bookings storeWithReactConf
                  ++ [mkIBooking (oid "75a005c4e1b2a3d4c5f60718")
                        (sampleBooked "65f0a2c4e1b2a3d4c5f60718"
                           "user@example.com")
                        9000 9000]))
              eq_refl)
    as (addr & Ha & Hu & _ & Ho).
  eexists. exists addr. split; [reflexivity|]. auto.
Defined.

Lemma GET_event_normalizes_query_witness :
  GET_event asciiHost sampleEnv storeWithReactConf
    (Some (lit " React-Conf-2024"))
  = GET_event asciiHost sampleEnv storeWithReactConf
      (Some (lit "REACT-CONF-2024  ")).
Proof.
  apply GET_event_normalizes_query;
    [vm_compute; discriminate|vm_compute; discriminate|reflexivity].
Defined.

Lemma GET_event_status_witness :
  GET_event asciiHost {| MONGODB_URI := Some []; connectFailure := None |}
    storeWithReactConf (Some (lit "react-conf-2024"))
  = mkResponse 500 (Message (lit "Database configuration error")).
Proof.
  exact (proj2 (GET_event_status asciiHost
                  {| MONGODB_URI := Some []; connectFailure := None |}
                  storeWithReactConf (Some (lit "react-conf-2024")))
           eq_refl).
Defined.

Lemma connection_is_kept_witness :
  Cache.connects
    (Cache.run
       [Cache.Call None; Cache.Settle (Cache.Failed (lit "timeout"));
        Cache.Call (MONGODB_URI sampleEnv)]
       connectedProcess)
  = 1%nat
  /\ fst (Cache.call (MONGODB_URI sampleEnv)
            (Cache.run
               [Cache.Call None; Cache.Settle (Cache.Failed (lit "timeout"));
                Cache.Call (MONGODB_URI sampleEnv)]
               connectedProcess))
     = Cache.Returns.
Proof.
  destruct (connection_is_kept connectedProcess
              [Cache.Call None; Cache.Settle (Cache.Failed (lit "timeout"));
               Cache.Call (MONGODB_URI sampleEnv)]
              eq_refl)
    as (_ & Hc & Hr).
  split; [exact Hc|exact (Hr (MONGODB_URI sampleEnv))].
Defined.

Lemma failed_attempt_is_retried_witness :
  fst (Cache.settle (Cache.Failed (lit "timeout"))
         (snd (Cache.call (MONGODB_URI sampleEnv) Cache.initial)))
  = [Cache.Throws (lit "timeout")]
  /\ Cache.connects
       (snd (Cache.call (MONGODB_URI sampleEnv)
               (snd (Cache.settle (Cache.Failed (lit "timeout"))
                       (snd (Cache.call (MONGODB_URI sampleEnv)
                               Cache.initial))))))
     = 2%nat.
Proof.
  destruct (failed_attempt_is_retried
              (snd (Cache.call (MONGODB_URI sampleEnv) Cache.initial))
              (lit "timeout") (MONGODB_URI sampleEnv)
              eq_refl eq_refl eq_refl)
    as (Ha & _ & _ & Hc).
  split; [exact Ha|]. now rewrite Hc.
Defined.

Lemma concurrent_calls_share_attempt_witness :
  Cache.connects
    (Cache.run (repeat (Cache.Call (MONGODB_URI sampleEnv)) 3) Cache.initial)
  = 1%nat
  /\ fst (Cache.settle Cache.Connected
            (Cache.run (repeat (Cache.Call (MONGODB_URI sampleEnv)) 3)
               Cache.initial))
     = [Cache.Returns; Cache.Returns; Cache.Returns].
Proof.
  destruct (concurrent_calls_share_attempt (MONGODB_URI sampleEnv) 2
              Cache.Connected eq_refl)
    as (Hc & Ha & _).
  split; [exact Hc|exact Ha].
Defined.

Lemma POST_store_witness :
  exists created,
    fst (fst (samplePost (Some "React Conf 2024!"%string)))
    = mkPostResponse 201 (Created created)
    /\ image (fields created)
       = Some (lit "https://res.cloudinary.com/demo/EventHub/event.png").
Proof.
  destruct (POST_store asciiHost isoOnlyHost (list jsstring) sampleJSON
              sampleCast sampleUpload sampleEnv emptyStore
                (oid "65f0e1c4e1b2a3d4c5f60718") 6000
              (sampleForm (Some "React Conf 2024!"%string))
              (fst (fst (samplePost (Some "React Conf 2024!"%string))))
              (snd (fst (samplePost (Some "React Conf 2024!"%string))))
              (snd (samplePost (Some "React Conf 2024!"%string)))
              eq_refl)
    as [[Hne _]|(created & content & url & Hr & _ & _ & Hu & Hi & _)].
  - exfalso. apply Hne. reflexivity.
  - exists created. split; [exact Hr|].
    rewrite Hi. vm_compute in Hu. injection Hu as <-. reflexivity.
Defined.

Lemma POST_uploads_before_validation_witness :
  exists paths,
    samplePost None
    = (creationFailed (SaveFailure (ValidationError paths)),
       emptyStore, [[137; 80; 78; 71]%N])
    /\ In "title"%string paths.
Proof.
  destruct (POST_uploads_before_validation asciiHost isoOnlyHost
              (list jsstring) sampleJSON sampleCast sampleUpload sampleEnv
              emptyStore (oid "65f0e1c4e1b2a3d4c5f60718") 6000
              (sampleForm None) [137; 80; 78; 71]%N
              (Some (lit "https://res.cloudinary.com/demo/EventHub/event.png "))
              [lit "react"] [lit "Keynote"] "title"%string
              eq_refl eq_refl eq_refl eq_refl eq_refl)
    as (paths & Hc & _ & Ht).
  - exists (missingText None). split; [now left|].
    intros s E. discriminate.
  - exists paths. split; [exact Hc|]. now apply Ht.
Defined.

Lemma POST_checks_witness :
  snd (samplePost (Some "React Conf 2024!"%string)) <> []
  /\ exists content secure_url,
       snd (samplePost (Some "React Conf 2024!"%string)) = [content]
       /\ formImage (sampleForm (Some "React Conf 2024!"%string))
          = Some (FileValue content)
       /\ sampleUpload content = Uploaded secure_url.
Proof.
  assert (Hne : snd (samplePost (Some "React Conf 2024!"%string)) <> [])
    by discriminate.
  split; [exact Hne|].
  destruct (proj1 (POST_checks asciiHost isoOnlyHost (list jsstring)
                     sampleJSON sampleCast sampleUpload sampleEnv emptyStore
                     (oid "65f0e1c4e1b2a3d4c5f60718") 6000
                     (sampleForm (Some "React Conf 2024!"%string))
                     (fst (fst (samplePost (Some "React Conf 2024!"%string))))
                     (snd (fst (samplePost (Some "React Conf 2024!"%string))))
                     (snd (samplePost (Some "React Conf 2024!"%string)))
                     eq_refl)
              Hne)
    as (content & url & Ha & _ & Hf & _ & _ & Hu).
  exists content, url. auto.
Defined.

Lemma POST_twice_witness :
  POST asciiHost isoOnlyHost sampleJSON sampleCast sampleUpload sampleEnv
    (snd (fst (samplePost (Some "React Conf 2024!"%string))))
      (oid "65f0e2c4e1b2a3d4c5f60718") 7000
    (sampleForm (Some "React Conf 2024!"%string))
  = (creationFailed (SaveFailure (DuplicateKeyError "slug")),
     snd (fst (samplePost (Some "React Conf 2024!"%string))),
     snd (samplePost (Some "React Conf 2024!"%string))).
Proof.
  exact (POST_twice asciiHost isoOnlyHost (list jsstring) sampleJSON
           sampleCast sampleUpload sampleEnv emptyStore
             (oid "65f0e1c4e1b2a3d4c5f60718") 6000
           (oid "65f0e2c4e1b2a3d4c5f60718") 7000 (sampleForm (Some "React Conf 2024!"%string))
           (hd blankEvent
              (events (snd (fst (samplePost (Some "React Conf 2024!"%string))))))
           (snd (fst (samplePost (Some "React Conf 2024!"%string))))
           (snd (samplePost (Some "React Conf 2024!"%string)))
           eq_refl).
Defined.
